(** * Wave Function Collapse solver (src/wfc/wfc_solver.py)

    A shallow embedding of the solver: the boolean possibility tensor
    (``wave``), the adjacency matrices, the propagator and the recursive
    search driver, followed by the properties proved about them.

    numpy arrays are modelled as a shape together with nested lists of
    booleans; every entry is read through [get] and every array the code
    builds is produced by [tabulate].  Python integers that are used as
    indices stay in [Z], and [norm_index] is numpy's index normalisation
    (a negative index counts from the end, anything else out of range is an
    IndexError).  Exceptions are values of [result]. *)

From Stdlib Require Import List ZArith Lia Bool Arith.
Import ListNotations.

(** ** Exceptions and results *)

Inductive exn : Type :=
| Contradiction
| IndexError
| ValueError
| TypeError
| UnboundLocalError.

(** [OutOfFuel] is not a Python outcome: it marks a bounded unfolding of a
    loop or of the recursion that was cut before the code finished. *)
Inductive result (A : Type) : Type :=
| Ok (a : A)
| Raise (e : exn)
| OutOfFuel.

Arguments Ok {A} a.
Arguments Raise {A} e.
Arguments OutOfFuel {A}.

Definition bind {A B : Type} (r : result A) (k : A -> result B) : result B :=
  match r with
  | Ok a => k a
  | Raise e => Raise e
  | OutOfFuel => OutOfFuel
  end.

Notation "x <- r ;; k" := (bind r (fun x => k))
  (at level 61, r at next level, right associativity).

(** ** Finite sums and tabulation *)

Fixpoint nsum (n : nat) (f : nat -> nat) : nat :=
  match n with
  | 0 => 0
  | S k => nsum k f + f k
  end.

Definition b2n (b : bool) : nat := if b then 1 else 0.

Definition tab {A : Type} (n : nat) (f : nat -> A) : list A := map f (seq 0 n).

(** ** numpy boolean arrays of rank 3 and 2 *)

Record ndarray : Type := mkArr {
  dimN : nat;
  dimW : nat;
  dimH : nat;
  cells : list (list (list bool))
}.

Definition tabulate (n w h : nat) (f : nat -> nat -> nat -> bool) : ndarray :=
  mkArr n w h (tab n (fun p => tab w (fun x => tab h (fun y => f p x y)))).

Definition get (a : ndarray) (p x y : nat) : bool :=
  nth y (nth x (nth p (cells a) []) []) false.

(** [a.sum()] and [numpy.count_nonzero(a, axis=0)[x, y]]. *)
Definition sum (a : ndarray) : nat :=
  nsum (dimN a) (fun p => nsum (dimW a) (fun x => nsum (dimH a) (fun y => b2n (get a p x y)))).

Definition count_at (a : ndarray) (x y : nat) : nat :=
  nsum (dimN a) (fun p => b2n (get a p x y)).

Record matrix : Type := mkMat {
  mrows : nat;
  mcols : nat;
  mcells : list (list bool)
}.

Definition mtabulate (r c : nat) (f : nat -> nat -> bool) : matrix :=
  mkMat r c (tab r (fun i => tab c (fun j => f i j))).

Definition mget (m : matrix) (i j : nat) : bool :=
  nth j (nth i (mcells m) []) false.

(** numpy index normalisation on an axis of length [len]. *)
Definition norm_index (len : nat) (i : Z) : option nat :=
  if (0 <=? i)%Z then
    if (i <? Z.of_nat len)%Z then Some (Z.to_nat i) else None
  else
    if (0 <=? i + Z.of_nat len)%Z then Some (Z.to_nat (i + Z.of_nat len)) else None.

(** Assignment of the scalar [v] to the entries selected by [sel]
    (a basic-slicing assignment such as [a[:, :, k] = v]). *)
Definition assign (a : ndarray) (sel : nat -> nat -> nat -> bool) (v : bool) : ndarray :=
  tabulate (dimN a) (dimW a) (dimH a)
    (fun p x y => if sel p x y then v else get a p x y).

(** ** makeWave *)

Definition ones (n w h : nat) : ndarray := tabulate n w h (fun _ _ _ => true).

(** The shape arguments are naturals (numpy rejects negative dimensions
    before anything else happens); [ground] is an arbitrary Python integer
    or [None].  The [print] call has no effect on the returned array. *)
Definition makeWave (n w h : nat) (ground : option Z) : result ndarray :=
  let wave := ones n w h in
  match ground with
  | None => Ok wave
  | Some g =>
      match norm_index h (Z.of_nat h - 1) with
      | None => Raise IndexError
      | Some k =>
          let wave := assign wave (fun _ _ y => y =? k) false in
          match norm_index n g with
          | None => Raise IndexError
          | Some gp => Ok (assign wave (fun p _ y => (p =? gp) && (y =? k)) true)
          end
      end
  end.

(** ** makeAdj *)

(** A direction is the key [(dx, dy)] of the adjacency dictionaries.  Python
    dictionaries keep insertion order, and [makeAdj] reads the first value,
    so the dictionaries are association lists in insertion order. *)
Definition direction : Type := (Z * Z)%type.

Definition adjacency_lists : Type := list (direction * list (list Z)).

Definition adjacency : Type := list (direction * matrix).

Definition mzeros (r c : nat) : matrix := mtabulate r c (fun _ _ => false).

Definition mset (m : matrix) (i j : nat) (v : bool) : matrix :=
  mtabulate (mrows m) (mcols m)
    (fun a b => if (a =? i) && (b =? j) then v else mget m a b).

(** [m[i, j] = 1] with [i] produced by [enumerate] and [j] read from the
    neighbour list. *)
Definition mark (m : matrix) (i : nat) (j : Z) : result matrix :=
  if i <? mrows m then
    match norm_index (mcols m) j with
    | Some j' => Ok (mset m i j' true)
    | None => Raise IndexError
    end
  else Raise IndexError.

Fixpoint fill_row (m : matrix) (i : nat) (js : list Z) : result matrix :=
  match js with
  | [] => Ok m
  | j :: js' => m' <- mark m i j ;; fill_row m' i js'
  end.

Fixpoint fill_rows (m : matrix) (i : nat) (rows : list (list Z)) : result matrix :=
  match rows with
  | [] => Ok m
  | js :: rest => m' <- fill_row m i js ;; fill_rows m' (S i) rest
  end.

Fixpoint makeAdj_loop (num_patterns : nat) (adjLists : adjacency_lists) : result adjacency :=
  match adjLists with
  | [] => Ok []
  | (d, rows) :: rest =>
      m <- fill_rows (mzeros num_patterns num_patterns) 0 rows ;;
      ms <- makeAdj_loop num_patterns rest ;;
      Ok ((d, m) :: ms)
  end.

Definition makeAdj (adjLists : adjacency_lists) : result adjacency :=
  match adjLists with
  | [] => Raise IndexError
  | (_, rows) :: _ => makeAdj_loop (length rows) adjLists
  end.

(** ** Heuristics

    The lexical heuristics are the ones the driver is tested with.  The
    location heuristic built by [makeEntropyLocationHeuristic] adds
    floating-point preferences to the counts and is left out. *)

(** Cell weights of the lexical location heuristic: the number of possible
    patterns, or [numpy.inf] ([None]) at a resolved cell. *)
Definition weight : Type := option nat.

Definition weight_ltb (a b : weight) : bool :=
  match a, b with
  | Some x, Some y => x <? y
  | Some _, None => true
  | None, _ => false
  end.

(** [numpy.argmin] of a flat sequence: the first position of the minimum. *)
Fixpoint argmin_from (best : nat) (bw : weight) (i : nat) (l : list weight) : nat :=
  match l with
  | [] => best
  | c :: l' =>
      if weight_ltb c bw then argmin_from i c (S i) l' else argmin_from best bw (S i) l'
  end.

Definition argmin (l : list weight) : result nat :=
  match l with
  | [] => Raise ValueError
  | c :: l' => Ok (argmin_from 0 c 1 l')
  end.

Definition cell_weights (wave : ndarray) : list (list weight) :=
  tab (dimW wave) (fun x => tab (dimH wave) (fun y =>
    if 1 <? count_at wave x y then Some (count_at wave x y) else None)).

Definition lexicalLocationHeuristic (wave : ndarray) : result (Z * Z) :=
  k <- argmin (concat (cell_weights wave)) ;;
  Ok (Z.of_nat (k / dimH wave), Z.of_nat (k mod dimH wave)).

Fixpoint first_true (i : nat) (l : list bool) : option nat :=
  match l with
  | [] => None
  | b :: l' => if b then Some i else first_true (S i) l'
  end.

Definition lexicalPatternHeuristic (weights : list bool) : result Z :=
  match first_true 0 weights with
  | Some p => Ok (Z.of_nat p)
  | None => Raise IndexError
  end.

(** ** propagate *)

Definition pad_wrap (wave : ndarray) : result ndarray :=
  if (dimW wave =? 0) || (dimH wave =? 0) then Raise ValueError
  else Ok (tabulate (dimN wave) (dimW wave + 2) (dimH wave + 2)
             (fun p a b => get wave p ((a + dimW wave - 1) mod dimW wave)
                                      ((b + dimH wave - 1) mod dimH wave))).

Definition pad_const (wave : ndarray) : ndarray :=
  tabulate (dimN wave) (dimW wave + 2) (dimH wave + 2)
    (fun p a b =>
       if (1 <=? a) && (a <=? dimW wave) && (1 <=? b) && (b <=? dimH wave)
       then get wave p (a - 1) (b - 1) else true).

(** Bound of a Python slice on an axis of length [len]. *)
Definition clip_slice (len : nat) (i : Z) : nat :=
  if (i <? 0)%Z then Z.to_nat (Z.max 0 (i + Z.of_nat len))
  else Z.to_nat (Z.min i (Z.of_nat len)).

(** [padded[:, 1+dx : 1+W+dx, 1+dy : 1+H+dy]] *)
Definition shifted (padded : ndarray) (w h : nat) (d : direction) : ndarray :=
  let '(dx, dy) := d in
  let sx := clip_slice (dimW padded) (1 + dx) in
  let ex := clip_slice (dimW padded) (1 + Z.of_nat w + dx) in
  let sy := clip_slice (dimH padded) (1 + dy) in
  let ey := clip_slice (dimH padded) (1 + Z.of_nat h + dy) in
  tabulate (dimN padded) (ex - sx) (ey - sy)
    (fun p x y => get padded p (sx + x) (sy + y)).

(** numpy broadcasting of two axis lengths, and the index read on an axis
    that is broadcast. *)
Definition bdim (a b : nat) : option nat :=
  if a =? 1 then Some b
  else if b =? 1 then Some a
  else if a =? b then Some a
  else None.

Definition bidx (dim i : nat) : nat := if dim =? 1 then 0 else i.

Fixpoint any_below (n : nat) (f : nat -> bool) : bool :=
  match n with
  | 0 => false
  | S k => any_below k f || f k
  end.

(** [numpy.einsum('pwh,pq->qwh', s, m) > 0] on boolean operands. *)
Definition support (s : ndarray) (m : matrix) : result ndarray :=
  match bdim (dimN s) (mrows m) with
  | None => Raise ValueError
  | Some np =>
      Ok (tabulate (mcols m) (dimW s) (dimH s)
            (fun q x y =>
               any_below np (fun p =>
                 get s (bidx (dimN s) p) x y && mget m (bidx (mrows m) p) q)))
  end.

Fixpoint supports_of (padded : ndarray) (w h : nat) (adj : adjacency) : result (list ndarray) :=
  match adj with
  | [] => Ok []
  | (d, m) :: rest =>
      s <- support (shifted padded w h d) m ;;
      ss <- supports_of padded w h rest ;;
      Ok (s :: ss)
  end.

(** [wave *= s]: the product is written into [wave], so [s] must broadcast
    to the shape of [wave]. *)
Definition fits (dim sdim : nat) : bool := (sdim =? dim) || (sdim =? 1).

Definition imul (wave s : ndarray) : result ndarray :=
  if fits (dimN wave) (dimN s) && fits (dimW wave) (dimW s) && fits (dimH wave) (dimH s)
  then Ok (tabulate (dimN wave) (dimW wave) (dimH wave)
             (fun p x y => get wave p x y
                && get s (bidx (dimN s) p) (bidx (dimW s) x) (bidx (dimH s) y)))
  else Raise ValueError.

(** Code that mutates the array it was given returns its outcome together
    with the contents of that array when it stops. *)
Fixpoint apply_supports (wave : ndarray) (supports : list ndarray) : result unit * ndarray :=
  match supports with
  | [] => (Ok tt, wave)
  | s :: rest =>
      match imul wave s with
      | Ok wave' => apply_supports wave' rest
      | Raise e => (Raise e, wave)
      | OutOfFuel => (OutOfFuel, wave)
      end
  end.

(** One pass of the body of the [while] loop up to the test of the count. *)
Definition sweep (wave : ndarray) (adj : adjacency) (periodic : bool) : result unit * ndarray :=
  match (if periodic then pad_wrap wave else Ok (pad_const wave)) with
  | Ok padded =>
      match supports_of padded (dimW wave) (dimH wave) adj with
      | Ok supports => apply_supports wave supports
      | Raise e => (Raise e, wave)
      | OutOfFuel => (OutOfFuel, wave)
      end
  | Raise e => (Raise e, wave)
  | OutOfFuel => (OutOfFuel, wave)
  end.

Fixpoint propagate_loop (fuel : nat) (wave : ndarray) (adj : adjacency) (periodic : bool)
    (last_count : nat) : result unit * ndarray :=
  match fuel with
  | 0 => (OutOfFuel, wave)
  | S fuel' =>
      match sweep wave adj periodic with
      | (Ok _, wave') =>
          if sum wave' =? last_count then (Ok tt, wave')
          else propagate_loop fuel' wave' adj periodic (sum wave')
      | failed => failed
      end
  end.

(** The loop stops at the latest after [sum wave + 1] passes (see
    [propagate_loop_enough_fuel]). *)
Definition propagate (wave : ndarray) (adj : adjacency) (periodic : bool) : result unit * ndarray :=
  match propagate_loop (S (sum wave)) wave adj periodic (sum wave) with
  | (Ok _, wave') =>
      if sum wave' =? 0 then (Raise Contradiction, wave') else (Ok tt, wave')
  | failed => failed
  end.

(** ** observe *)

Definition location_heuristic : Type := ndarray -> result (Z * Z).

Definition pattern_heuristic : Type := list bool -> result Z.

(** [wave[:, i, j]] *)
Definition cell (wave : ndarray) (i j : Z) : result (list bool) :=
  match norm_index (dimW wave) i, norm_index (dimH wave) j with
  | Some x, Some y => Ok (tab (dimN wave) (fun p => get wave p x y))
  | _, _ => Raise IndexError
  end.

Definition observe (wave : ndarray) (locationHeuristic : location_heuristic)
    (patternHeuristic : pattern_heuristic) : result (Z * Z * Z) :=
  ij <- locationHeuristic wave ;;
  weights <- cell wave (fst ij) (snd ij) ;;
  pattern <- patternHeuristic weights ;;
  Ok (pattern, fst ij, snd ij).

(** ** Hooks *)

(** The hooks are Python callables.  What the driver can see of a callable
    is how many arguments it takes and what it returns; what the caller
    sees of the driver is the sequence of calls it made.  A call with the
    wrong number of arguments is a TypeError. *)
Inductive callable : Type :=
| ChoiceObserver
| BacktrackObserver
| FeasibilityCheck (f : ndarray -> bool).

Inductive event : Type :=
| EvChoice (pattern i j : Z)
| EvBacktrack
| EvFeasible (wave : ndarray) (verdict : bool).

(** [if checkFeasible: if not checkFeasible(wave): raise Contradiction] *)
Definition call_feasible (checkFeasible : option callable) (wave : ndarray)
    : result unit * list event :=
  match checkFeasible with
  | None => (Ok tt, [])
  | Some (FeasibilityCheck f) =>
      (if f wave then Ok tt else Raise Contradiction, [EvFeasible wave (f wave)])
  | Some _ => (Raise TypeError, [])
  end.

(** [if onChoice: onChoice(pattern, i, j)] *)
Definition call_choice (onChoice : option callable) (pattern i j : Z)
    : result unit * list event :=
  match onChoice with
  | None => (Ok tt, [])
  | Some ChoiceObserver => (Ok tt, [EvChoice pattern i j])
  | Some _ => (Raise TypeError, [])
  end.

(** [if onBacktrack: onBacktrack()] *)
Definition call_backtrack (onBacktrack : option callable) : result unit * list event :=
  match onBacktrack with
  | None => (Ok tt, [])
  | Some BacktrackObserver => (Ok tt, [EvBacktrack])
  | Some _ => (Raise TypeError, [])
  end.

(** ** run *)

Definition grid : Type := list (list nat).

(** [numpy.argmax(wave, 0)]: at each cell the first pattern that is true,
    and 0 where none is. *)
Definition argmax0 (wave : ndarray) : grid :=
  tab (dimW wave) (fun x => tab (dimH wave) (fun y =>
    match first_true 0 (tab (dimN wave) (fun p => get wave p x y)) with
    | Some p => p
    | None => 0
    end)).

(** [wave[pattern, i, j] = v] *)
Definition setitem (wave : ndarray) (pattern i j : Z) (v : bool) : result ndarray :=
  match norm_index (dimN wave) pattern, norm_index (dimW wave) i, norm_index (dimH wave) j with
  | Some p, Some x, Some y =>
      Ok (assign wave (fun p' x' y' => (p' =? p) && (x' =? x) && (y' =? y)) v)
  | _, _, _ => Raise IndexError
  end.

(** [wave[:, i, j] = v] *)
Definition setcell (wave : ndarray) (i j : Z) (v : bool) : result ndarray :=
  match norm_index (dimW wave) i, norm_index (dimH wave) j with
  | Some x, Some y => Ok (assign wave (fun _ x' y' => (x' =? x) && (y' =? y)) v)
  | _, _ => Raise IndexError
  end.

(** Lines 99 and 100: the two assignments that commit a choice. *)
Definition commit (wave : ndarray) (pattern i j : Z) : result unit * ndarray :=
  match setcell wave i j false with
  | Ok cleared =>
      match setitem cleared pattern i j true with
      | Ok chosen => (Ok tt, chosen)
      | Raise e => (Raise e, cleared)
      | OutOfFuel => (OutOfFuel, cleared)
      end
  | Raise e => (Raise e, wave)
  | OutOfFuel => (OutOfFuel, wave)
  end.

Definition reraise {A B : Type} (r : result A) : result B :=
  match r with
  | Raise e => Raise e
  | _ => OutOfFuel
  end.

(** What a frame hands back: the outcome, the contents of the array object
    it was called on, and the hook calls it made. *)
Definition frame : Type := (result grid * ndarray * list event)%type.

(** The body of the [try] statement (lines 96 to 105), on the array [wave]
    left by the first [propagate].  [recurse] is the recursive call of line
    103.  The third component tells whether [pattern, i, j] were bound when
    the block was left. *)
Definition try_block (recurse : ndarray -> frame) (wave : ndarray) (adj : adjacency)
    (locationHeuristic : location_heuristic) (patternHeuristic : pattern_heuristic)
    (periodic : bool) (onChoice : option callable)
    : result grid * ndarray * option (Z * Z * Z) * list event :=
  match observe wave locationHeuristic patternHeuristic with
  | Ok (pattern, i, j) =>
      let bound := Some (pattern, i, j) in
      match call_choice onChoice pattern i j with
      | (Ok _, ev) =>
          match commit wave pattern i j with
          | (Ok _, chosen) =>
              match propagate chosen adj periodic with
              | (Ok _, tightened) =>
                  if dimW tightened * dimH tightened <? sum tightened then
                    let '(r, final, ev') := recurse tightened in
                    (r, final, bound, ev ++ ev')
                  else (Ok (argmax0 tightened), tightened, bound, ev)
              | (failed, stopped) => (reraise failed, stopped, bound, ev)
              end
          | (failed, stopped) => (reraise failed, stopped, bound, ev)
          end
      | (failed, ev) => (reraise failed, wave, bound, ev)
      end
  | failed => (reraise failed, wave, None, [])
  end.

(** The recursive call of line 103 passes [onBacktrack] only; the one of
    line 112 passes [onBacktrack, checkFeasible] positionally, so that the
    callee receives the caller's [checkFeasible] as its [onChoice]. *)
Fixpoint run (fuel : nat) (wave : ndarray) (adj : adjacency)
    (locationHeuristic : location_heuristic) (patternHeuristic : pattern_heuristic)
    (periodic backtracking : bool) (onBacktrack onChoice checkFeasible : option callable)
    {struct fuel} : frame :=
  match fuel with
  | 0 => (OutOfFuel, wave, [])
  | S fuel' =>
      match call_feasible checkFeasible wave with
      | (Ok _, ev0) =>
          let original := wave in
          match propagate wave adj periodic with
          | (Ok _, tightened) =>
              let '(r, final, bound, ev1) :=
                try_block
                  (fun w => run fuel' w adj locationHeuristic patternHeuristic
                              periodic backtracking onBacktrack None None)
                  tightened adj locationHeuristic patternHeuristic periodic onChoice in
              match r with
              | Raise Contradiction =>
                  if backtracking then
                    match call_backtrack onBacktrack with
                    | (Ok _, ev2) =>
                        match bound with
                        | Some (pattern, i, j) =>
                            match setitem original pattern i j false with
                            | Ok forbidden =>
                                let '(r', _, ev3) :=
                                  run fuel' forbidden adj locationHeuristic patternHeuristic
                                    periodic backtracking onBacktrack checkFeasible None in
                                (r', final, ev0 ++ ev1 ++ ev2 ++ ev3)
                            | failed => (reraise failed, final, ev0 ++ ev1 ++ ev2)
                            end
                        | None => (Raise UnboundLocalError, final, ev0 ++ ev1 ++ ev2)
                        end
                    | (failed, ev2) => (reraise failed, final, ev0 ++ ev1 ++ ev2)
                    end
                  else (Raise Contradiction, final, ev0 ++ ev1)
              | _ => (r, final, ev0 ++ ev1)
              end
          | (failed, stopped) => (reraise failed, stopped, ev0)
          end
      | (failed, ev0) => (reraise failed, wave, ev0)
      end
  end.

(** ** The adjacency of the tests: checkerboard of #0 and #1, or solid #2 *)

Definition checker_lists : adjacency_lists :=
  let l := [[1%Z]; [0%Z]; [2%Z]] in
  [((1, 0)%Z, l); ((-1, 0)%Z, l); ((0, 1)%Z, l); ((0, -1)%Z, l)].


(** ** Vocabulary of the statements about makeAdj *)

(** The number of patterns [makeAdj] works with: the length of the first
    value of the dictionary. *)
Definition num_patterns_of (adjLists : adjacency_lists) : nat :=
  match adjLists with
  | [] => 0
  | (_, rows) :: _ => length rows
  end.

(** The assignment [m[i, j] = 1] is out of bounds in an [r] by [c] matrix. *)
Definition out_of_bounds (r c i : nat) (j : Z) : Prop :=
  r <= i \/ (j < - Z.of_nat c)%Z \/ (Z.of_nat c <= j)%Z.

(** Some direction lists, at position [i], a neighbour index [j] for which
    the assignment is out of bounds in an [n] by [n] matrix. *)
Definition bad_neighbour (n : nat) (adjLists : adjacency_lists) : Prop :=
  exists d rows i js j,
    In (d, rows) adjLists /\ nth_error rows i = Some js /\ In j js /\
    out_of_bounds n n i j.

(** ** Vocabulary of the statements about propagate and run *)

(** [wave'] has the shape of [wave] and no true entry that [wave] lacks. *)
Definition tightens (wave' wave : ndarray) : Prop :=
  dimN wave' = dimN wave /\ dimW wave' = dimW wave /\ dimH wave' = dimH wave /\
  forall p x y, get wave' p x y = true -> get wave p x y = true.

(** The cell [(x, y)] of [wave] has no possible pattern left. *)
Definition empty_cell (wave : ndarray) (x y : nat) : Prop :=
  x < dimW wave /\ y < dimH wave /\ count_at wave x y = 0.

(** The [while] loop of [propagate], started on [wave], ends normally and
    leaves the array as [wave']. *)
Definition reaches_fixpoint (wave : ndarray) (adj : adjacency) (periodic : bool)
    (wave' : ndarray) : Prop :=
  propagate_loop (S (sum wave)) wave adj periodic (sum wave) = (Ok tt, wave').

(** ** Inputs of the examples *)

(** Two patterns and the single direction [(1, 0)]: pattern #0 may have #0
    at that offset, pattern #1 nothing. *)
Definition one_way_lists : adjacency_lists := [((1, 0)%Z, [[0%Z]; []])].

(** A 2 by 1 grid: cell [(0, 0)] holds pattern #1 only, cell [(1, 0)]
    pattern #0 only. *)
Definition two_cells : ndarray :=
  mkArr 2 2 1 [[[false]; [true]]; [[true]; [false]]].

(** The all-true wave of [test_run], three patterns on a 3 by 4 grid. *)
Definition test_wave : ndarray := ones 3 3 4.

(** The wave of [test_propagate]: the same shape, with the cell [(0, 0)]
    pinned to pattern #0 ([wave[:,0,0] = False; wave[0,0,0] = True]). *)
Definition pinned_wave : ndarray :=
  tabulate 3 3 4 (fun p x y => if (x =? 0) && (y =? 0) then p =? 0 else true).

(** The same shape again, with every pattern possible everywhere except at
    the cell [(1, 2)], which has none. *)
Definition hole_wave : ndarray :=
  tabulate 3 3 4 (fun _ x y => negb ((x =? 1) && (y =? 2))).

(** Two patterns, the four cardinal directions, and no constraint: either
    pattern may have either pattern as a neighbour. *)
Definition free_lists : adjacency_lists :=
  let l := [[0%Z; 1%Z]; [0%Z; 1%Z]] in
  [((1, 0)%Z, l); ((-1, 0)%Z, l); ((0, 1)%Z, l); ((0, -1)%Z, l)].

(** The choices reported to the [onChoice] hook, in order. *)
Definition choices (log : list event) : list (Z * Z * Z) :=
  flat_map (fun e => match e with
                     | EvChoice pattern i j => [(pattern, i, j)]
                     | _ => []
                     end) log.

(** The waves on which the [checkFeasible] hook was evaluated, in order. *)
Definition checked (log : list event) : list ndarray :=
  flat_map (fun e => match e with
                     | EvFeasible wave _ => [wave]
                     | _ => []
                     end) log.

(** The matrices [makeAdj] builds from [checker_lists]. *)
Definition checker_adj : adjacency :=
  Eval vm_compute in
    match makeAdj checker_lists with
    | Ok adj => adj
    | _ => []
    end.

(** An array of the shape of [test_wave] with no true entry. *)
Definition all_false_wave : ndarray := tabulate 3 3 4 (fun _ _ _ => false).

(** The adjacency has a matrix for each of the four cardinal directions. *)
Definition has_direction (adj : adjacency) (d : direction) : Prop :=
  exists m, In (d, m) adj.

Definition cardinal (adj : adjacency) : Prop :=
  has_direction adj (1, 0)%Z /\ has_direction adj (-1, 0)%Z /\
  has_direction adj (0, 1)%Z /\ has_direction adj (0, -1)%Z.

(** ** Vocabulary of the statements about well-shaped adjacencies *)

(** The adjacencies the solver is meant for: a matrix of [n] by [n] entries
    for each direction, and directions of at most one step on each axis
    (the width of the padding in [propagate]). *)
Definition well_shaped (n : nat) (adj : adjacency) : Prop :=
  forall dx dy m, In ((dx, dy), m) adj ->
    mrows m = n /\ mcols m = n /\ (-1 <= dx <= 1)%Z /\ (-1 <= dy <= 1)%Z.

(** The cell that the view shifted by [(dx, dy)] shows at [(x, y)]: the
    neighbour on the torus when [periodic], the neighbour inside the grid
    otherwise, and [None] where the view shows the padding. *)
Definition neighbour (periodic : bool) (w h : nat) (x y : nat) (dx dy : Z)
    : option (nat * nat) :=
  let x' := (Z.of_nat x + dx)%Z in
  let y' := (Z.of_nat y + dy)%Z in
  if periodic then
    Some (Z.to_nat (x' mod Z.of_nat w), Z.to_nat (y' mod Z.of_nat h))
  else if (0 <=? x')%Z && (x' <? Z.of_nat w)%Z && (0 <=? y')%Z && (y' <? Z.of_nat h)%Z
  then Some (Z.to_nat x', Z.to_nat y')
  else None.

(** An assignment [g] of one pattern to every cell that the adjacency
    allows, read the way [propagate] reads the matrices: the pattern [q]
    of a cell needs [m[p, q]] for the pattern [p] of the cell that the view
    shifted by the direction shows, and for some pattern [p] where the view
    shows the padding. *)
Definition allowed (periodic : bool) (adj : adjacency) (n w h : nat)
    (g : nat -> nat -> nat) : Prop :=
  (forall x y, x < w -> y < h -> g x y < n) /\
  forall dx dy m x y, In ((dx, dy), m) adj -> x < w -> y < h ->
    match neighbour periodic w h x y dx dy with
    | Some (x', y') => mget m (g x' y') (g x y) = true
    | None => exists p, p < n /\ mget m p (g x y) = true
    end.

(** Two arrays of the same shape with the same entries. *)
Definition same_entries (a b : ndarray) : Prop :=
  dimN a = dimN b /\ dimW a = dimW b /\ dimH a = dimH b /\
  forall p x y, p < dimN b -> x < dimW b -> y < dimH b -> get a p x y = get b p x y.

(** The number of calls of the [onBacktrack] hook in a log. *)
Definition backtracks (log : list event) : nat :=
  length (filter (fun e => match e with EvBacktrack => true | _ => false end) log).

(** The entry of a grid, as [grid[x][y]]. *)
Definition grid_at (g : grid) (x y : nat) : nat := nth y (nth x g []) 0.

(** What [makeAdj] makes of one entry of the dictionary when there are [n]
    patterns: the same direction, and the [n] by [n] matrix whose entry
    [(i, k)] is true exactly when the list at position [i] names [k],
    possibly by a negative index. *)
Definition lists_matrix (n : nat) (e : direction * list (list Z)) (e' : direction * matrix)
    : Prop :=
  fst e = fst e' /\ mrows (snd e') = n /\ mcols (snd e') = n /\
  forall i k, i < n -> k < n ->
    (mget (snd e') i k = true <->
     exists js j, nth_error (snd e) i = Some js /\ In j js /\ norm_index n j = Some k).

(** [r] is the first position of a minimum of the weights [l]. *)
Definition first_min (l : list weight) (r : nat) : Prop :=
  r < length l /\
  (forall k, k < length l -> weight_ltb (nth k l None) (nth r l None) = false) /\
  (forall k, k < r -> weight_ltb (nth r l None) (nth k l None) = true).
(** * Properties *)

(** ** Tabulation and sums *)

Lemma tab_length (A : Type) (n : nat) (f : nat -> A) : length (tab n f) = n.
Proof. unfold tab. now rewrite length_map, length_seq. Qed.

Lemma nth_tab (A : Type) (n : nat) (f : nat -> A) (d : A) (i : nat) :
  nth i (tab n f) d = if i <? n then f i else d.
Proof.
  unfold tab. destruct (Nat.ltb_spec i n) as [Hlt | Hge].
  - rewrite (nth_indep _ d (f 0)) by now rewrite length_map, length_seq.
    rewrite map_nth. now rewrite seq_nth.
  - apply nth_overflow. now rewrite length_map, length_seq.
Qed.

Lemma get_tabulate (n w h : nat) (f : nat -> nat -> nat -> bool) (p x y : nat) :
  get (tabulate n w h f) p x y =
  if (p <? n) && (x <? w) && (y <? h) then f p x y else false.
Proof.
  unfold get, tabulate; simpl. rewrite nth_tab.
  destruct (p <? n); simpl.
  - rewrite nth_tab. destruct (x <? w); simpl.
    + now rewrite nth_tab.
    + now destruct y.
  - now destruct x, y.
Qed.

Lemma get_tabulate_in (n w h : nat) (f : nat -> nat -> nat -> bool) (p x y : nat) :
  p < n -> x < w -> y < h -> get (tabulate n w h f) p x y = f p x y.
Proof.
  intros Hp Hx Hy. rewrite get_tabulate.
  apply Nat.ltb_lt in Hp, Hx, Hy. now rewrite Hp, Hx, Hy.
Qed.

Lemma mget_mtabulate (r c : nat) (f : nat -> nat -> bool) (i j : nat) :
  mget (mtabulate r c f) i j = if (i <? r) && (j <? c) then f i j else false.
Proof.
  unfold mget, mtabulate; simpl. rewrite nth_tab.
  destruct (i <? r); simpl.
  - now rewrite nth_tab.
  - now destruct j.
Qed.

Lemma nsum_ext (n : nat) (f g : nat -> nat) :
  (forall i, i < n -> f i = g i) -> nsum n f = nsum n g.
Proof.
  induction n as [| n IH]; intros Hfg; simpl; [reflexivity |].
  rewrite IH, Hfg by auto with arith. reflexivity.
Qed.

Lemma nsum_le (n : nat) (f g : nat -> nat) :
  (forall i, i < n -> f i <= g i) -> nsum n f <= nsum n g.
Proof.
  induction n as [| n IH]; intros Hfg; simpl; [lia |].
  specialize (Hfg n (Nat.lt_succ_diag_r n)) as Hn.
  assert (nsum n f <= nsum n g) by (apply IH; auto with arith). lia.
Qed.

Lemma nsum_const (n c : nat) : nsum n (fun _ => c) = n * c.
Proof. induction n as [| n IH]; simpl; [reflexivity | rewrite IH; lia]. Qed.

Lemma nsum_zero (n : nat) (f : nat -> nat) :
  nsum n f = 0 <-> forall i, i < n -> f i = 0.
Proof.
  induction n as [| n IH]; simpl.
  - split; [intros _ i Hi; lia | reflexivity].
  - split.
    + intros H i Hi. assert (nsum n f = 0 /\ f n = 0) as [H1 H2] by lia.
      destruct (Nat.eq_dec i n) as [-> | Hne]; [exact H2 |].
      apply IH; [exact H1 | lia].
    + intros H. rewrite (proj2 IH), H by auto with arith. reflexivity.
Qed.

(** A sum of indicator values with a single distinguished position. *)
Lemma nsum_single (n k : nat) (f : nat -> nat) (c e : nat) :
  k < n -> f k = e -> (forall i, i < n -> i <> k -> f i = c) ->
  nsum n f + c = n * c + e.
Proof.
  revert k. induction n as [| n IH]; intros k Hk Hfk Hother; [lia |].
  simpl. destruct (Nat.eq_dec k n) as [-> | Hne].
  - rewrite (nsum_ext n f (fun _ => c)), nsum_const by (intros; apply Hother; lia). lia.
  - rewrite (Hother n) by lia.
    specialize (IH k ltac:(lia) Hfk ltac:(intros; apply Hother; lia)). lia.
Qed.

Lemma sum_tabulate (n w h : nat) (f : nat -> nat -> nat -> bool) :
  sum (tabulate n w h f) =
  nsum n (fun p => nsum w (fun x => nsum h (fun y => b2n (f p x y)))).
Proof.
  unfold sum; simpl.
  apply nsum_ext; intros p Hp. apply nsum_ext; intros x Hx.
  apply nsum_ext; intros y Hy. now rewrite get_tabulate_in.
Qed.

Lemma sum_zero (a : ndarray) :
  sum a = 0 <->
  forall p x y, p < dimN a -> x < dimW a -> y < dimH a -> get a p x y = false.
Proof.
  unfold sum. rewrite nsum_zero. split.
  - intros H p x y Hp Hx Hy. specialize (H p Hp).
    rewrite nsum_zero in H. specialize (H x Hx).
    rewrite nsum_zero in H. specialize (H y Hy).
    now destruct (get a p x y).
  - intros H p Hp. apply nsum_zero; intros x Hx. apply nsum_zero; intros y Hy.
    now rewrite H.
Qed.

Lemma count_at_zero (a : ndarray) (x y : nat) :
  count_at a x y = 0 <-> forall p, p < dimN a -> get a p x y = false.
Proof.
  unfold count_at. rewrite nsum_zero. split; intros H p Hp; specialize (H p Hp).
  - now destruct (get a p x y).
  - now rewrite H.
Qed.

(** The total is zero exactly when every cell is empty. *)
Lemma sum_zero_cells (a : ndarray) :
  sum a = 0 <-> forall x y, x < dimW a -> y < dimH a -> count_at a x y = 0.
Proof.
  rewrite sum_zero. split.
  - intros H x y Hx Hy. apply count_at_zero. intros p Hp. now apply H.
  - intros H p x y Hp Hx Hy. specialize (H x y Hx Hy).
    rewrite count_at_zero in H. now apply H.
Qed.

Lemma norm_index_bound (len : nat) (i : Z) (k : nat) :
  norm_index len i = Some k -> k < len.
Proof.
  unfold norm_index.
  destruct (Z.leb_spec 0 i).
  - destruct (Z.ltb_spec i (Z.of_nat len)); [| discriminate].
    intros [= <-]. lia.
  - destruct (Z.leb_spec 0 (i + Z.of_nat len)); [| discriminate].
    intros [= <-]. lia.
Qed.

Lemma norm_index_nonneg (len : nat) (i : Z) :
  (0 <= i < Z.of_nat len)%Z -> norm_index len i = Some (Z.to_nat i).
Proof.
  intros [H0 H1]. unfold norm_index.
  destruct (Z.leb_spec 0 i); [| lia].
  destruct (Z.ltb_spec i (Z.of_nat len)); [reflexivity | lia].
Qed.

Lemma norm_index_neg (len : nat) (i : Z) :
  (- Z.of_nat len <= i < 0)%Z -> norm_index len i = Some (Z.to_nat (Z.of_nat len + i)).
Proof.
  intros [H0 H1]. unfold norm_index.
  destruct (Z.leb_spec 0 i); [lia |].
  destruct (Z.leb_spec 0 (i + Z.of_nat len)); [| lia].
  now rewrite Z.add_comm.
Qed.

Lemma norm_index_none (len : nat) (i : Z) :
  norm_index len i = None <-> (i < - Z.of_nat len \/ Z.of_nat len <= i)%Z.
Proof.
  unfold norm_index.
  destruct (Z.leb_spec 0 i).
  - destruct (Z.ltb_spec i (Z.of_nat len)); split; try discriminate; try lia; auto.
  - destruct (Z.leb_spec 0 (i + Z.of_nat len)); split; try discriminate; try lia; auto.
Qed.

(** ** makeWave *)

Lemma bottom_row_index (h : nat) :
  0 < h -> norm_index h (Z.of_nat h - 1) = Some (h - 1).
Proof.
  intros Hh. rewrite norm_index_nonneg by lia. f_equal. lia.
Qed.

(** With a ground index that numpy accepts, [makeWave] returns the array
    whose bottom row holds the normalised ground pattern only. *)
Lemma makeWave_pinned (n w h : nat) (g : Z) (gp : nat) :
  0 < h -> norm_index n g = Some gp ->
  exists wave,
    makeWave n w h (Some g) = Ok wave /\
    dimN wave = n /\ dimW wave = w /\ dimH wave = h /\
    forall p x y, p < n -> x < w -> y < h ->
      get wave p x y = if y =? h - 1 then p =? gp else true.
Proof.
  intros Hh Hg. unfold makeWave. rewrite bottom_row_index, Hg by assumption.
  eexists; split; [reflexivity |]. repeat split.
  intros p x y Hp Hx Hy. unfold assign, ones; simpl.
  rewrite get_tabulate_in by assumption.
  rewrite get_tabulate_in by assumption.
  rewrite get_tabulate_in by assumption.
  destruct (y =? h - 1), (p =? gp); reflexivity.
Qed.

Lemma count_pinned_bottom (n gp : nat) :
  gp < n -> nsum n (fun p => b2n (p =? gp)) = 1.
Proof.
  intros Hg.
  pose proof (nsum_single n gp (fun p => b2n (p =? gp)) 0 1 Hg) as H.
  cbv beta in H. rewrite Nat.eqb_refl in H. specialize (H eq_refl).
  rewrite Nat.add_0_r in H. rewrite H; [lia |].
  intros i _ Hne. apply Nat.eqb_neq in Hne. now rewrite Hne.
Qed.

Lemma sum_pinned (wave : ndarray) (gp : nat) :
  0 < dimH wave -> gp < dimN wave ->
  (forall p x y, p < dimN wave -> x < dimW wave -> y < dimH wave ->
     get wave p x y = if y =? dimH wave - 1 then p =? gp else true) ->
  sum wave = dimN wave * dimW wave * (dimH wave - 1) + dimW wave.
Proof.
  destruct wave as [n w h c]; simpl. intros Hh Hg Hget. unfold sum; simpl.
  assert (Hcol : forall p x, p < n -> x < w ->
            nsum h (fun y => b2n (get (mkArr n w h c) p x y)) = (h - 1) + b2n (p =? gp)).
  { intros p x Hp Hx.
    pose proof (nsum_single h (h - 1) (fun y => b2n (get (mkArr n w h c) p x y))
                  1 (b2n (p =? gp)) ltac:(lia)) as H.
    cbv beta in H. rewrite Hget, Nat.eqb_refl in H by lia.
    specialize (H eq_refl).
    assert (forall i, i < h -> i <> h - 1 -> b2n (get (mkArr n w h c) p x i) = 1) as Hrest.
    { intros i Hi Hne. rewrite Hget by assumption.
      apply Nat.eqb_neq in Hne. now rewrite Hne. }
    specialize (H Hrest). lia. }
  rewrite (nsum_ext n _ (fun p => w * ((h - 1) + b2n (p =? gp)))).
  2:{ intros p Hp. rewrite (nsum_ext w _ (fun _ => (h - 1) + b2n (p =? gp))).
      - apply nsum_const.
      - intros x Hx. now apply Hcol. }
  pose proof (nsum_single n gp (fun p => w * ((h - 1) + b2n (p =? gp)))
                (w * (h - 1)) (w * (h - 1) + w) Hg) as H.
  cbv beta in H. rewrite Nat.eqb_refl in H. simpl b2n in H.
  specialize (H ltac:(lia)).
  assert (forall i, i < n -> i <> gp -> w * (h - 1 + b2n (i =? gp)) = w * (h - 1)) as Hrest.
  { intros i _ Hne. apply Nat.eqb_neq in Hne. rewrite Hne. simpl. f_equal. lia. }
  specialize (H Hrest). rewrite <- Nat.mul_assoc. lia.
Qed.

(** C8.  For positive [N], [W], [H] and a ground index [g] in [[0, N)],
    [makeWave N W H (ground=g)] returns a wave in which pattern [g] and no
    other is true at every cell of the row [y = H-1], all [N] patterns are
    true at every other cell, and the number of true entries is
    [N*W*(H-1) + W]. *)
Theorem makeWave_ground_count (n w h : nat) (g : Z) :
  0 < n -> 0 < w -> 0 < h -> (0 <= g < Z.of_nat n)%Z ->
  exists wave,
    makeWave n w h (Some g) = Ok wave /\
    dimN wave = n /\ dimW wave = w /\ dimH wave = h /\
    (forall p x, p < n -> x < w -> get wave p x (h - 1) = (p =? Z.to_nat g)) /\
    (forall x, x < w -> count_at wave x (h - 1) = 1) /\
    (forall p x y, p < n -> x < w -> y < h - 1 -> get wave p x y = true) /\
    (forall x y, x < w -> y < h - 1 -> count_at wave x y = n) /\
    sum wave = n * w * (h - 1) + w.
Proof.
  intros Hn Hw Hh Hg.
  destruct (makeWave_pinned n w h g (Z.to_nat g) Hh (norm_index_nonneg n g Hg))
    as (wave & Hmk & HN & HW & HH & Hget).
  exists wave. split; [exact Hmk |]. repeat (split; [assumption |]).
  assert (Hgp : Z.to_nat g < n) by lia.
  split; [| split; [| split; [| split]]].
  - intros p x Hp Hx. rewrite Hget by lia. now rewrite Nat.eqb_refl.
  - intros x Hx. unfold count_at. rewrite HN.
    rewrite (nsum_ext n _ (fun p => b2n (p =? Z.to_nat g))).
    + now apply count_pinned_bottom.
    + intros p Hp. rewrite Hget by lia. now rewrite Nat.eqb_refl.
  - intros p x y Hp Hx Hy. rewrite Hget by lia.
    assert ((y =? h - 1) = false) as -> by (apply Nat.eqb_neq; lia). reflexivity.
  - intros x y Hx Hy. unfold count_at. rewrite HN.
    rewrite (nsum_ext n _ (fun _ => 1)); [rewrite nsum_const; lia |].
    intros p Hp. rewrite Hget by lia.
    assert ((y =? h - 1) = false) as -> by (apply Nat.eqb_neq; lia). reflexivity.
  - pose proof (sum_pinned wave (Z.to_nat g)) as Hs.
    rewrite HN, HW, HH in Hs. apply Hs; assumption.
Qed.

Lemma makeWave_ground_count_witness :
  exists wave,
    makeWave 3 10 20 (Some 2%Z) = Ok wave /\
    dimN wave = 3 /\ dimW wave = 10 /\ dimH wave = 20 /\
    (forall p x, p < 3 -> x < 10 -> get wave p x (20 - 1) = (p =? Z.to_nat 2)) /\
    (forall x, x < 10 -> count_at wave x (20 - 1) = 1) /\
    (forall p x y, p < 3 -> x < 10 -> y < 20 - 1 -> get wave p x y = true) /\
    (forall x y, x < 10 -> y < 20 - 1 -> count_at wave x y = 3) /\
    sum wave = 3 * 10 * (20 - 1) + 10.
Proof.
  apply (makeWave_ground_count 3 10 20 2); lia.
Defined.

(** C10.  A negative ground index [g] in [[-N, 0)] is accepted: the call
    returns a wave, the same one as for the ground index [N + g], whose
    bottom row [y = H-1] holds pattern [N + g] and no other. *)
Theorem makeWave_negative_ground (n w h : nat) (g : Z) :
  0 < h -> (- Z.of_nat n <= g < 0)%Z ->
  exists wave,
    makeWave n w h (Some g) = Ok wave /\
    makeWave n w h (Some (Z.of_nat n + g)%Z) = Ok wave /\
    forall p x y, p < n -> x < w -> y < h ->
      get wave p x y = if y =? h - 1 then p =? Z.to_nat (Z.of_nat n + g) else true.
Proof.
  intros Hh Hg.
  destruct (makeWave_pinned n w h g _ Hh (norm_index_neg n g Hg))
    as (wave & Hmk & _ & _ & _ & Hget).
  exists wave. split; [exact Hmk |]. split; [| exact Hget].
  rewrite <- Hmk. unfold makeWave. rewrite bottom_row_index by exact Hh.
  rewrite (norm_index_neg n g Hg).
  rewrite (norm_index_nonneg n (Z.of_nat n + g)) by lia. reflexivity.
Qed.

Lemma makeWave_negative_ground_witness :
  exists wave,
    makeWave 3 10 20 (Some (-1)%Z) = Ok wave /\
    makeWave 3 10 20 (Some (Z.of_nat 3 + -1)%Z) = Ok wave /\
    forall p x y, p < 3 -> x < 10 -> y < 20 ->
      get wave p x y = if y =? 20 - 1 then p =? Z.to_nat (Z.of_nat 3 + -1) else true.
Proof.
  apply (makeWave_negative_ground 3 10 20 (-1)); lia.
Defined.

(** ** makeAdj *)

Lemma mark_spec (m : matrix) (i : nat) (j : Z) :
  (out_of_bounds (mrows m) (mcols m) i j /\ mark m i j = Raise IndexError) \/
  (~ out_of_bounds (mrows m) (mcols m) i j /\
   exists m', mark m i j = Ok m' /\ mrows m' = mrows m /\ mcols m' = mcols m).
Proof.
  unfold mark, out_of_bounds.
  destruct (Nat.ltb_spec i (mrows m)) as [Hi | Hi]; [| left; split; [lia | reflexivity]].
  destruct (norm_index (mcols m) j) as [j' |] eqn:Hj.
  - right. split.
    + intros [H | H]; [lia |]. apply norm_index_none in H. congruence.
    + eexists; split; [reflexivity |]. split; reflexivity.
  - left. split; [| reflexivity]. right. now apply norm_index_none.
Qed.

Lemma fill_row_spec (js : list Z) (i : nat) (m : matrix) :
  ((exists j, In j js /\ out_of_bounds (mrows m) (mcols m) i j) /\
   fill_row m i js = Raise IndexError) \/
  ((forall j, In j js -> ~ out_of_bounds (mrows m) (mcols m) i j) /\
   exists m', fill_row m i js = Ok m' /\ mrows m' = mrows m /\ mcols m' = mcols m).
Proof.
  revert m. induction js as [| j js IH]; intros m; simpl.
  - right. split; [intros j [] |]. now exists m.
  - destruct (mark_spec m i j) as [[Hbad ->] | [Hok (m' & -> & Hr & Hc)]]; simpl.
    + left. split; [| reflexivity]. exists j. auto.
    + destruct (IH m') as [[(j' & Hin & Hbad) ->] | [Hall (m'' & -> & Hr' & Hc')]].
      * left. split; [| reflexivity]. exists j'. rewrite <- Hr, <- Hc. auto.
      * right. split.
        -- intros j' [<- | Hin]; [exact Hok |]. rewrite <- Hr, <- Hc. now apply Hall.
        -- exists m''. repeat split; congruence.
Qed.

Lemma fill_rows_spec (rows : list (list Z)) (i : nat) (m : matrix) :
  ((exists k js j, nth_error rows k = Some js /\ In j js /\
                   out_of_bounds (mrows m) (mcols m) (i + k) j) /\
   fill_rows m i rows = Raise IndexError) \/
  ((forall k js j, nth_error rows k = Some js -> In j js ->
                   ~ out_of_bounds (mrows m) (mcols m) (i + k) j) /\
   exists m', fill_rows m i rows = Ok m' /\ mrows m' = mrows m /\ mcols m' = mcols m).
Proof.
  revert i m. induction rows as [| js rows IH]; intros i m; simpl.
  - right. split; [intros [| k] js j H; discriminate |]. now exists m.
  - destruct (fill_row_spec js i m) as [[(j & Hin & Hbad) ->] | [Hrow (m' & -> & Hr & Hc)]]; simpl.
    + left. split; [| reflexivity]. exists 0, js, j. rewrite Nat.add_0_r. auto.
    + destruct (IH (S i) m') as [[(k & js' & j & Hnth & Hin & Hbad) ->]
                               | [Hall (m'' & -> & Hr' & Hc')]].
      * left. split; [| reflexivity]. exists (S k), js', j.
        rewrite <- Hr, <- Hc. replace (i + S k) with (S i + k) by lia. auto.
      * right. split.
        -- intros [| k] js' j Hnth Hin; simpl in Hnth.
           ++ injection Hnth as <-. rewrite Nat.add_0_r. now apply Hrow.
           ++ rewrite <- Hr, <- Hc. replace (i + S k) with (S i + k) by lia.
              now apply (Hall k js').
        -- exists m''. repeat split; congruence.
Qed.

Lemma makeAdj_loop_spec (n : nat) (adjLists : adjacency_lists) :
  (bad_neighbour n adjLists /\ makeAdj_loop n adjLists = Raise IndexError) \/
  (~ bad_neighbour n adjLists /\ exists adj, makeAdj_loop n adjLists = Ok adj).
Proof.
  induction adjLists as [| [d rows] rest IH]; simpl.
  - right. split; [| now exists []].
    intros (d & rows & i & js & j & [] & _).
  - destruct (fill_rows_spec rows 0 (mzeros n n))
      as [[(k & js & j & Hnth & Hin & Hbad) ->] | [Hrows (m & -> & _ & _)]]; simpl.
    + left. split; [| reflexivity]. exists d, rows, k, js, j. simpl in Hbad.
      repeat split; simpl; auto.
    + destruct IH as [[(d' & rows' & i & js & j & Hin & Hrest) ->] | [Hgood (adj & ->)]]; simpl.
      * left. split; [| reflexivity]. exists d', rows', i, js, j.
        destruct Hrest as (? & ? & ?). repeat split; simpl; auto.
      * right. split; [| now eexists].
        intros (d' & rows' & i & js & j & [Heq | Hin] & Hnth & Hj & Hbad).
        -- injection Heq as <- <-. now apply (Hrows i js j Hnth Hj).
        -- apply Hgood. exists d', rows', i, js, j. repeat split; auto.
Qed.

(** C6, as the code has it.  [makeAdj] has no check of its own: it fails,
    with the IndexError of an assignment [m[i, j] = 1], exactly when the
    dictionary is empty or some direction lists a neighbour [j] at a
    position [i] with [i >= N], [j < -N] or [j >= N], where [N] is the
    length of the first direction's list; on every other input it returns
    the matrices. *)
Theorem makeAdj_fails_iff (adjLists : adjacency_lists) :
  (makeAdj adjLists = Raise IndexError <->
   adjLists = [] \/ bad_neighbour (num_patterns_of adjLists) adjLists) /\
  (makeAdj adjLists <> Raise IndexError -> exists adj, makeAdj adjLists = Ok adj).
Proof.
  destruct adjLists as [| [d rows] rest].
  - simpl. split; [split; auto | congruence].
  - change (makeAdj ((d, rows) :: rest))
      with (makeAdj_loop (length rows) ((d, rows) :: rest)).
    change (num_patterns_of ((d, rows) :: rest)) with (length rows).
    destruct (makeAdj_loop_spec (length rows) ((d, rows) :: rest))
      as [[Hbad ->] | [Hgood (adj & ->)]].
    + split; [split; auto | congruence].
    + split; [| intros _; now exists adj].
      split; [discriminate |]. intros [H | H]; [discriminate | contradiction].
Qed.

(** A direction that lists a neighbour past the last pattern makes the
    builder fail. *)
Lemma makeAdj_fails_iff_witness :
  makeAdj [((1, 0)%Z, [[0%Z]]); ((-1, 0)%Z, [[0%Z]; [0%Z]])] = Raise IndexError.
Proof.
  apply (proj1 (makeAdj_fails_iff _)). right.
  exists (-1, 0)%Z, [[0%Z]; [0%Z]], 1, [0%Z], 0%Z.
  repeat split; simpl; auto. left. lia.
Defined.

(** C6, as stated, fails on the code: a direction whose list is shorter than
    the first one is accepted and gets all-false rows, a longer list whose
    extra entries are empty is accepted, and the index [-1], outside
    [[0, N)], is accepted and wraps around to [N - 1]. *)
Lemma makeAdj_accepts_mismatch :
  makeAdj [((1, 0)%Z, [[0%Z]; [1%Z]]); ((-1, 0)%Z, [[0%Z]])] =
    Ok [((1, 0)%Z, mkMat 2 2 [[true; false]; [false; true]]);
        ((-1, 0)%Z, mkMat 2 2 [[true; false]; [false; false]])] /\
  makeAdj [((1, 0)%Z, [[0%Z]]); ((-1, 0)%Z, [[0%Z]; []])] =
    Ok [((1, 0)%Z, mkMat 1 1 [[true]]); ((-1, 0)%Z, mkMat 1 1 [[true]])] /\
  makeAdj [((1, 0)%Z, [[(-1)%Z]; [0%Z]])] =
    Ok [((1, 0)%Z, mkMat 2 2 [[false; true]; [true; false]])].
Proof. repeat split. Qed.

(** ** propagate *)

Lemma tightens_refl (wave : ndarray) : tightens wave wave.
Proof. unfold tightens; auto. Qed.

Lemma tightens_trans (a b c : ndarray) : tightens a b -> tightens b c -> tightens a c.
Proof.
  unfold tightens. intros (HN & HW & HH & Hab) (HN' & HW' & HH' & Hbc).
  repeat split; try congruence. auto.
Qed.

Lemma tightens_sum (wave' wave : ndarray) : tightens wave' wave -> sum wave' <= sum wave.
Proof.
  intros (HN & HW & HH & Hget). unfold sum. rewrite HN, HW, HH.
  apply nsum_le; intros p _. apply nsum_le; intros x _. apply nsum_le; intros y _.
  specialize (Hget p x y). destruct (get wave' p x y); simpl; [| lia].
  now rewrite Hget.
Qed.

Lemma imul_tightens (wave s wave' : ndarray) :
  imul wave s = Ok wave' -> tightens wave' wave.
Proof.
  unfold imul.
  destruct (fits (dimN wave) (dimN s) && fits (dimW wave) (dimW s)
            && fits (dimH wave) (dimH s)); [| discriminate].
  intros [= <-]. unfold tightens; simpl. repeat split.
  intros p x y. rewrite get_tabulate.
  destruct ((p <? dimN wave) && (x <? dimW wave) && (y <? dimH wave)); [| discriminate].
  now intros [H _]%andb_prop.
Qed.

Lemma imul_total (wave s : ndarray) : imul wave s <> OutOfFuel.
Proof.
  unfold imul.
  now destruct (fits (dimN wave) (dimN s) && fits (dimW wave) (dimW s)
                && fits (dimH wave) (dimH s)).
Qed.

Lemma apply_supports_tightens (supports : list ndarray) (wave : ndarray) :
  tightens (snd (apply_supports wave supports)) wave /\
  fst (apply_supports wave supports) <> OutOfFuel.
Proof.
  revert wave. induction supports as [| s rest IH]; intros wave; simpl.
  - split; [apply tightens_refl | discriminate].
  - destruct (imul wave s) as [wave' | e |] eqn:Hmul; simpl.
    + destruct (IH wave') as [Ht Hf]. split; [| exact Hf].
      eapply tightens_trans; [exact Ht |]. eapply imul_tightens; eassumption.
    + split; [apply tightens_refl | discriminate].
    + now apply imul_total in Hmul.
Qed.

Lemma supports_of_total (padded : ndarray) (w h : nat) (adj : adjacency) :
  supports_of padded w h adj <> OutOfFuel.
Proof.
  induction adj as [| [d m] rest IH]; simpl; [discriminate |].
  unfold support. destruct (bdim _ _); simpl; [| discriminate].
  destruct (supports_of padded w h rest); simpl; congruence.
Qed.

Lemma sweep_tightens (wave : ndarray) (adj : adjacency) (periodic : bool) :
  tightens (snd (sweep wave adj periodic)) wave /\
  fst (sweep wave adj periodic) <> OutOfFuel.
Proof.
  unfold sweep.
  assert (Hpad : (if periodic then pad_wrap wave else Ok (pad_const wave)) <> OutOfFuel).
  { destruct periodic; [| discriminate]. unfold pad_wrap.
    now destruct ((dimW wave =? 0) || (dimH wave =? 0)). }
  destruct (if periodic then pad_wrap wave else Ok (pad_const wave)) as [padded | e |];
    simpl; [| split; [apply tightens_refl | discriminate] | contradiction].
  pose proof (supports_of_total padded (dimW wave) (dimH wave) adj) as Hsup.
  destruct (supports_of padded (dimW wave) (dimH wave) adj) as [supports | e |];
    simpl; [| split; [apply tightens_refl | discriminate] | contradiction].
  apply apply_supports_tightens.
Qed.

Lemma propagate_loop_tightens (fuel : nat) (wave : ndarray) (adj : adjacency)
    (periodic : bool) (last_count : nat) :
  tightens (snd (propagate_loop fuel wave adj periodic last_count)) wave.
Proof.
  revert wave last_count. induction fuel as [| fuel IH]; intros wave last_count; simpl.
  - apply tightens_refl.
  - pose proof (sweep_tightens wave adj periodic) as [Ht _].
    destruct (sweep wave adj periodic) as [[[] | e |] wave']; simpl in *; try exact Ht.
    destruct (sum wave' =? last_count); simpl; [exact Ht |].
    eapply tightens_trans; [apply IH | exact Ht].
Qed.

(** The loop never needs more passes than the count it starts from, plus
    the last one that finds the count unchanged. *)
Lemma propagate_loop_enough_fuel (fuel : nat) (wave : ndarray) (adj : adjacency)
    (periodic : bool) :
  sum wave < fuel ->
  fst (propagate_loop fuel wave adj periodic (sum wave)) <> OutOfFuel.
Proof.
  revert wave. induction fuel as [| fuel IH]; intros wave Hfuel; [lia |]. simpl.
  pose proof (sweep_tightens wave adj periodic) as [Ht Hf].
  destruct (sweep wave adj periodic) as [[[] | e |] wave']; simpl in *;
    try discriminate; try contradiction.
  destruct (Nat.eqb_spec (sum wave') (sum wave)) as [Heq | Hne]; simpl; [discriminate |].
  apply IH. apply tightens_sum in Ht. lia.
Qed.

Lemma propagate_total (wave : ndarray) (adj : adjacency) (periodic : bool) :
  fst (propagate wave adj periodic) <> OutOfFuel.
Proof.
  unfold propagate.
  pose proof (propagate_loop_enough_fuel (S (sum wave)) wave adj periodic
                (Nat.lt_succ_diag_r _)) as Hf.
  destruct (propagate_loop (S (sum wave)) wave adj periodic (sum wave))
    as [[[] | e |] wave']; simpl in *; try discriminate; try contradiction.
  destruct (sum wave' =? 0); discriminate.
Qed.

Lemma propagate_tightens (wave : ndarray) (adj : adjacency) (periodic : bool) :
  tightens (snd (propagate wave adj periodic)) wave.
Proof.
  unfold propagate.
  pose proof (propagate_loop_tightens (S (sum wave)) wave adj periodic (sum wave)) as Ht.
  destruct (propagate_loop (S (sum wave)) wave adj periodic (sum wave))
    as [[[] | e |] wave']; simpl in *; try exact Ht.
  destruct (sum wave' =? 0); exact Ht.
Qed.

(** The passes themselves raise nothing but the ValueError of operands
    whose shapes do not fit. *)
Lemma apply_supports_error (supports : list ndarray) (wave : ndarray) (e : exn) :
  fst (apply_supports wave supports) = Raise e -> e = ValueError.
Proof.
  revert wave. induction supports as [| s rest IH]; intros wave; simpl; [discriminate |].
  destruct (imul wave s) as [wave' | e' |] eqn:Hmul; simpl.
  - apply IH.
  - intros [= <-]. revert Hmul. unfold imul.
    destruct (fits _ _ && fits _ _ && fits _ _); [discriminate | now intros [= <-]].
  - discriminate.
Qed.

Lemma supports_of_error (padded : ndarray) (w h : nat) (adj : adjacency) (e : exn) :
  supports_of padded w h adj = Raise e -> e = ValueError.
Proof.
  induction adj as [| [d m] rest IH]; simpl; [discriminate |].
  unfold support. destruct (bdim _ _); simpl; [| now intros [= <-]].
  destruct (supports_of padded w h rest); simpl; try discriminate.
  intros [= <-]. now apply IH.
Qed.

Lemma sweep_error (wave : ndarray) (adj : adjacency) (periodic : bool) (e : exn) :
  fst (sweep wave adj periodic) = Raise e -> e = ValueError.
Proof.
  unfold sweep.
  assert (Hpad : forall e', ((if periodic then pad_wrap wave else Ok (pad_const wave))
                             = Raise e') -> e' = ValueError).
  { intros e'. destruct periodic; [| discriminate]. unfold pad_wrap.
    destruct ((dimW wave =? 0) || (dimH wave =? 0)); [now intros [= <-] | discriminate]. }
  destruct (if periodic then pad_wrap wave else Ok (pad_const wave)) as [padded | e' |];
    simpl; [| intros [= <-]; now apply Hpad | discriminate].
  pose proof (supports_of_error padded (dimW wave) (dimH wave) adj) as Hsup.
  destruct (supports_of padded (dimW wave) (dimH wave) adj) as [supports | e' |];
    simpl; [| intros [= <-]; now apply Hsup | discriminate].
  apply apply_supports_error.
Qed.

Lemma propagate_loop_error (fuel : nat) (wave : ndarray) (adj : adjacency)
    (periodic : bool) (last_count : nat) (e : exn) :
  fst (propagate_loop fuel wave adj periodic last_count) = Raise e -> e = ValueError.
Proof.
  revert wave last_count. induction fuel as [| fuel IH]; intros wave last_count; simpl;
    [discriminate |].
  pose proof (sweep_error wave adj periodic) as Hsw.
  destruct (sweep wave adj periodic) as [[[] | e' |] wave']; simpl in *.
  - destruct (sum wave' =? last_count); [discriminate | apply IH].
  - intros [= <-]. now apply Hsw.
  - discriminate.
Qed.

(** What [propagate] hands back, by outcome: it returns or raises
    Contradiction on the array the loop stopped on, according to its count;
    any other exception is a ValueError that stopped the loop. *)
Lemma propagate_outcome (wave : ndarray) (adj : adjacency) (periodic : bool) :
  match propagate wave adj periodic with
  | (Ok _, wave') => reaches_fixpoint wave adj periodic wave' /\ sum wave' <> 0
  | (Raise Contradiction, wave') => reaches_fixpoint wave adj periodic wave' /\ sum wave' = 0
  | (Raise e, _) =>
      e = ValueError /\
      fst (propagate_loop (S (sum wave)) wave adj periodic (sum wave)) = Raise ValueError
  | (OutOfFuel, _) => False
  end.
Proof.
  pose proof (propagate_total wave adj periodic) as Htot.
  pose proof (propagate_loop_error (S (sum wave)) wave adj periodic (sum wave)) as Herr.
  unfold propagate, reaches_fixpoint in *.
  destruct (propagate_loop (S (sum wave)) wave adj periodic (sum wave))
    as [[[] | e |] wave'] eqn:Hloop; simpl in *.
  - destruct (Nat.eqb_spec (sum wave') 0); auto.
  - rewrite (Herr e eq_refl). auto.
  - contradiction.
Qed.

Lemma nsum_le_eq (n : nat) (f g : nat -> nat) :
  (forall i, i < n -> f i <= g i) -> nsum n f = nsum n g ->
  forall i, i < n -> f i = g i.
Proof.
  induction n as [| n IH]; intros Hle Heq i Hi; [lia |]. simpl in Heq.
  assert (nsum n f <= nsum n g) by (apply nsum_le; auto with arith).
  pose proof (Hle n (Nat.lt_succ_diag_r n)).
  destruct (Nat.eq_dec i n) as [-> | Hne]; [lia |].
  apply IH; [auto with arith | lia | lia].
Qed.

(** A pass that leaves the count unchanged has changed no entry. *)
Lemma tightens_same_sum (wave' wave : ndarray) :
  tightens wave' wave -> sum wave' = sum wave ->
  forall p x y, p < dimN wave -> x < dimW wave -> y < dimH wave ->
    get wave' p x y = get wave p x y.
Proof.
  intros (HN & HW & HH & Hget) Hsum p x y Hp Hx Hy.
  unfold sum in Hsum. rewrite HN, HW, HH in Hsum.
  assert (Hcell : forall p x y, b2n (get wave' p x y) <= b2n (get wave p x y)).
  { intros p' x' y'. specialize (Hget p' x' y').
    destruct (get wave' p' x' y'); simpl; [now rewrite Hget | lia]. }
  pose proof (nsum_le_eq (dimN wave) _ _
                (fun p' _ => nsum_le (dimW wave) _ _
                   (fun x' _ => nsum_le (dimH wave) _ _ (fun y' _ => Hcell p' x' y')))
                Hsum p Hp) as Hrow.
  pose proof (nsum_le_eq (dimW wave) _ _
                (fun x' _ => nsum_le (dimH wave) _ _ (fun y' _ => Hcell p x' y'))
                Hrow x Hx) as Hcol.
  pose proof (nsum_le_eq (dimH wave) _ _ (fun y' _ => Hcell p x y') Hcol y Hy) as He.
  cbv beta in He. revert He.
  destruct (get wave' p x y), (get wave p x y); simpl; congruence.
Qed.

(** The array on which the loop stops is a fixpoint of the pass that
    produced it: that pass removed nothing. *)
Lemma reaches_fixpoint_stable (wave : ndarray) (adj : adjacency) (periodic : bool)
    (wave' : ndarray) :
  reaches_fixpoint wave adj periodic wave' ->
  exists last,
    tightens last wave /\ sweep last adj periodic = (Ok tt, wave') /\
    forall p x y, p < dimN last -> x < dimW last -> y < dimH last ->
      get wave' p x y = get last p x y.
Proof.
  unfold reaches_fixpoint. generalize (S (sum wave)) as fuel.
  intros fuel. revert wave.
  induction fuel as [| fuel IH]; intros wave; simpl; [discriminate |].
  pose proof (sweep_tightens wave adj periodic) as [Ht _].
  destruct (sweep wave adj periodic) as [[[] | e |] w] eqn:Hsw; simpl in Ht;
    try discriminate.
  destruct (Nat.eqb_spec (sum w) (sum wave)) as [Heq | Hne].
  - intros [= <-]. exists wave. split; [apply tightens_refl |]. split; [exact Hsw |].
    now apply tightens_same_sum.
  - intros Hloop. destruct (IH w Hloop) as (last & Hl & Hs & He).
    exists last. split; [| split; assumption].
    eapply tightens_trans; eassumption.
Qed.

(** C7.  [propagate] always ends, and whatever its outcome no entry of the
    wave has gone from false to true when it does, so that the count of
    true entries is not larger than before the call. *)
Theorem propagate_monotone (wave : ndarray) (adj : adjacency) (periodic : bool) :
  fst (propagate wave adj periodic) <> OutOfFuel /\
  (forall p x y,
     get wave p x y = false -> get (snd (propagate wave adj periodic)) p x y = false) /\
  sum (snd (propagate wave adj periodic)) <= sum wave.
Proof.
  pose proof (propagate_tightens wave adj periodic) as Ht.
  split; [apply propagate_total |]. split.
  - intros p x y Hfalse. destruct Ht as (_ & _ & _ & Hget). specialize (Hget p x y).
    destruct (get (snd (propagate wave adj periodic)) p x y); [| reflexivity].
    rewrite Hget in Hfalse by reflexivity. discriminate.
  - now apply tightens_sum.
Qed.

(** [propagate] raises Contradiction exactly when its loop ends normally on
    an array without a true entry. *)
Lemma propagate_raises_on_zero (wave : ndarray) (adj : adjacency) (periodic : bool) :
  fst (propagate wave adj periodic) = Raise Contradiction <->
  exists wave', reaches_fixpoint wave adj periodic wave' /\ sum wave' = 0.
Proof.
  pose proof (propagate_outcome wave adj periodic) as Hout.
  destruct (propagate wave adj periodic) as [[[] | e |] wave'] eqn:Hp; simpl.
  - destruct Hout as [Hfix Hsum]. split; [discriminate |].
    intros (w & Hfix' & Hzero). unfold reaches_fixpoint in *.
    rewrite Hfix in Hfix'. injection Hfix' as <-. contradiction.
  - destruct e.
    1:{ destruct Hout as [Hfix Hsum]. split; [| reflexivity].
        intros _. now exists wave'. }
    all: destruct Hout as [He Hloop]; split; [discriminate |];
      intros (w & Hfix' & _); unfold reaches_fixpoint in Hfix';
      rewrite Hfix' in Hloop; discriminate.
  - contradiction.
Qed.

(** C1, as stated for every adjacency, fails on the code: with the single
    direction [(1, 0)] the cell [(0, 0)] of [two_cells] loses its last
    pattern, the loop stops with that cell empty, and [propagate] returns
    without raising, because the cell [(1, 0)] still has a pattern and no
    direction carries the emptiness over to it. *)
Lemma propagate_keeps_empty_cell :
  exists adj wave',
    makeAdj one_way_lists = Ok adj /\
    count_at two_cells 0 0 = 1 /\
    reaches_fixpoint two_cells adj false wave' /\
    empty_cell wave' 0 0 /\
    count_at wave' 1 0 = 1 /\
    propagate two_cells adj false = (Ok tt, wave').
Proof.
  eexists. eexists. split; [reflexivity |].
  split; [reflexivity |]. split; [reflexivity |].
  split; [| split; reflexivity].
  unfold empty_cell; simpl. repeat split; lia.
Qed.

(** ** propagate with the four cardinal directions

    The test of [propagate] is on the whole count.  When the adjacency has
    the four cardinal directions this is the same as a test for one empty
    cell: at the fixpoint an empty cell has emptied its neighbours, and so
    the whole grid. *)

Lemma any_below_true (n : nat) (f : nat -> bool) :
  any_below n f = true -> exists i, i < n /\ f i = true.
Proof.
  induction n as [| n IH]; simpl; [discriminate |].
  intros [H | H]%orb_prop.
  - destruct (IH H) as (i & Hi & Hf). exists i. split; [lia | exact Hf].
  - exists n. split; [lia | exact H].
Qed.

Lemma clip_slice_in (len : nat) (i : Z) :
  (0 <= i <= Z.of_nat len)%Z -> clip_slice len i = Z.to_nat i.
Proof.
  intros [H0 H1]. unfold clip_slice.
  destruct (Z.ltb_spec i 0); [lia |]. f_equal. lia.
Qed.

(** What the view shifted by one step reads at a cell whose neighbour is
    inside the grid: the neighbour, with either padding. *)
Lemma shifted_neighbour (wave padded : ndarray) (periodic : bool) (dx dy : Z)
    (p x y x' y' : nat) :
  (if periodic then pad_wrap wave else Ok (pad_const wave)) = Ok padded ->
  (-1 <= dx <= 1)%Z -> (-1 <= dy <= 1)%Z ->
  p < dimN wave -> x < dimW wave -> y < dimH wave ->
  x' < dimW wave -> y' < dimH wave ->
  Z.of_nat x' = (Z.of_nat x + dx)%Z -> Z.of_nat y' = (Z.of_nat y + dy)%Z ->
  get (shifted padded (dimW wave) (dimH wave) (dx, dy)) p x y = get wave p x' y'.
Proof.
  intros Hpad Hdx Hdy Hp Hx Hy Hx' Hy' Hxx Hyy.
  assert (Hdims : dimN padded = dimN wave /\ dimW padded = dimW wave + 2 /\
                  dimH padded = dimH wave + 2).
  { destruct periodic.
    - unfold pad_wrap in Hpad.
      destruct ((dimW wave =? 0) || (dimH wave =? 0)); [discriminate |].
      injection Hpad as <-. auto.
    - injection Hpad as <-. auto. }
  destruct Hdims as (HN & HW & HH).
  unfold shifted. rewrite HN, HW, HH.
  rewrite !clip_slice_in by lia.
  rewrite get_tabulate_in by lia.
  assert (Ha : Z.to_nat (1 + dx) + x = x' + 1) by lia.
  assert (Hb : Z.to_nat (1 + dy) + y = y' + 1) by lia.
  rewrite Ha, Hb.
  destruct periodic.
  - unfold pad_wrap in Hpad.
    destruct ((dimW wave =? 0) || (dimH wave =? 0)); [discriminate |].
    injection Hpad as <-. rewrite get_tabulate_in by lia.
    replace (x' + 1 + dimW wave - 1) with (x' + 1 * dimW wave) by lia.
    replace (y' + 1 + dimH wave - 1) with (y' + 1 * dimH wave) by lia.
    rewrite !Nat.Div0.mod_add, !Nat.mod_small by lia. reflexivity.
  - injection Hpad as <-. unfold pad_const. rewrite get_tabulate_in by lia.
    assert (((1 <=? x' + 1) && (x' + 1 <=? dimW wave) && (1 <=? y' + 1)
             && (y' + 1 <=? dimH wave)) = true) as ->.
    { rewrite !andb_true_iff, !Nat.leb_le. lia. }
    f_equal; lia.
Qed.

Lemma shifted_dims (padded : ndarray) (w h : nat) (dx dy : Z) :
  dimW padded = w + 2 -> dimH padded = h + 2 ->
  (-1 <= dx <= 1)%Z -> (-1 <= dy <= 1)%Z ->
  dimN (shifted padded w h (dx, dy)) = dimN padded /\
  dimW (shifted padded w h (dx, dy)) = w /\
  dimH (shifted padded w h (dx, dy)) = h.
Proof.
  intros HW HH Hdx Hdy. unfold shifted. rewrite HW, HH.
  rewrite !clip_slice_in by lia. unfold tabulate.
  cbn [dimN dimW dimH]. repeat split; lia.
Qed.

Lemma supports_of_in (padded : ndarray) (w h : nat) (adj : adjacency)
    (supports : list ndarray) (d : direction) (m : matrix) :
  supports_of padded w h adj = Ok supports -> In (d, m) adj ->
  exists s, In s supports /\ support (shifted padded w h d) m = Ok s.
Proof.
  revert supports. induction adj as [| [d' m'] rest IH]; intros supports; simpl;
    [intros _ [] |].
  destruct (support (shifted padded w h d') m') as [s' | |] eqn:Hs; simpl;
    try discriminate.
  destruct (supports_of padded w h rest) as [ss | |]; simpl; try discriminate.
  intros [= <-] [Heq | Hin].
  - injection Heq as <- <-. exists s'. split; [now left | exact Hs].
  - destruct (IH ss eq_refl Hin) as (s & Hins & Hsup).
    exists s. split; [now right | exact Hsup].
Qed.

(** An entry that survives the products is true in every support, read at
    the index that broadcasting assigns to it. *)
Lemma apply_supports_below (supports : list ndarray) (wave wave' : ndarray) (s : ndarray)
    (p x y : nat) :
  apply_supports wave supports = (Ok tt, wave') -> In s supports ->
  get wave' p x y = true ->
  get s (bidx (dimN s) p) (bidx (dimW s) x) (bidx (dimH s) y) = true.
Proof.
  revert wave. induction supports as [| s0 rest IH]; intros wave; simpl; [intros _ [] |].
  destruct (imul wave s0) as [wave1 | |] eqn:Hmul; try discriminate.
  intros Happ [<- | Hin] Hget.
  - pose proof (apply_supports_tightens rest wave1) as [(_ & _ & _ & Ht) _].
    rewrite Happ in Ht. simpl in Ht. apply Ht in Hget.
    revert Hmul Hget. unfold imul.
    destruct (fits _ _ && fits _ _ && fits _ _); [| discriminate].
    intros [= <-]. rewrite get_tabulate.
    destruct ((p <? dimN wave) && (x <? dimW wave) && (y <? dimH wave));
      [| discriminate].
    now intros [_ H]%andb_prop.
  - eapply IH; eassumption.
Qed.

Lemma bidx_in (dim i : nat) : i < dim -> bidx dim i = i.
Proof. unfold bidx. destruct (Nat.eqb_spec dim 1); lia. Qed.

(** A pattern has support at a cell only if the shifted view has some
    pattern there. *)
Lemma support_true (sh : ndarray) (m : matrix) (s : ndarray) (q x y : nat) :
  support sh m = Ok s -> get s q x y = true -> exists p, get sh p x y = true.
Proof.
  unfold support. destruct (bdim (dimN sh) (mrows m)) as [np |]; [| discriminate].
  intros [= <-]. rewrite get_tabulate.
  destruct ((_ <? _) && (_ <? _) && (_ <? _)); [| discriminate].
  intros (i & _ & [H _]%andb_prop)%any_below_true. eauto.
Qed.

Lemma support_dims (sh : ndarray) (m : matrix) (s : ndarray) :
  support sh m = Ok s -> dimW s = dimW sh /\ dimH s = dimH sh.
Proof.
  unfold support. destruct (bdim (dimN sh) (mrows m)) as [np |]; [| discriminate].
  intros [= <-]. split; reflexivity.
Qed.

Lemma pad_dims (wave padded : ndarray) (periodic : bool) :
  (if periodic then pad_wrap wave else Ok (pad_const wave)) = Ok padded ->
  dimN padded = dimN wave /\ dimW padded = dimW wave + 2 /\
  dimH padded = dimH wave + 2.
Proof.
  destruct periodic.
  - unfold pad_wrap.
    destruct ((dimW wave =? 0) || (dimH wave =? 0)); [discriminate |].
    intros [= <-]. auto.
  - intros [= <-]. auto.
Qed.

(** One step of the spreading: at a fixpoint of the pass, a cell whose
    neighbour in a direction of the adjacency is empty is empty. *)
Lemma empty_neighbour (wave wave' : ndarray) (adj : adjacency) (periodic : bool)
    (dx dy : Z) (m : matrix) (x y x' y' : nat) :
  sweep wave adj periodic = (Ok tt, wave') ->
  (forall p a b, p < dimN wave -> a < dimW wave -> b < dimH wave ->
     get wave' p a b = get wave p a b) ->
  In ((dx, dy), m) adj ->
  (-1 <= dx <= 1)%Z -> (-1 <= dy <= 1)%Z ->
  x < dimW wave -> y < dimH wave -> x' < dimW wave -> y' < dimH wave ->
  Z.of_nat x' = (Z.of_nat x + dx)%Z -> Z.of_nat y' = (Z.of_nat y + dy)%Z ->
  (forall p, p < dimN wave -> get wave p x' y' = false) ->
  forall p, p < dimN wave -> get wave p x y = false.
Proof.
  intros Hsweep Hsame Hin Hdx Hdy Hx Hy Hx' Hy' Hxx Hyy Hempty p Hp.
  rewrite <- Hsame by assumption.
  destruct (get wave' p x y) eqn:Hget; [| reflexivity]. exfalso.
  unfold sweep in Hsweep.
  destruct (if periodic then pad_wrap wave else Ok (pad_const wave))
    as [padded | |] eqn:Hpad; try discriminate.
  destruct (supports_of padded (dimW wave) (dimH wave) adj) as [supports | |] eqn:Hsup;
    try discriminate.
  destruct (supports_of_in _ _ _ _ _ _ _ Hsup Hin) as (s & Hs & Hsupport).
  pose proof (apply_supports_below _ _ _ _ _ _ _ Hsweep Hs Hget) as Htrue.
  destruct (pad_dims wave padded periodic Hpad) as (HN & HW & HH).
  destruct (shifted_dims padded (dimW wave) (dimH wave) dx dy HW HH Hdx Hdy)
    as (HsN & HsW & HsH).
  destruct (support_dims _ _ _ Hsupport) as [HdW HdH].
  rewrite HdW, HdH, HsW, HsH in Htrue.
  rewrite (bidx_in (dimW wave) x Hx), (bidx_in (dimH wave) y Hy) in Htrue.
  destruct (support_true _ _ _ _ _ _ Hsupport Htrue) as [q Hq].
  destruct (Nat.lt_ge_cases q (dimN wave)) as [Hlt | Hge].
  - rewrite (shifted_neighbour wave padded periodic dx dy q x y x' y') in Hq
      by assumption.
    rewrite Hempty in Hq by assumption. discriminate.
  - revert Hq. unfold shifted. rewrite get_tabulate.
    assert ((q <? dimN padded) = false) as -> by (apply Nat.ltb_ge; lia).
    discriminate.
Qed.

Lemma interval_spread (n : nat) (P : nat -> Prop) (i0 : nat) :
  i0 < n -> P i0 ->
  (forall i, S i < n -> P i -> P (S i)) ->
  (forall i, S i < n -> P (S i) -> P i) ->
  forall i, i < n -> P i.
Proof.
  intros Hi0 H0 Hup Hdown.
  assert (Hzero : P 0).
  { assert (Hk : forall k, k <= i0 -> P (i0 - k)).
    { induction k as [| k IH]; intros Hk.
      - now rewrite Nat.sub_0_r.
      - apply Hdown; [lia |].
        replace (S (i0 - S k)) with (i0 - k) by lia. apply IH. lia. }
    specialize (Hk i0 (le_n _)). now rewrite Nat.sub_diag in Hk. }
  induction i as [| i IH]; intros Hi; [exact Hzero |].
  apply Hup; [exact Hi |]. apply IH. lia.
Qed.

(** With the four cardinal directions a single empty cell at a fixpoint of
    the pass means that every entry is false. *)
Lemma cardinal_fixpoint_empty (wave wave' : ndarray) (adj : adjacency) (periodic : bool)
    (x0 y0 : nat) :
  cardinal adj ->
  sweep wave adj periodic = (Ok tt, wave') ->
  (forall p a b, p < dimN wave -> a < dimW wave -> b < dimH wave ->
     get wave' p a b = get wave p a b) ->
  x0 < dimW wave -> y0 < dimH wave ->
  (forall p, p < dimN wave -> get wave p x0 y0 = false) ->
  forall p x y, p < dimN wave -> x < dimW wave -> y < dimH wave ->
    get wave p x y = false.
Proof.
  intros ([mE HE] & [mW HW] & [mS HS] & [mN HN]) Hsweep Hsame Hx0 Hy0 Hempty.
  assert (Hrow : forall x, x < dimW wave ->
                   forall p, p < dimN wave -> get wave p x y0 = false).
  { apply (interval_spread (dimW wave)
             (fun x => forall p, p < dimN wave -> get wave p x y0 = false) x0 Hx0 Hempty).
    - intros x Hx Hcell.
      apply (empty_neighbour wave wave' adj periodic (-1) 0 mW (S x) y0 x y0);
        auto; lia.
    - intros x Hx Hcell.
      apply (empty_neighbour wave wave' adj periodic 1 0 mE x y0 (S x) y0);
        auto; lia. }
  intros p x y Hp Hx Hy. revert p Hp.
  apply (interval_spread (dimH wave)
           (fun y => forall p, p < dimN wave -> get wave p x y = false) y0 Hy0
           (Hrow x Hx)); [| | exact Hy].
  - intros b Hb Hcell.
    apply (empty_neighbour wave wave' adj periodic 0 (-1) mN x (S b) x b);
      auto; lia.
  - intros b Hb Hcell.
    apply (empty_neighbour wave wave' adj periodic 0 1 mS x b x (S b));
      auto; lia.
Qed.

(** X11.  For an adjacency with the four cardinal directions and a grid with
    at least one cell, [propagate] raises Contradiction exactly when the
    loop ends normally with some cell empty. *)
Lemma propagate_contradiction_cardinal (wave : ndarray) (adj : adjacency)
    (periodic : bool) :
  cardinal adj -> 0 < dimW wave -> 0 < dimH wave ->
  (fst (propagate wave adj periodic) = Raise Contradiction <->
   exists wave',
     reaches_fixpoint wave adj periodic wave' /\ exists x y, empty_cell wave' x y).
Proof.
  intros Hcard HW HH. rewrite propagate_raises_on_zero. split.
  - intros (wave' & Hfix & Hzero). exists wave'. split; [exact Hfix |].
    pose proof (propagate_loop_tightens (S (sum wave)) wave adj periodic (sum wave)) as Ht.
    unfold reaches_fixpoint in Hfix. rewrite Hfix in Ht. simpl in Ht.
    destruct Ht as (_ & HdW & HdH & _).
    exists 0, 0. unfold empty_cell. repeat split; try lia.
    apply sum_zero_cells; [exact Hzero | lia | lia].
  - intros (wave' & Hfix & x0 & y0 & Hx0 & Hy0 & Hcell).
    exists wave'. split; [exact Hfix |].
    destruct (reaches_fixpoint_stable wave adj periodic wave' Hfix)
      as (last & Hlast & Hsweep & Hsame).
    pose proof (sweep_tightens last adj periodic) as [(HdN & HdW & HdH & _) _].
    rewrite Hsweep in HdN, HdW, HdH. simpl in HdN, HdW, HdH.
    rewrite HdW in Hx0. rewrite HdH in Hy0.
    assert (Hempty : forall p, p < dimN last -> get last p x0 y0 = false).
    { intros p Hp. rewrite <- Hsame by assumption.
      rewrite count_at_zero in Hcell. apply Hcell. now rewrite HdN. }
    pose proof (cardinal_fixpoint_empty last wave' adj periodic x0 y0
                  Hcard Hsweep Hsame Hx0 Hy0 Hempty) as Hall.
    apply sum_zero. intros p x y Hp Hx Hy.
    rewrite HdN in Hp. rewrite HdW in Hx. rewrite HdH in Hy.
    rewrite Hsame by assumption. now apply Hall.
Qed.

(** *** Contradiction and empty cells *)

(** On a grid with at least one cell, whatever the adjacency, a
    Contradiction of [propagate] means that the loop has ended normally and
    has left an empty cell. *)
Lemma contradiction_has_empty_cell (wave : ndarray) (adj : adjacency) (periodic : bool) :
  0 < dimW wave -> 0 < dimH wave ->
  fst (propagate wave adj periodic) = Raise Contradiction ->
  exists wave',
    reaches_fixpoint wave adj periodic wave' /\ exists x y, empty_cell wave' x y.
Proof.
  intros HW HH Hraise. apply propagate_raises_on_zero in Hraise.
  destruct Hraise as (wave' & Hfix & Hzero). exists wave'. split; [exact Hfix |].
  pose proof (propagate_loop_tightens (S (sum wave)) wave adj periodic (sum wave)) as Ht.
  unfold reaches_fixpoint in Hfix. rewrite Hfix in Ht. simpl in Ht.
  destruct Ht as (_ & HdW & HdH & _).
  exists 0, 0. unfold empty_cell. repeat split; try lia.
  apply sum_zero_cells; [exact Hzero | lia | lia].
Qed.

(** With the four cardinal directions the emptiness of one cell at the
    fixpoint has reached every cell, and [propagate] raises. *)
Lemma cardinal_empty_cell_raises (wave wave' : ndarray) (adj : adjacency)
    (periodic : bool) (x0 y0 : nat) :
  cardinal adj ->
  reaches_fixpoint wave adj periodic wave' -> empty_cell wave' x0 y0 ->
  fst (propagate wave adj periodic) = Raise Contradiction.
Proof.
  intros Hcard Hfix (Hx0 & Hy0 & Hcell).
  apply propagate_raises_on_zero. exists wave'. split; [exact Hfix |].
  destruct (reaches_fixpoint_stable wave adj periodic wave' Hfix)
    as (last & Hlast & Hsweep & Hsame).
  pose proof (sweep_tightens last adj periodic) as [(HdN & HdW & HdH & _) _].
  rewrite Hsweep in HdN, HdW, HdH. simpl in HdN, HdW, HdH.
  rewrite HdW in Hx0. rewrite HdH in Hy0.
  assert (Hempty : forall p, p < dimN last -> get last p x0 y0 = false).
  { intros p Hp. rewrite <- Hsame by assumption.
    rewrite count_at_zero in Hcell. apply Hcell. now rewrite HdN. }
  pose proof (cardinal_fixpoint_empty last wave' adj periodic x0 y0
                Hcard Hsweep Hsame Hx0 Hy0 Hempty) as Hall.
  apply sum_zero. intros p x y Hp Hx Hy.
  rewrite HdN in Hp. rewrite HdW in Hx. rewrite HdH in Hy.
  rewrite Hsame by assumption. now apply Hall.
Qed.

(** A cell that is empty stays empty in every array that tightens the
    wave. *)
Lemma tightens_empty_cell (wave' wave : ndarray) (x y : nat) :
  tightens wave' wave -> empty_cell wave x y -> empty_cell wave' x y.
Proof.
  intros (HN & HW & HH & Hget) (Hx & Hy & Hcell).
  unfold empty_cell. rewrite HW, HH. split; [exact Hx |]. split; [exact Hy |].
  apply count_at_zero. intros p Hp. rewrite HN in Hp.
  rewrite count_at_zero in Hcell. specialize (Hcell p Hp).
  destruct (get wave' p x y) eqn:Hg; [| reflexivity].
  apply Hget in Hg. congruence.
Qed.

(** C1, with the condition on the adjacency under which it holds.  On a
    grid with at least one cell a Contradiction of [propagate] always means
    that the loop has reached its fixpoint with some cell empty.  When the
    adjacency has the four cardinal directions the converse holds too:
    [propagate] raises Contradiction exactly when the fixpoint has an empty
    cell, whatever is left in the other cells, and in particular it never
    returns normally on a wave that has an empty cell. *)
Theorem propagate_contradiction_iff (wave : ndarray) (adj : adjacency) (periodic : bool) :
  0 < dimW wave -> 0 < dimH wave ->
  (fst (propagate wave adj periodic) = Raise Contradiction ->
   exists wave',
     reaches_fixpoint wave adj periodic wave' /\ exists x y, empty_cell wave' x y) /\
  (cardinal adj ->
   (fst (propagate wave adj periodic) = Raise Contradiction <->
    exists wave',
      reaches_fixpoint wave adj periodic wave' /\ exists x y, empty_cell wave' x y) /\
   ((exists x y, empty_cell wave x y) -> fst (propagate wave adj periodic) <> Ok tt)).
Proof.
  intros HW HH. split; [now apply contradiction_has_empty_cell |].
  intros Hcard. split.
  - split; [now apply contradiction_has_empty_cell |].
    intros (wave' & Hfix & x & y & Hcell).
    now apply (cardinal_empty_cell_raises wave wave' adj periodic x y).
  - intros (x & y & Hcell) Hok.
    pose proof (propagate_outcome wave adj periodic) as Hout.
    pose proof (propagate_tightens wave adj periodic) as Ht.
    destruct (propagate wave adj periodic) as [r wave'] eqn:Hp. simpl in Hok, Ht.
    subst r. destruct Hout as [Hfix _].
    pose proof (cardinal_empty_cell_raises wave wave' adj periodic x y Hcard Hfix
                  (tightens_empty_cell wave' wave x y Ht Hcell)) as Hraise.
    rewrite Hp in Hraise. discriminate.
Qed.

Lemma propagate_contradiction_iff_witness :
  cardinal checker_adj /\
  empty_cell hole_wave 1 2 /\ count_at hole_wave 0 0 = 3 /\
  fst (propagate pinned_wave checker_adj true) = Raise Contradiction /\
  (exists wave',
     reaches_fixpoint pinned_wave checker_adj true wave' /\
     exists x y, empty_cell wave' x y) /\
  fst (propagate hole_wave checker_adj false) <> Ok tt.
Proof.
  assert (HW : 0 < dimW pinned_wave) by (simpl; lia).
  assert (HH : 0 < dimH pinned_wave) by (simpl; lia).
  assert (HW' : 0 < dimW hole_wave) by (simpl; lia).
  assert (HH' : 0 < dimH hole_wave) by (simpl; lia).
  assert (Hcard : cardinal checker_adj).
  { unfold cardinal, has_direction, checker_adj. repeat split; eexists; simpl; auto 6. }
  assert (Hcell : empty_cell hole_wave 1 2).
  { unfold empty_cell. vm_compute. repeat split; lia. }
  split; [exact Hcard |]. split; [exact Hcell |].
  split; [vm_compute; reflexivity |].
  split; [vm_compute; reflexivity |]. split.
  - destruct (propagate_contradiction_iff pinned_wave checker_adj true HW HH)
      as [_ Hiff].
    apply (proj1 (Hiff Hcard)). vm_compute. reflexivity.
  - destruct (propagate_contradiction_iff hole_wave checker_adj false HW' HH')
      as [_ Hiff].
    apply (proj2 (Hiff Hcard)). exists 1, 2. exact Hcell.
Defined.

(** ** run: the scenarios of [test_run] *)

(** C2.  With the checkerboard-or-solid adjacency, the all-true 3 by 4 wave
    of three patterns, the lexical heuristics, [periodic = False] and no
    backtracking, [run] returns the checkerboard grid, however deep the
    recursion is allowed to go. *)
Theorem run_nonperiodic_lexical (fuel : nat) :
  exists adj,
    makeAdj checker_lists = Ok adj /\
    makeWave 3 3 4 None = Ok test_wave /\
    fst (fst (run (S fuel) test_wave adj lexicalLocationHeuristic lexicalPatternHeuristic
                false false None None None))
    = Ok [[0; 1; 0; 1]; [1; 0; 1; 0]; [0; 1; 0; 1]].
Proof.
  eexists. split; [vm_compute; reflexivity |]. split; [vm_compute; reflexivity |].
  vm_compute. reflexivity.
Qed.

(** C3.  On the same input with [periodic = True] and [backtracking = True]
    [run] returns the grid that is #2 everywhere, and the hooks have seen
    one choice, [(0, 0, 0)], followed by one backtrack, and nothing else. *)
Theorem run_periodic_backtracking (fuel : nat) :
  exists adj final,
    makeAdj checker_lists = Ok adj /\
    makeWave 3 3 4 None = Ok test_wave /\
    run (S (S fuel)) test_wave adj lexicalLocationHeuristic lexicalPatternHeuristic
      true true (Some BacktrackObserver) (Some ChoiceObserver) None
    = (Ok [[2; 2; 2; 2]; [2; 2; 2; 2]; [2; 2; 2; 2]], final,
       [EvChoice 0 0 0; EvBacktrack]).
Proof.
  eexists. eexists. split; [vm_compute; reflexivity |].
  split; [vm_compute; reflexivity |].
  vm_compute. reflexivity.
Qed.

(** C4, as stated, fails on the code.  On the unconstrained 2 by 1 grid the
    first frame commits pattern #0 at [(0, 0)] and recurses on [second]
    (with one level of recursion the run is cut there); the second frame
    observes and commits pattern #0 at the still undecided cell [(1, 0)];
    the hook has been told of the first choice only. *)
Lemma run_reports_first_choice_only :
  exists adj second final,
    makeAdj free_lists = Ok adj /\
    run 1 (ones 2 2 1) adj lexicalLocationHeuristic lexicalPatternHeuristic
      false false None (Some ChoiceObserver) None
    = (OutOfFuel, second, [EvChoice 0 0 0]) /\
    propagate second adj false = (Ok tt, second) /\
    count_at second 1 0 = 2 /\
    observe second lexicalLocationHeuristic lexicalPatternHeuristic = Ok (0, 1, 0)%Z /\
    run 2 (ones 2 2 1) adj lexicalLocationHeuristic lexicalPatternHeuristic
      false false None (Some ChoiceObserver) None
    = (Ok [[0]; [0]], final, [EvChoice 0 0 0]) /\
    count_at final 1 0 = 1.
Proof.
  eexists. eexists. eexists.
  split; [vm_compute; reflexivity |].
  split; [vm_compute; reflexivity |].
  split; [vm_compute; reflexivity |].
  split; [vm_compute; reflexivity |].
  split; [vm_compute; reflexivity |].
  split; vm_compute; reflexivity.
Qed.

(** C5: what the code does where the claim asks for a Contradiction.

    On the unconstrained 2 by 1 grid with the hook ``at least 4 entries are
    true'', the first frame evaluates the hook on the full wave and commits
    a choice; it recurses on [second], on which the hook is false, through
    the call of line 103, which passes no [checkFeasible]: the hook is not
    evaluated again and the run returns a grid.

    On the test wave with [periodic = True], [backtracking = True] and the
    hook ``all 36 entries are true'', the frame entered after the backtrack
    is given the hook as its [onChoice] by the call of line 112: the hook is
    not evaluated on the wave of that frame, it is called with the three
    arguments of a choice, and the run ends with a TypeError. *)
Theorem run_checkFeasible_first_frame_only :
  (exists adj second final,
     makeAdj free_lists = Ok adj /\
     run 1 (ones 2 2 1) adj lexicalLocationHeuristic lexicalPatternHeuristic
       false false None None (Some (FeasibilityCheck (fun w => 4 <=? sum w)))
     = (OutOfFuel, second, [EvFeasible (ones 2 2 1) true]) /\
     (4 <=? sum second) = false /\
     run 2 (ones 2 2 1) adj lexicalLocationHeuristic lexicalPatternHeuristic
       false false None None (Some (FeasibilityCheck (fun w => 4 <=? sum w)))
     = (Ok [[0]; [0]], final, [EvFeasible (ones 2 2 1) true])) /\
  (exists adj forbidden final,
     makeAdj checker_lists = Ok adj /\
     setitem test_wave 0 0 0 false = Ok forbidden /\
     (36 <=? sum forbidden) = false /\
     run 2 test_wave adj lexicalLocationHeuristic lexicalPatternHeuristic
       true true None None (Some (FeasibilityCheck (fun w => 36 <=? sum w)))
     = (Raise TypeError, final, [EvFeasible test_wave true])).
Proof.
  split.
  - eexists. eexists. eexists.
    split; [vm_compute; reflexivity |].
    split; [vm_compute; reflexivity |].
    split; vm_compute; reflexivity.
  - eexists. eexists. eexists.
    split; [vm_compute; reflexivity |].
    split; [vm_compute; reflexivity |].
    split; vm_compute; reflexivity.
Qed.

(** ** run: which choices reach the [onChoice] hook *)

Lemma choices_app (a b : list event) : choices (a ++ b) = choices a ++ choices b.
Proof. unfold choices. apply flat_map_app. Qed.

Lemma call_choice_silent (onChoice : option callable) (pattern i j : Z) :
  onChoice <> Some ChoiceObserver ->
  choices (snd (call_choice onChoice pattern i j)) = [].
Proof. destruct onChoice as [[] |]; simpl; congruence. Qed.

Lemma call_feasible_silent (checkFeasible : option callable) (wave : ndarray) :
  choices (snd (call_feasible checkFeasible wave)) = [].
Proof. now destruct checkFeasible as [[] |]. Qed.

Lemma call_backtrack_silent (onBacktrack : option callable) :
  choices (snd (call_backtrack onBacktrack)) = [].
Proof. now destruct onBacktrack as [[] |]. Qed.

(** The [try] block reports the choice of its own observation, when it gets
    that far, and whatever the recursive call reports. *)
Lemma try_block_choices (recurse : ndarray -> frame) (wave : ndarray) (adj : adjacency)
    (loc : location_heuristic) (pat : pattern_heuristic) (periodic : bool)
    (onChoice : option callable) :
  (forall w, choices (snd (recurse w)) = []) ->
  choices (snd (try_block recurse wave adj loc pat periodic onChoice)) =
  match observe wave loc pat with
  | Ok (pattern, i, j) => choices (snd (call_choice onChoice pattern i j))
  | _ => []
  end.
Proof.
  intros Hrec. unfold try_block.
  destruct (observe wave loc pat) as [[[pattern i] j] | e |]; try reflexivity.
  destruct (call_choice onChoice pattern i j) as [[[] | e |] ev]; try reflexivity.
  destruct (commit wave pattern i j) as [[[] | e |] chosen]; try reflexivity.
  destruct (propagate chosen adj periodic) as [[[] | e |] tightened]; try reflexivity.
  destruct (dimW tightened * dimH tightened <? sum tightened); [| reflexivity].
  specialize (Hrec tightened).
  destruct (recurse tightened) as [[r final] ev']; simpl in *.
  rewrite choices_app, Hrec. apply app_nil_r.
Qed.

(** A frame that was not given a choice observer reports no choice, and
    neither does any frame below it. *)
Lemma run_silent (fuel : nat) (adj : adjacency) (loc : location_heuristic)
    (pat : pattern_heuristic) (periodic backtracking : bool)
    (onBacktrack : option callable) :
  forall (wave : ndarray) (onChoice : option callable),
    onChoice <> Some ChoiceObserver ->
    choices (snd (run fuel wave adj loc pat periodic backtracking onBacktrack onChoice None))
    = [].
Proof.
  induction fuel as [| fuel IH]; intros wave onChoice Hoc; [reflexivity |].
  cbn [run call_feasible].
  destruct (propagate wave adj periodic) as [[[] | e |] tightened]; try reflexivity.
  pose proof (try_block_choices
                (fun w => run fuel w adj loc pat periodic backtracking onBacktrack None None)
                tightened adj loc pat periodic onChoice
                (fun w => IH w None ltac:(discriminate))) as Htry.
  assert (Hev : choices (snd (try_block
                (fun w => run fuel w adj loc pat periodic backtracking onBacktrack None None)
                tightened adj loc pat periodic onChoice)) = []).
  { rewrite Htry. destruct (observe tightened loc pat) as [[[pattern i] j] | |];
      try reflexivity. now apply call_choice_silent. }
  clear Htry.
  destruct (try_block _ tightened adj loc pat periodic onChoice)
    as [[[r final] bound] ev1]; simpl in Hev.
  destruct r as [g | [] |]; simpl; try exact Hev.
  destruct backtracking; simpl; [| exact Hev].
  pose proof (call_backtrack_silent onBacktrack) as Hbt.
  destruct (call_backtrack onBacktrack) as [[[] | e |] ev2]; simpl in *;
    rewrite ?choices_app, ?Hev, ?Hbt; try reflexivity;
    destruct bound as [[[pattern i] j] |]; simpl;
    rewrite ?choices_app, ?Hev, ?Hbt; try reflexivity.
  destruct (setitem wave pattern i j false) as [forbidden | e |]; simpl;
    rewrite ?choices_app, ?Hev, ?Hbt; try reflexivity.
  specialize (IH forbidden None ltac:(discriminate)).
  destruct (run fuel forbidden adj loc pat periodic true onBacktrack None None)
    as [[r' final'] ev3]; simpl in *.
  rewrite !choices_app, Hev, Hbt, IH. reflexivity.
Qed.

(** C4, as the code has it.  A choice observer given to [run] is called by
    the first frame, with the choice observed on the propagated wave and
    before that frame commits it, and by no other frame: over a whole run it
    is told that one choice, or nothing when the run fails before its first
    observation. *)
Theorem run_choice_reported_once (fuel : nat) (wave : ndarray) (adj : adjacency)
    (loc : location_heuristic) (pat : pattern_heuristic) (periodic backtracking : bool)
    (onBacktrack checkFeasible : option callable) :
  choices (snd (run (S fuel) wave adj loc pat periodic backtracking onBacktrack
                  (Some ChoiceObserver) checkFeasible)) =
  match fst (call_feasible checkFeasible wave), propagate wave adj periodic with
  | Ok _, (Ok _, tightened) =>
      match observe tightened loc pat with
      | Ok choice => [choice]
      | _ => []
      end
  | _, _ => []
  end.
Proof.
  cbn [run].
  pose proof (call_feasible_silent checkFeasible wave) as Hcf.
  assert (Hslot : fst (call_feasible checkFeasible wave) = Ok tt ->
                  checkFeasible <> Some ChoiceObserver).
  { destruct checkFeasible as [[] |]; simpl; congruence. }
  destruct (call_feasible checkFeasible wave) as [[[] | e |] ev0]; simpl in *;
    try exact Hcf.
  specialize (Hslot eq_refl).
  destruct (propagate wave adj periodic) as [[[] | e |] tightened]; simpl; try exact Hcf.
  pose proof (try_block_choices
                (fun w => run fuel w adj loc pat periodic backtracking onBacktrack None None)
                tightened adj loc pat periodic (Some ChoiceObserver)
                (fun w => run_silent fuel adj loc pat periodic backtracking onBacktrack
                            w None ltac:(discriminate))) as Htry.
  destruct (try_block _ tightened adj loc pat periodic (Some ChoiceObserver))
    as [[[r final] bound] ev1]; simpl in Htry.
  assert (Hev : choices ev1 = match observe tightened loc pat with
                              | Ok choice => [choice]
                              | _ => []
                              end).
  { rewrite Htry. now destruct (observe tightened loc pat) as [[[pattern i] j] | |]. }
  clear Htry.
  destruct r as [g | [] |]; simpl; rewrite ?choices_app, ?Hcf, ?Hev; try reflexivity.
  destruct backtracking; simpl; rewrite ?choices_app, ?Hcf, ?Hev; try reflexivity.
  pose proof (call_backtrack_silent onBacktrack) as Hbt.
  destruct (call_backtrack onBacktrack) as [[[] | e |] ev2]; simpl in *;
    rewrite ?choices_app, ?Hcf, ?Hev, ?Hbt, ?app_nil_r; try reflexivity;
    destruct bound as [[[pattern i] j] |]; simpl;
    rewrite ?choices_app, ?Hcf, ?Hev, ?Hbt, ?app_nil_r; try reflexivity.
  destruct (setitem wave pattern i j false) as [forbidden | e |]; simpl;
    rewrite ?choices_app, ?Hcf, ?Hev, ?Hbt, ?app_nil_r; try reflexivity.
  pose proof (run_silent fuel adj loc pat periodic true onBacktrack
                forbidden checkFeasible Hslot) as Hrec.
  destruct (run fuel forbidden adj loc pat periodic true onBacktrack checkFeasible None)
    as [[r' final'] ev3]; simpl in *.
  rewrite !choices_app, Hcf, Hev, Hbt, Hrec, !app_nil_r. reflexivity.
Qed.

(** ** run: where the [checkFeasible] hook is evaluated *)

Lemma checked_app (a b : list event) : checked (a ++ b) = checked a ++ checked b.
Proof. unfold checked. apply flat_map_app. Qed.

Lemma call_choice_unchecked (onChoice : option callable) (pattern i j : Z) :
  checked (snd (call_choice onChoice pattern i j)) = [].
Proof. now destruct onChoice as [[] |]. Qed.

Lemma call_backtrack_unchecked (onBacktrack : option callable) :
  checked (snd (call_backtrack onBacktrack)) = [].
Proof. now destruct onBacktrack as [[] |]. Qed.

Lemma try_block_unchecked (recurse : ndarray -> frame) (wave : ndarray) (adj : adjacency)
    (loc : location_heuristic) (pat : pattern_heuristic) (periodic : bool)
    (onChoice : option callable) :
  (forall w, checked (snd (recurse w)) = []) ->
  checked (snd (try_block recurse wave adj loc pat periodic onChoice)) = [].
Proof.
  intros Hrec. unfold try_block.
  destruct (observe wave loc pat) as [[[pattern i] j] | e |]; try reflexivity.
  pose proof (call_choice_unchecked onChoice pattern i j) as Hcc.
  destruct (call_choice onChoice pattern i j) as [[[] | e |] ev]; simpl in *;
    try exact Hcc.
  destruct (commit wave pattern i j) as [[[] | e |] chosen]; try exact Hcc.
  destruct (propagate chosen adj periodic) as [[[] | e |] tightened]; try exact Hcc.
  destruct (dimW tightened * dimH tightened <? sum tightened); [| exact Hcc].
  specialize (Hrec tightened).
  destruct (recurse tightened) as [[r final] ev']; simpl in *.
  now rewrite checked_app, Hrec, Hcc.
Qed.

(** A frame that is given no feasibility hook evaluates none, and neither
    does any frame below it; every frame but the first is such a frame. *)
Lemma run_unchecked (fuel : nat) (adj : adjacency) (loc : location_heuristic)
    (pat : pattern_heuristic) (periodic backtracking : bool)
    (onBacktrack : option callable) :
  forall (wave : ndarray) (onChoice : option callable),
    checked (snd (run fuel wave adj loc pat periodic backtracking onBacktrack onChoice None))
    = [].
Proof.
  induction fuel as [| fuel IH]; intros wave onChoice; [reflexivity |].
  cbn [run call_feasible].
  destruct (propagate wave adj periodic) as [[[] | e |] tightened]; try reflexivity.
  pose proof (try_block_unchecked
                (fun w => run fuel w adj loc pat periodic backtracking onBacktrack None None)
                tightened adj loc pat periodic onChoice (fun w => IH w None)) as Hev.
  destruct (try_block _ tightened adj loc pat periodic onChoice)
    as [[[r final] bound] ev1]; simpl in Hev.
  destruct r as [g | [] |]; simpl; try exact Hev.
  destruct backtracking; simpl; [| exact Hev].
  pose proof (call_backtrack_unchecked onBacktrack) as Hbt.
  destruct (call_backtrack onBacktrack) as [[[] | e |] ev2]; simpl in *;
    rewrite ?checked_app, ?Hev, ?Hbt; try reflexivity;
    destruct bound as [[[pattern i] j] |]; simpl;
    rewrite ?checked_app, ?Hev, ?Hbt; try reflexivity.
  destruct (setitem wave pattern i j false) as [forbidden | e |]; simpl;
    rewrite ?checked_app, ?Hev, ?Hbt; try reflexivity.
  specialize (IH forbidden None).
  destruct (run fuel forbidden adj loc pat periodic true onBacktrack None None)
    as [[r' final'] ev3]; simpl in *.
  rewrite !checked_app, Hev, Hbt, IH. reflexivity.
Qed.

(** X13.  Over a whole run the feasibility hook is evaluated once, on the
    wave the caller passed, whatever happens afterwards. *)
Lemma run_checked_once (fuel : nat) (wave : ndarray) (adj : adjacency)
    (loc : location_heuristic) (pat : pattern_heuristic) (periodic backtracking : bool)
    (onBacktrack onChoice : option callable) (f : ndarray -> bool) :
  checked (snd (run (S fuel) wave adj loc pat periodic backtracking onBacktrack onChoice
                  (Some (FeasibilityCheck f)))) = [wave].
Proof.
  cbn [run call_feasible].
  destruct (f wave); [| reflexivity].
  destruct (propagate wave adj periodic) as [[[] | e |] tightened]; try reflexivity.
  pose proof (try_block_unchecked
                (fun w => run fuel w adj loc pat periodic backtracking onBacktrack None None)
                tightened adj loc pat periodic onChoice
                (fun w => run_unchecked fuel adj loc pat periodic backtracking onBacktrack
                            w None)) as Hev.
  destruct (try_block _ tightened adj loc pat periodic onChoice)
    as [[[r final] bound] ev1]; simpl in Hev.
  destruct r as [g | [] |]; simpl; rewrite ?Hev; try reflexivity.
  destruct backtracking; simpl; rewrite ?Hev; try reflexivity.
  pose proof (call_backtrack_unchecked onBacktrack) as Hbt.
  destruct (call_backtrack onBacktrack) as [[[] | e |] ev2]; simpl in *;
    rewrite ?checked_app, ?Hev, ?Hbt; try reflexivity;
    destruct bound as [[[pattern i] j] |]; simpl;
    rewrite ?checked_app, ?Hev, ?Hbt; try reflexivity.
  destruct (setitem wave pattern i j false) as [forbidden | e |]; simpl;
    rewrite ?checked_app, ?Hev, ?Hbt; try reflexivity.
  pose proof (run_unchecked fuel adj loc pat periodic true onBacktrack forbidden
                (Some (FeasibilityCheck f))) as Hrec.
  destruct (run fuel forbidden adj loc pat periodic true onBacktrack
              (Some (FeasibilityCheck f)) None) as [[r' final'] ev3]; simpl in *.
  rewrite !checked_app, Hev, Hbt, Hrec. reflexivity.
Qed.

(** ** run: the caller's array after a backtrack *)

Lemma call_choice_error (onChoice : option callable) (pattern i j : Z) (e : exn) :
  fst (call_choice onChoice pattern i j) = Raise e -> e = TypeError.
Proof. destruct onChoice as [[] |]; simpl; congruence. Qed.

Lemma call_backtrack_error (onBacktrack : option callable) (e : exn) :
  fst (call_backtrack onBacktrack) = Raise e -> e = TypeError.
Proof. destruct onBacktrack as [[] |]; simpl; congruence. Qed.

Lemma setitem_error (wave : ndarray) (pattern i j : Z) (v : bool) (e : exn) :
  setitem wave pattern i j v = Raise e -> e = IndexError.
Proof.
  unfold setitem.
  destruct (norm_index (dimN wave) pattern), (norm_index (dimW wave) i),
    (norm_index (dimH wave) j); congruence.
Qed.

Lemma commit_error (wave : ndarray) (pattern i j : Z) (e : exn) :
  fst (commit wave pattern i j) = Raise e -> e = IndexError.
Proof.
  unfold commit, setcell, setitem.
  destruct (norm_index (dimW wave) i) eqn:Hi, (norm_index (dimH wave) j) eqn:Hj;
    cbn; try congruence.
  rewrite Hi, Hj.
  destruct (norm_index (dimN wave) pattern); cbn; congruence.
Qed.

(** The indices of a choice that was committed are valid for any array of
    the same shape. *)
Lemma commit_ok_setitem (wave other chosen : ndarray) (pattern i j : Z) (v : bool) :
  commit wave pattern i j = (Ok tt, chosen) ->
  dimN other = dimN wave -> dimW other = dimW wave -> dimH other = dimH wave ->
  exists marked, setitem other pattern i j v = Ok marked.
Proof.
  unfold commit, setcell, setitem. intros Hc -> -> ->. revert Hc.
  destruct (norm_index (dimW wave) i) eqn:Hi, (norm_index (dimH wave) j) eqn:Hj;
    cbn; try discriminate.
  rewrite Hi, Hj.
  destruct (norm_index (dimN wave) pattern); cbn; try discriminate.
  intros _. eexists. reflexivity.
Qed.

(** When the [try] block is left by a Contradiction with the choice bound,
    the choice had been committed and the array is all false: it is the one
    on which [propagate] gave up, here or in a frame below. *)
Lemma try_block_contradiction (recurse : ndarray -> frame) (wave : ndarray)
    (adj : adjacency) (loc : location_heuristic) (pat : pattern_heuristic)
    (periodic : bool) (onChoice : option callable)
    (failed : ndarray) (pattern i j : Z) (ev : list event) :
  (forall w, fst (fst (recurse w)) = Raise Contradiction -> sum (snd (fst (recurse w))) = 0) ->
  try_block recurse wave adj loc pat periodic onChoice
    = (Raise Contradiction, failed, Some (pattern, i, j), ev) ->
  sum failed = 0 /\ exists chosen, commit wave pattern i j = (Ok tt, chosen).
Proof.
  intros Hrec. unfold try_block.
  destruct (observe wave loc pat) as [[[pattern' i'] j'] | e |]; try discriminate.
  pose proof (call_choice_error onChoice pattern' i' j') as Hcc.
  destruct (call_choice onChoice pattern' i' j') as [[[] | e |] ev0]; simpl in *.
  2:{ rewrite (Hcc e eq_refl). discriminate. }
  2:{ discriminate. }
  pose proof (commit_error wave pattern' i' j') as Hce.
  destruct (commit wave pattern' i' j') as [[[] | e |] chosen] eqn:Hcommit; simpl in *.
  2:{ rewrite (Hce e eq_refl). discriminate. }
  2:{ discriminate. }
  pose proof (propagate_outcome chosen adj periodic) as Hout.
  destruct (propagate chosen adj periodic) as [[[] | e |] tightened]; simpl in *.
  - destruct (dimW tightened * dimH tightened <? sum tightened); [| discriminate].
    specialize (Hrec tightened).
    destruct (recurse tightened) as [[r final] ev']; simpl in *.
    intros [= -> <- <- <- <- _]. split; [now apply Hrec | now exists chosen].
  - destruct e; try (destruct Hout as [He _]; discriminate).
    destruct Hout as [_ Hsum].
    intros [= <- <- <- <- _]. split; [exact Hsum | now exists chosen].
  - contradiction.
Qed.

(** With backtracking on, a frame without feasibility hook that ends in a
    Contradiction leaves the array it was called on all false. *)
Lemma run_contradiction_state (fuel : nat) (adj : adjacency) (loc : location_heuristic)
    (pat : pattern_heuristic) (periodic : bool) (onBacktrack : option callable) :
  forall (wave : ndarray) (onChoice : option callable),
    fst (fst (run fuel wave adj loc pat periodic true onBacktrack onChoice None))
      = Raise Contradiction ->
    sum (snd (fst (run fuel wave adj loc pat periodic true onBacktrack onChoice None))) = 0.
Proof.
  induction fuel as [| fuel IH]; intros wave onChoice; [discriminate |].
  cbn [run call_feasible].
  pose proof (propagate_outcome wave adj periodic) as Hout.
  destruct (propagate wave adj periodic) as [[[] | e |] tightened]; simpl.
  - pose proof (try_block_contradiction
                  (fun w => run fuel w adj loc pat periodic true onBacktrack None None)
                  tightened adj loc pat periodic onChoice) as Htry.
    destruct (try_block _ tightened adj loc pat periodic onChoice)
      as [[[r final] bound] ev1].
    destruct r as [g | [] |]; simpl; try discriminate.
    pose proof (call_backtrack_error onBacktrack) as Hbt.
    destruct (call_backtrack onBacktrack) as [[[] | e |] ev2]; simpl in *;
      [| rewrite (Hbt e eq_refl); discriminate | discriminate].
    destruct bound as [[[pattern i] j] |]; simpl; [| discriminate].
    destruct (Htry final pattern i j ev1 (fun w => IH w None) eq_refl) as [Hsum _].
    pose proof (setitem_error wave pattern i j false) as Hset.
    destruct (setitem wave pattern i j false) as [forbidden | e |]; simpl;
      [| rewrite (Hset e eq_refl); discriminate | discriminate].
    destruct (run fuel forbidden adj loc pat periodic true onBacktrack None None)
      as [[r' final'] ev3]; simpl. intros _. exact Hsum.
  - destruct e; try (destruct Hout as [He _]; discriminate).
    destruct Hout as [_ Hsum]. intros _. exact Hsum.
  - contradiction.
Qed.

(** C9.  Take a frame of [run] with backtracking on whose feasibility check
    and first [propagate] pass, and whose [try] block is left by a
    Contradiction after the choice [(pattern, i, j)], with the array the
    frame was called on in the state [failed].  Then the frame goes on with
    its snapshot: the outcome of the frame is the outcome of [run] on the
    copy of the wave as it was on entry, with the choice forbidden.  The
    array the caller passed is not touched again: it is left as [failed],
    which has no true entry and so is neither the wave of the call nor the
    propagated wave on which the choice was made. *)
Theorem run_backtrack_leaves_caller_array (fuel : nat) (wave : ndarray) (adj : adjacency)
    (loc : location_heuristic) (pat : pattern_heuristic) (periodic : bool)
    (onBacktrack onChoice checkFeasible : option callable)
    (tightened failed : ndarray) (pattern i j : Z) (ev : list event) :
  fst (call_feasible checkFeasible wave) = Ok tt ->
  fst (call_backtrack onBacktrack) = Ok tt ->
  propagate wave adj periodic = (Ok tt, tightened) ->
  try_block (fun w => run fuel w adj loc pat periodic true onBacktrack None None)
    tightened adj loc pat periodic onChoice
    = (Raise Contradiction, failed, Some (pattern, i, j), ev) ->
  exists forbidden,
    setitem wave pattern i j false = Ok forbidden /\
    fst (fst (run (S fuel) wave adj loc pat periodic true onBacktrack onChoice checkFeasible))
      = fst (fst (run fuel forbidden adj loc pat periodic true onBacktrack checkFeasible None)) /\
    snd (fst (run (S fuel) wave adj loc pat periodic true onBacktrack onChoice checkFeasible))
      = failed /\
    sum failed = 0 /\
    failed <> wave /\ failed <> tightened.
Proof.
  intros Hcf Hbt Hprop Htry.
  destruct (try_block_contradiction
              (fun w => run fuel w adj loc pat periodic true onBacktrack None None)
              tightened adj loc pat periodic onChoice failed pattern i j ev
              (fun w => run_contradiction_state fuel adj loc pat periodic onBacktrack w None)
              Htry) as [Hsum [chosen Hcommit]].
  pose proof (propagate_tightens wave adj periodic) as Ht. rewrite Hprop in Ht.
  simpl in Ht. destruct Ht as (HN & HW & HH & _).
  destruct (commit_ok_setitem tightened wave chosen pattern i j false Hcommit
              (eq_sym HN) (eq_sym HW) (eq_sym HH)) as [forbidden Hset].
  pose proof (propagate_outcome wave adj periodic) as Hout. rewrite Hprop in Hout.
  destruct Hout as [_ Hpos].
  pose proof (propagate_tightens wave adj periodic) as Hle. rewrite Hprop in Hle.
  apply tightens_sum in Hle. simpl in Hle.
  exists forbidden. split; [exact Hset |].
  cbn [run]. 
  destruct (call_feasible checkFeasible wave) as [[[] | e |] ev0]; simpl in Hcf;
    try discriminate.
  rewrite Hprop, Htry.
  destruct (call_backtrack onBacktrack) as [[[] | e |] ev2]; simpl in Hbt;
    try discriminate.
  rewrite Hset.
  destruct (run fuel forbidden adj loc pat periodic true onBacktrack checkFeasible None)
    as [[r' final'] ev3]; simpl.
  repeat split; try assumption.
  - intros ->. lia.
  - intros ->. lia.
Qed.

(** The second scenario of [test_run]: the caller's array ends all false
    while the grid that is returned is #2 everywhere. *)
Lemma run_backtrack_leaves_caller_array_witness :
  exists forbidden,
    setitem test_wave 0 0 0 false = Ok forbidden /\
    fst (fst (run 2 test_wave checker_adj lexicalLocationHeuristic lexicalPatternHeuristic
                true true (Some BacktrackObserver) (Some ChoiceObserver) None))
      = fst (fst (run 1 forbidden checker_adj lexicalLocationHeuristic
                    lexicalPatternHeuristic true true (Some BacktrackObserver) None None)) /\
    snd (fst (run 2 test_wave checker_adj lexicalLocationHeuristic lexicalPatternHeuristic
                true true (Some BacktrackObserver) (Some ChoiceObserver) None))
      = all_false_wave /\
    sum all_false_wave = 0 /\
    all_false_wave <> test_wave /\ all_false_wave <> test_wave.
Proof.
  apply (run_backtrack_leaves_caller_array 1 test_wave checker_adj
           lexicalLocationHeuristic lexicalPatternHeuristic true
           (Some BacktrackObserver) (Some ChoiceObserver) None
           test_wave all_false_wave 0%Z 0%Z 0%Z [EvChoice 0 0 0]);
    vm_compute; reflexivity.
Defined.

(** In that scenario the grid that is returned cannot be read off the
    caller's array, in which [numpy.argmax] finds pattern #0 everywhere. *)
Lemma run_backtrack_grid_from_copy :
  run 2 test_wave checker_adj lexicalLocationHeuristic lexicalPatternHeuristic
    true true (Some BacktrackObserver) (Some ChoiceObserver) None
  = (Ok [[2; 2; 2; 2]; [2; 2; 2; 2]; [2; 2; 2; 2]], all_false_wave,
     [EvChoice 0 0 0; EvBacktrack]) /\
  argmax0 all_false_wave = [[0; 0; 0; 0]; [0; 0; 0; 0]; [0; 0; 0; 0]].
Proof. split; vm_compute; reflexivity. Qed.

(** ** run with the lexical heuristics always ends *)

Lemma nsum_add (n : nat) (f g : nat -> nat) :
  nsum n (fun i => f i + g i) = nsum n f + nsum n g.
Proof. induction n as [| n IH]; simpl; [reflexivity | rewrite IH; lia]. Qed.

Lemma nsum_swap (n m : nat) (f : nat -> nat -> nat) :
  nsum n (fun i => nsum m (fun j => f i j)) = nsum m (fun j => nsum n (fun i => f i j)).
Proof.
  induction n as [| n IH]; simpl.
  - induction m as [| m IHm]; simpl; [reflexivity | now rewrite <- IHm].
  - rewrite IH. now rewrite <- nsum_add.
Qed.

(** The count of the whole array is the sum of the counts of its cells. *)
Lemma sum_by_cells (a : ndarray) :
  sum a = nsum (dimW a) (fun x => nsum (dimH a) (fun y => count_at a x y)).
Proof.
  unfold sum, count_at. rewrite nsum_swap.
  apply nsum_ext; intros x _. apply nsum_swap.
Qed.

Lemma sum_resolved (a : ndarray) :
  (forall x y, x < dimW a -> y < dimH a -> count_at a x y <= 1) ->
  sum a <= dimW a * dimH a.
Proof.
  intros H. rewrite sum_by_cells.
  transitivity (nsum (dimW a) (fun _ => dimH a)); [| now rewrite nsum_const].
  apply nsum_le; intros x Hx.
  transitivity (nsum (dimH a) (fun _ => 1)); [| rewrite nsum_const; lia].
  apply nsum_le; intros y Hy. now apply H.
Qed.

(** A cell in which at most the pattern [p] is possible counts at most 1. *)
Lemma count_at_single (a : ndarray) (x y p : nat) :
  (forall q, q < dimN a -> q <> p -> get a q x y = false) -> count_at a x y <= 1.
Proof.
  unfold count_at. generalize (dimN a) as n. induction n as [| n IH]; intros H; simpl;
    [lia |].
  destruct (Nat.eq_dec n p) as [-> | Hne].
  - rewrite (nsum_ext p _ (fun _ => 0)).
    + rewrite nsum_const. destruct (get a p x y); simpl; lia.
    + intros q Hq. rewrite H by lia. reflexivity.
  - rewrite (H n) by lia. simpl. specialize (IH ltac:(intros; apply H; lia)). lia.
Qed.

(** A tightening that loses an entry loses count. *)
Lemma tightens_strict (wave' wave : ndarray) (p x y : nat) :
  tightens wave' wave -> p < dimN wave -> x < dimW wave -> y < dimH wave ->
  get wave p x y = true -> get wave' p x y = false -> sum wave' < sum wave.
Proof.
  intros Ht Hp Hx Hy Htrue Hfalse.
  pose proof (tightens_sum wave' wave Ht) as Hle.
  destruct (Nat.eq_dec (sum wave') (sum wave)) as [Heq | Hne]; [| lia].
  pose proof (tightens_same_sum wave' wave Ht Heq p x y Hp Hx Hy). congruence.
Qed.

(** *** The lexical heuristics *)

Lemma first_true_spec (l : list bool) (i r : nat) :
  first_true i l = Some r ->
  i <= r /\ r - i < length l /\ nth (r - i) l false = true.
Proof.
  revert i. induction l as [| b l IH]; intros i; simpl; [discriminate |].
  destruct b.
  - intros [= <-]. rewrite Nat.sub_diag. repeat split; lia.
  - intros H. destruct (IH (S i) H) as (Hle & Hlen & Hnth).
    replace (r - i) with (S (r - S i)) by lia. repeat split; try lia. exact Hnth.
Qed.

(** [argmin] returns a position of the sequence, and if the weight there is
    infinite then every weight is. *)
Lemma argmin_from_spec (l : list weight) (best : nat) (bw : weight) (i : nat) :
  best < i ->
  (argmin_from best bw i l = best /\ (bw = None -> forall c, In c l -> c = None)) \/
  (i <= argmin_from best bw i l /\ argmin_from best bw i l - i < length l /\
   nth (argmin_from best bw i l - i) l None <> None).
Proof.
  revert best bw i. induction l as [| c l IH]; intros best bw i Hlt; simpl.
  - left. split; [reflexivity | intros _ c []].
  - destruct (weight_ltb c bw) eqn:Hc.
    + right. destruct (IH i c (S i) (Nat.lt_succ_diag_r i)) as [[-> Hall] | (Hle & Hlen & Hnth)].
      * rewrite Nat.sub_diag. repeat split; try lia.
        destruct c; [discriminate | now destruct bw].
      * replace (argmin_from i c (S i) l - i)
          with (S (argmin_from i c (S i) l - S i)) by lia.
        repeat split; try lia. exact Hnth.
    + destruct (IH best bw (S i) ltac:(lia)) as [[-> Hall] | (Hle & Hlen & Hnth)].
      * left. split; [reflexivity |]. intros -> c' [<- | Hin].
        -- now destruct c.
        -- now apply Hall.
      * right.
        replace (argmin_from best bw (S i) l - i)
          with (S (argmin_from best bw (S i) l - S i)) by lia.
        repeat split; try lia. exact Hnth.
Qed.

Lemma argmin_spec (l : list weight) (k : nat) :
  argmin l = Ok k ->
  k < length l /\ (nth k l None = None -> forall c, In c l -> c = None).
Proof.
  destruct l as [| c l]; simpl; [discriminate |]. intros [= <-].
  destruct (argmin_from_spec l 0 c 1 Nat.lt_0_1) as [[-> Hall] | (Hle & Hlen & Hnth)].
  - split; [lia |]. intros -> c' [<- | Hin]; [reflexivity | now apply Hall].
  - split; [lia |].
    destruct (argmin_from 0 c 1 l) as [| r]; [lia |].
    simpl in *. rewrite Nat.sub_0_r in Hnth. contradiction.
Qed.

Lemma concat_tab_length (A : Type) (w h : nat) (g : nat -> nat -> A) :
  length (concat (tab w (fun x => tab h (g x)))) = w * h.
Proof.
  unfold tab at 1. induction w as [| w IH]; [reflexivity |].
  rewrite seq_S, map_app, concat_app, length_app, IH. simpl.
  rewrite app_nil_r, tab_length. lia.
Qed.

Lemma concat_tab_nth (A : Type) (w h : nat) (g : nat -> nat -> A) (d : A) (x y : nat) :
  x < w -> y < h ->
  nth (x * h + y) (concat (tab w (fun x => tab h (g x)))) d = g x y.
Proof.
  induction w as [| w IH]; intros Hx Hy; [lia |].
  unfold tab at 1. rewrite seq_S, map_app, concat_app. simpl. rewrite app_nil_r.
  fold (tab w (fun x => tab h (g x))).
  destruct (Nat.eq_dec x w) as [-> | Hne].
  - rewrite app_nth2; rewrite concat_tab_length; [| nia].
    replace (w * h + y - w * h) with y by lia.
    rewrite nth_tab. apply Nat.ltb_lt in Hy. now rewrite Hy.
  - rewrite app_nth1 by (rewrite concat_tab_length; nia).
    apply IH; lia.
Qed.

(** What the lexical heuristics observe: a pattern that is possible at a
    cell of the grid, and a cell with several possible patterns whenever
    there is one. *)
Lemma observe_lexical (wave : ndarray) (pattern i j : Z) :
  observe wave lexicalLocationHeuristic lexicalPatternHeuristic = Ok (pattern, i, j) ->
  exists p x y,
    pattern = Z.of_nat p /\ i = Z.of_nat x /\ j = Z.of_nat y /\
    p < dimN wave /\ x < dimW wave /\ y < dimH wave /\
    get wave p x y = true /\
    (count_at wave x y <= 1 ->
     forall x' y', x' < dimW wave -> y' < dimH wave -> count_at wave x' y' <= 1).
Proof.
  unfold observe, lexicalLocationHeuristic.
  destruct (argmin (concat (cell_weights wave))) as [k | |] eqn:Hk; simpl;
    try discriminate.
  destruct (argmin_spec _ _ Hk) as [Hlen Hmin].
  set (wt := fun a b => if 1 <? count_at wave a b then Some (count_at wave a b)
                        else None).
  assert (Hcells : forall a b, a < dimW wave -> b < dimH wave ->
            nth (a * dimH wave + b) (concat (cell_weights wave)) None = wt a b).
  { intros a b Ha Hb. unfold cell_weights.
    apply (concat_tab_nth weight (dimW wave) (dimH wave) wt None a b Ha Hb). }
  assert (Hlen' : length (concat (cell_weights wave)) = dimW wave * dimH wave).
  { unfold cell_weights. apply (concat_tab_length weight _ _ wt). }
  rewrite Hlen' in Hlen.
  assert (HH : 0 < dimH wave) by nia.
  assert (Hx : k / dimH wave < dimW wave)
    by (apply Nat.Div0.div_lt_upper_bound; lia).
  assert (Hy : k mod dimH wave < dimH wave) by (apply Nat.mod_upper_bound; lia).
  set (x := k / dimH wave) in *. set (y := k mod dimH wave) in *.
  unfold cell. rewrite !norm_index_nonneg by lia. rewrite !Nat2Z.id. simpl.
  unfold lexicalPatternHeuristic.
  destruct (first_true 0 (tab (dimN wave) (fun p => get wave p x y))) as [p |] eqn:Hp;
    simpl; try discriminate.
  intros [= <- <- <-].
  destruct (first_true_spec _ _ _ Hp) as (_ & Hplen & Hpnth).
  rewrite Nat.sub_0_r in *. rewrite tab_length in Hplen.
  rewrite nth_tab in Hpnth. apply Nat.ltb_lt in Hplen as Hplt. rewrite Hplt in Hpnth.
  exists p, x, y. repeat split; try assumption.
  intros Hcount x' y' Hx' Hy'.
  assert (Hkxy : k = x * dimH wave + y).
  { unfold x, y. rewrite (Nat.div_mod_eq k (dimH wave)) at 1. lia. }
  rewrite Hkxy, (Hcells x y Hx Hy) in Hmin.
  assert (Hnone : wt x y = None).
  { unfold wt. destruct (Nat.ltb_spec 1 (count_at wave x y)); [lia | reflexivity]. }
  specialize (Hmin Hnone (wt x' y')).
  destruct (Nat.ltb_spec 1 (count_at wave x' y')) as [Hgt | Hle]; [| exact Hle].
  exfalso. assert (Hsome : wt x' y' = None).
  { apply Hmin. rewrite <- (Hcells x' y' Hx' Hy').
    apply nth_In. rewrite Hlen'. nia. }
  unfold wt in Hsome. apply Nat.ltb_lt in Hgt. rewrite Hgt in Hsome. discriminate.
Qed.

Lemma observe_lexical_outcome (wave : ndarray) :
  match observe wave lexicalLocationHeuristic lexicalPatternHeuristic with
  | Raise Contradiction | OutOfFuel => False
  | _ => True
  end.
Proof.
  unfold observe, lexicalLocationHeuristic, argmin.
  destruct (concat (cell_weights wave)); simpl; [exact I |].
  unfold cell.
  repeat match goal with
         | |- context [norm_index ?n ?i] => destruct (norm_index n i); simpl; try exact I
         end.
  unfold lexicalPatternHeuristic.
  match goal with |- context [first_true ?i ?l] => now destruct (first_true i l) end.
Qed.

Lemma assign_dims (a : ndarray) (sel : nat -> nat -> nat -> bool) (v : bool) :
  dimN (assign a sel v) = dimN a /\ dimW (assign a sel v) = dimW a /\
  dimH (assign a sel v) = dimH a.
Proof. repeat split. Qed.

Lemma get_assign (a : ndarray) (sel : nat -> nat -> nat -> bool) (v : bool) (p x y : nat) :
  get (assign a sel v) p x y =
  if (p <? dimN a) && (x <? dimW a) && (y <? dimH a)
  then (if sel p x y then v else get a p x y) else false.
Proof. unfold assign. apply get_tabulate. Qed.

(** The two assignments of a commit, on indices inside the array. *)
Lemma commit_inside (wave : ndarray) (p x y : nat) :
  p < dimN wave -> x < dimW wave -> y < dimH wave ->
  commit wave (Z.of_nat p) (Z.of_nat x) (Z.of_nat y) =
  (Ok tt, assign (assign wave (fun _ x' y' => (x' =? x) && (y' =? y)) false)
            (fun p' x' y' => (p' =? p) && (x' =? x) && (y' =? y)) true).
Proof.
  intros Hp Hx Hy. unfold commit, setcell, setitem.
  rewrite !norm_index_nonneg by lia. rewrite !Nat2Z.id.
  destruct (assign_dims wave (fun _ x' y' => (x' =? x) && (y' =? y)) false)
    as (-> & -> & ->).
  rewrite !norm_index_nonneg by lia. rewrite !Nat2Z.id. reflexivity.
Qed.

(** Committing a possible pattern tightens the wave, strictly when the cell
    had several patterns. *)
Lemma commit_possible (wave : ndarray) (p x y : nat) :
  p < dimN wave -> x < dimW wave -> y < dimH wave -> get wave p x y = true ->
  exists chosen,
    commit wave (Z.of_nat p) (Z.of_nat x) (Z.of_nat y) = (Ok tt, chosen) /\
    tightens chosen wave /\
    (1 < count_at wave x y -> sum chosen < sum wave).
Proof.
  intros Hp Hx Hy Htrue. rewrite commit_inside by assumption.
  eexists. split; [reflexivity |].
  set (chosen := assign _ _ true).
  assert (Hget : forall q a b, get chosen q a b =
            if (q <? dimN wave) && (a <? dimW wave) && (b <? dimH wave)
            then (if (q =? p) && (a =? x) && (b =? y) then true
                  else if (a =? x) && (b =? y) then false else get wave q a b)
            else false).
  { intros q a b. unfold chosen. rewrite !get_assign.
    destruct (assign_dims wave (fun _ x' y' => (x' =? x) && (y' =? y)) false)
      as (-> & -> & ->).
    now destruct ((q <? dimN wave) && (a <? dimW wave) && (b <? dimH wave)). }
  assert (Ht : tightens chosen wave).
  { unfold tightens. repeat split. intros q a b. rewrite Hget.
    destruct ((q <? dimN wave) && (a <? dimW wave) && (b <? dimH wave));
      [| discriminate].
    destruct (Nat.eqb_spec q p) as [-> | ?], (Nat.eqb_spec a x) as [-> | ?],
      (Nat.eqb_spec b y) as [-> | ?]; simpl; auto; discriminate. }
  split; [exact Ht |].
  intros Hcount.
  pose proof (tightens_sum _ _ Ht) as Hle.
  destruct (Nat.eq_dec (sum chosen) (sum wave)) as [Heq | Hne]; [| lia].
  exfalso. pose proof (tightens_same_sum chosen wave Ht Heq) as Hsame.
  assert (count_at wave x y <= 1); [| lia].
  apply (count_at_single wave x y p). intros q Hq Hqp.
  rewrite <- Hsame by assumption. rewrite Hget.
  apply Nat.eqb_neq in Hqp. rewrite Hqp, !Nat.eqb_refl. simpl.
  now destruct ((q <? dimN wave) && (x <? dimW wave) && (y <? dimH wave)).
Qed.

(** Forbidding a possible pattern removes one entry. *)
Lemma forbid_possible (wave : ndarray) (p x y : nat) :
  p < dimN wave -> x < dimW wave -> y < dimH wave -> get wave p x y = true ->
  exists forbidden,
    setitem wave (Z.of_nat p) (Z.of_nat x) (Z.of_nat y) false = Ok forbidden /\
    sum forbidden < sum wave.
Proof.
  intros Hp Hx Hy Htrue. unfold setitem.
  rewrite !norm_index_nonneg by lia. rewrite !Nat2Z.id.
  eexists. split; [reflexivity |].
  apply (tightens_strict _ wave p x y); try assumption.
  - unfold tightens. repeat split. intros q a b. rewrite get_assign.
    destruct ((q <? dimN wave) && (a <? dimW wave) && (b <? dimH wave));
      [| discriminate].
    now destruct ((q =? p) && (a =? x) && (b =? y)).
  - rewrite get_assign, !Nat.eqb_refl. simpl.
    now destruct ((p <? dimN wave) && (x <? dimW wave) && (y <? dimH wave)).
Qed.

Lemma call_feasible_total (checkFeasible : option callable) (wave : ndarray) :
  fst (call_feasible checkFeasible wave) <> OutOfFuel.
Proof.
  destruct checkFeasible as [[| | f] |]; simpl; try discriminate.
  now destruct (f wave).
Qed.

Lemma call_choice_total (onChoice : option callable) (pattern i j : Z) :
  fst (call_choice onChoice pattern i j) <> OutOfFuel.
Proof. destruct onChoice as [[] |]; simpl; discriminate. Qed.

Lemma call_backtrack_total (onBacktrack : option callable) :
  fst (call_backtrack onBacktrack) <> OutOfFuel.
Proof. destruct onBacktrack as [[] |]; simpl; discriminate. Qed.

(** The [try] block under the lexical heuristics: it ends if the recursive
    call ends on every wave with fewer entries, and when it is left by a
    Contradiction the choice is bound to a pattern that was possible. *)
Lemma try_block_lexical (recurse : ndarray -> frame) (wave : ndarray) (adj : adjacency)
    (periodic : bool) (onChoice : option callable) :
  (forall w, sum w < sum wave -> fst (fst (recurse w)) <> OutOfFuel) ->
  match try_block recurse wave adj lexicalLocationHeuristic lexicalPatternHeuristic
          periodic onChoice with
  | (OutOfFuel, _, _, _) => False
  | (Raise Contradiction, _, bound, _) =>
      exists p x y,
        bound = Some (Z.of_nat p, Z.of_nat x, Z.of_nat y) /\
        p < dimN wave /\ x < dimW wave /\ y < dimH wave /\ get wave p x y = true
  | _ => True
  end.
Proof.
  intros Hrec. unfold try_block.
  pose proof (observe_lexical_outcome wave) as Hout.
  destruct (observe wave lexicalLocationHeuristic lexicalPatternHeuristic)
    as [[[pattern i] j] | e |] eqn:Hobs; [| destruct e; tauto | contradiction].
  destruct (observe_lexical wave pattern i j Hobs)
    as (p & x & y & -> & -> & -> & Hp & Hx & Hy & Htrue & Hmin).
  assert (Hbound : exists p' x' y',
            Some (Z.of_nat p, Z.of_nat x, Z.of_nat y)
              = Some (Z.of_nat p', Z.of_nat x', Z.of_nat y') /\
            p' < dimN wave /\ x' < dimW wave /\ y' < dimH wave /\
            get wave p' x' y' = true).
  { exists p, x, y. auto. }
  pose proof (call_choice_total onChoice (Z.of_nat p) (Z.of_nat x) (Z.of_nat y)) as Hcc.
  destruct (call_choice onChoice (Z.of_nat p) (Z.of_nat x) (Z.of_nat y))
    as [[[] | e |] ev]; simpl in Hcc; [| destruct e; simpl; auto | contradiction].
  destruct (commit_possible wave p x y Hp Hx Hy Htrue) as (chosen & -> & Ht & Hstrict).
  pose proof (propagate_total chosen adj periodic) as Htot.
  pose proof (propagate_tightens chosen adj periodic) as Ht2.
  destruct (propagate chosen adj periodic) as [[[] | e |] tightened]; simpl in *;
    [| destruct e; simpl; auto | contradiction].
  destruct (Nat.ltb_spec (dimW tightened * dimH tightened) (sum tightened))
    as [Hmore | Hdone]; [| exact I].
  assert (Hless : sum tightened < sum wave).
  { pose proof (tightens_sum _ _ Ht2) as Hle2.
    destruct (Nat.lt_ge_cases 1 (count_at wave x y)) as [Hgt | Hle1].
    - specialize (Hstrict Hgt). lia.
    - exfalso. pose proof (sum_resolved wave (Hmin Hle1)) as Hres.
      pose proof (tightens_sum _ _ Ht) as Hle3.
      destruct Ht as (_ & HW & HH & _). destruct Ht2 as (_ & HW2 & HH2 & _).
      rewrite HW2, HH2, HW, HH in Hmore. lia. }
  specialize (Hrec tightened Hless).
  destruct (recurse tightened) as [[r final] ev']; simpl in *.
  destruct r as [g | e |]; [exact I | destruct e; auto | contradiction].
Qed.

(** X12.  Under the lexical heuristics [run] ends within [sum wave + 1]
    frames of recursion: each frame recurses on a wave with fewer true
    entries. *)
Lemma run_lexical_total (fuel : nat) (adj : adjacency) (periodic backtracking : bool)
    (onBacktrack : option callable) :
  forall (wave : ndarray) (onChoice checkFeasible : option callable),
    sum wave < fuel ->
    fst (fst (run fuel wave adj lexicalLocationHeuristic lexicalPatternHeuristic
                periodic backtracking onBacktrack onChoice checkFeasible)) <> OutOfFuel.
Proof.
  induction fuel as [| fuel IH]; intros wave onChoice checkFeasible Hfuel; [lia |].
  cbn [run].
  pose proof (call_feasible_total checkFeasible wave) as Hcf.
  destruct (call_feasible checkFeasible wave) as [[[] | e |] ev0]; simpl in Hcf;
    [| simpl; discriminate | contradiction].
  pose proof (propagate_total wave adj periodic) as Htot.
  pose proof (propagate_tightens wave adj periodic) as Ht.
  destruct (propagate wave adj periodic) as [[[] | e |] tightened]; simpl in Htot, Ht;
    [| simpl; discriminate | contradiction].
  pose proof (tightens_sum _ _ Ht) as Hle.
  pose proof (try_block_lexical
                (fun w => run fuel w adj lexicalLocationHeuristic lexicalPatternHeuristic
                            periodic backtracking onBacktrack None None)
                tightened adj periodic onChoice
                (fun w Hw => IH w None None ltac:(lia))) as Htry.
  destruct (try_block _ tightened adj lexicalLocationHeuristic lexicalPatternHeuristic
              periodic onChoice) as [[[r final] bound] ev1].
  destruct r as [g | e |]; [simpl; discriminate | | contradiction].
  destruct e; try (simpl; discriminate).
  destruct backtracking; [| simpl; discriminate].
  pose proof (call_backtrack_total onBacktrack) as Hbt.
  destruct (call_backtrack onBacktrack) as [[[] | e |] ev2]; simpl in Hbt;
    [| simpl; discriminate | contradiction].
  destruct Htry as (p & x & y & -> & Hp & Hx & Hy & Htrue).
  destruct Ht as (HN & HW & HH & Hget).
  rewrite HN in Hp. rewrite HW in Hx. rewrite HH in Hy. apply Hget in Htrue.
  destruct (forbid_possible wave p x y Hp Hx Hy Htrue) as (forbidden & -> & Hless).
  specialize (IH forbidden checkFeasible None ltac:(lia)).
  destruct (run fuel forbidden adj lexicalLocationHeuristic lexicalPatternHeuristic
              periodic true onBacktrack checkFeasible None) as [[r' final'] ev3].
  exact IH.
Qed.

(** * Further properties of the code *)

(** ** makeWave: no ground, and the ground indices it rejects *)

(** X1.  Without a ground index [makeWave] never fails: it returns the
    array of the requested shape with every entry true, so every cell has
    all [N] patterns and the count is [N*W*H]. *)
Theorem makeWave_full_count (n w h : nat) :
  exists wave,
    makeWave n w h None = Ok wave /\
    dimN wave = n /\ dimW wave = w /\ dimH wave = h /\
    (forall p x y, p < n -> x < w -> y < h -> get wave p x y = true) /\
    (forall x y, x < w -> y < h -> count_at wave x y = n) /\
    sum wave = n * w * h.
Proof.
  exists (ones n w h).
  assert (Hget : forall p x y, p < n -> x < w -> y < h -> get (ones n w h) p x y = true).
  { intros p x y Hp Hx Hy. unfold ones. now rewrite get_tabulate_in. }
  split; [reflexivity |]. split; [reflexivity |]. split; [reflexivity |].
  split; [reflexivity |]. split; [exact Hget |]. split.
  - intros x y Hx Hy. unfold count_at. change (dimN (ones n w h)) with n.
    rewrite (nsum_ext n _ (fun _ => 1)); [rewrite nsum_const; lia |].
    intros p Hp. now rewrite Hget.
  - unfold ones. rewrite sum_tabulate.
    rewrite (nsum_ext n _ (fun _ => w * h)); [rewrite nsum_const; lia |].
    intros p _. rewrite (nsum_ext w _ (fun _ => h)); [apply nsum_const |].
    intros x _. rewrite nsum_const. simpl. lia.
Qed.

(** X2.  With a ground index [makeWave] fails exactly when the array has no
    bottom row ([H = 0]) or the index is outside [[-N, N)]; the failure is
    the IndexError of one of its two assignments, and on every other input
    it returns a wave. *)
Theorem makeWave_ground_fails_iff (n w h : nat) (g : Z) :
  (makeWave n w h (Some g) = Raise IndexError <->
   h = 0 \/ (g < - Z.of_nat n)%Z \/ (Z.of_nat n <= g)%Z) /\
  (makeWave n w h (Some g) <> Raise IndexError ->
   exists wave, makeWave n w h (Some g) = Ok wave).
Proof.
  unfold makeWave. destruct h as [| h'].
  - assert (norm_index 0 (Z.of_nat 0 - 1) = None) as -> by reflexivity.
    split; [split; auto | congruence].
  - rewrite bottom_row_index by lia.
    destruct (norm_index n g) as [gp |] eqn:Hg.
    + split; [| intros _; eexists; reflexivity].
      split; [discriminate |].
      intros [H | H]; [discriminate |].
      apply norm_index_none in H. congruence.
    + split; [| congruence]. split; [| reflexivity].
      intros _. right. now apply norm_index_none.
Qed.

(** ** makeAdj: the matrices it builds *)

Lemma mark_entries (m m' : matrix) (i : nat) (j : Z) :
  mark m i j = Ok m' ->
  mrows m' = mrows m /\ mcols m' = mcols m /\
  exists k, norm_index (mcols m) j = Some k /\ i < mrows m /\
    forall a b, a < mrows m -> b < mcols m ->
      mget m' a b = if (a =? i) && (b =? k) then true else mget m a b.
Proof.
  unfold mark. destruct (Nat.ltb_spec i (mrows m)) as [Hi | Hi]; [| discriminate].
  destruct (norm_index (mcols m) j) as [k |]; [| discriminate].
  intros [= <-]. split; [reflexivity |]. split; [reflexivity |].
  exists k. split; [reflexivity |]. split; [exact Hi |].
  intros a b Ha Hb. unfold mset. rewrite mget_mtabulate.
  apply Nat.ltb_lt in Ha, Hb. now rewrite Ha, Hb.
Qed.

Lemma fill_row_entries (js : list Z) (i : nat) (m m' : matrix) :
  fill_row m i js = Ok m' ->
  mrows m' = mrows m /\ mcols m' = mcols m /\
  forall a b, a < mrows m -> b < mcols m ->
    (mget m' a b = true <->
     mget m a b = true \/
     (a = i /\ exists j, In j js /\ norm_index (mcols m) j = Some b)).
Proof.
  revert m. induction js as [| j js IH]; intros m; simpl.
  - intros [= <-]. split; [reflexivity |]. split; [reflexivity |].
    intros a b _ _. split; [auto |]. intros [H | (_ & j & [] & _)]. exact H.
  - destruct (mark m i j) as [m1 | |] eqn:Hmark; simpl; try discriminate.
    intros Hfill.
    destruct (mark_entries m m1 i j Hmark) as (Hr1 & Hc1 & k & Hk & Hi & Hget1).
    destruct (IH m1 Hfill) as (Hr & Hc & Hget).
    split; [congruence |]. split; [congruence |].
    intros a b Ha Hb. rewrite Hget by congruence. rewrite Hget1 by assumption.
    rewrite Hc1. split.
    + intros [H | (-> & j' & Hin & Hj')].
      * destruct (Nat.eqb_spec a i) as [-> | Hne]; simpl in H; [| now left].
        destruct (Nat.eqb_spec b k) as [-> | Hne]; [| now left].
        right. split; [reflexivity |]. exists j. split; [now left | exact Hk].
      * right. split; [reflexivity |]. exists j'. split; [now right | exact Hj'].
    + intros [H | (-> & j' & [<- | Hin] & Hj')].
      * left. rewrite H. now destruct ((a =? i) && (b =? k)).
      * left. rewrite Hk in Hj'. injection Hj' as ->.
        now rewrite !Nat.eqb_refl.
      * right. split; [reflexivity |]. now exists j'.
Qed.

Lemma fill_rows_entries (rows : list (list Z)) (i : nat) (m m' : matrix) :
  fill_rows m i rows = Ok m' ->
  mrows m' = mrows m /\ mcols m' = mcols m /\
  forall a b, a < mrows m -> b < mcols m ->
    (mget m' a b = true <->
     mget m a b = true \/
     exists k js j, nth_error rows k = Some js /\ a = i + k /\ In j js /\
                    norm_index (mcols m) j = Some b).
Proof.
  revert i m. induction rows as [| js rows IH]; intros i m; simpl.
  - intros [= <-]. split; [reflexivity |]. split; [reflexivity |].
    intros a b _ _. split; [auto |].
    intros [H | (k & js & j & Hnth & _)]; [exact H |]. now destruct k.
  - destruct (fill_row m i js) as [m1 | |] eqn:Hrow; simpl; try discriminate.
    intros Hfill.
    destruct (fill_row_entries js i m m1 Hrow) as (Hr1 & Hc1 & Hget1).
    destruct (IH (S i) m1 Hfill) as (Hr & Hc & Hget).
    split; [congruence |]. split; [congruence |].
    intros a b Ha Hb. rewrite Hget by congruence. rewrite Hget1 by assumption.
    rewrite Hc1. split.
    + intros [[H | (-> & j & Hin & Hj)] | (k & js' & j & Hnth & -> & Hin & Hj)].
      * now left.
      * right. exists 0, js, j. rewrite Nat.add_0_r. auto.
      * right. exists (S k), js', j. repeat split; auto; lia.
    + intros [H | (k & js' & j & Hnth & -> & Hin & Hj)]; [now left; left |].
      destruct k as [| k]; simpl in Hnth.
      * injection Hnth as <-. left. right. rewrite Nat.add_0_r. split; [reflexivity |].
        now exists j.
      * right. exists k, js', j. repeat split; auto; lia.
Qed.

Lemma makeAdj_loop_entries (n : nat) (adjLists : adjacency_lists) (adj : adjacency) :
  makeAdj_loop n adjLists = Ok adj -> Forall2 (lists_matrix n) adjLists adj.
Proof.
  revert adj. induction adjLists as [| [d rows] rest IH]; intros adj; simpl.
  - intros [= <-]. constructor.
  - destruct (fill_rows (mzeros n n) 0 rows) as [m | |] eqn:Hm; simpl; try discriminate.
    destruct (makeAdj_loop n rest) as [ms | |]; simpl; try discriminate.
    intros [= <-]. constructor; [| now apply IH].
    destruct (fill_rows_entries rows 0 (mzeros n n) m Hm) as (Hr & Hc & Hget).
    unfold lists_matrix; simpl. split; [reflexivity |].
    split; [exact Hr |]. split; [exact Hc |].
    intros i k Hi Hk. rewrite (Hget i k Hi Hk). unfold mzeros at 1.
    rewrite mget_mtabulate. simpl mcols.
    split.
    + intros [H | (a & js & j & Hnth & -> & Hin & Hj)].
      * now destruct ((i <? n) && (k <? n)).
      * now exists js, j.
    + intros (js & j & Hnth & Hin & Hj). right. now exists i, js, j.
Qed.

(** X3.  When [makeAdj] returns, its result has the directions of the
    dictionary, in the same order, each with an [N] by [N] matrix ([N] the
    length of the first list) in which the entry [(i, k)] is true exactly
    when the list of pattern [i] names [k], directly or as the negative
    index [k - N]. *)
Theorem makeAdj_entries (adjLists : adjacency_lists) (adj : adjacency) :
  makeAdj adjLists = Ok adj ->
  Forall2 (lists_matrix (num_patterns_of adjLists)) adjLists adj.
Proof.
  destruct adjLists as [| [d rows] rest]; [discriminate |].
  apply makeAdj_loop_entries.
Qed.

Lemma makeAdj_entries_witness :
  Forall2 (lists_matrix (num_patterns_of checker_lists)) checker_lists checker_adj.
Proof.
  apply (makeAdj_entries checker_lists checker_adj). vm_compute. reflexivity.
Defined.

(** ** The lexical heuristics *)

Lemma first_true_first (l : list bool) (i r : nat) :
  first_true i l = Some r ->
  i <= r /\ r - i < length l /\ nth (r - i) l false = true /\
  forall q, q < r - i -> nth q l false = false.
Proof.
  revert i. induction l as [| b l IH]; intros i; simpl; [discriminate |].
  destruct b.
  - intros [= <-]. rewrite Nat.sub_diag. repeat split; try lia.
  - intros H. destruct (IH (S i) H) as (Hle & Hlen & Hnth & Hall).
    replace (r - i) with (S (r - S i)) by lia.
    split; [lia |]. split; [lia |]. split; [exact Hnth |].
    intros [| q] Hq; [reflexivity |]. apply Hall. lia.
Qed.

Lemma first_true_none (l : list bool) (i : nat) :
  first_true i l = None -> forall q, nth q l false = false.
Proof.
  revert i. induction l as [| b l IH]; intros i; simpl.
  - intros _ q. now destruct q.
  - destruct b; [discriminate |]. intros H [| q]; [reflexivity |]. now apply (IH (S i)).
Qed.

(** The lexical pattern heuristic: the first true weight, or an IndexError
    when there is none. *)
Lemma lexicalPatternHeuristic_smallest (weights : list bool) :
  match lexicalPatternHeuristic weights with
  | Ok z =>
      exists p, z = Z.of_nat p /\ p < length weights /\ nth p weights false = true /\
                forall q, q < p -> nth q weights false = false
  | Raise e => e = IndexError /\ forall q, nth q weights false = false
  | OutOfFuel => False
  end.
Proof.
  unfold lexicalPatternHeuristic.
  destruct (first_true 0 weights) as [p |] eqn:Hp.
  - destruct (first_true_first weights 0 p Hp) as (_ & Hlen & Hnth & Hall).
    rewrite Nat.sub_0_r in *. exists p. auto.
  - split; [reflexivity |]. now apply (first_true_none weights 0).
Qed.

(** X4.  The lexical pattern heuristic returns the smallest index at which
    the weights are true, and fails with an IndexError exactly when no
    weight is. *)
Theorem lexicalPatternHeuristic_first (weights : list bool) :
  match lexicalPatternHeuristic weights with
  | Ok z =>
      exists p, z = Z.of_nat p /\ p < length weights /\ nth p weights false = true /\
                forall q, q < p -> nth q weights false = false
  | Raise e => e = IndexError /\ forall q, nth q weights false = false
  | OutOfFuel => False
  end.
Proof. exact (lexicalPatternHeuristic_smallest weights). Qed.

Ltac weight_cases :=
  repeat match goal with
         | w : weight |- _ => destruct w
         | w : option nat |- _ => destruct w
         end;
  simpl in *;
  rewrite ?Nat.ltb_lt, ?Nat.ltb_ge in *;
  try congruence; try lia.

Lemma weight_ltb_irrefl (a : weight) : weight_ltb a a = false.
Proof. destruct a; simpl; [apply Nat.ltb_irrefl | reflexivity]. Qed.

Lemma weight_below_lower (c bw wr : weight) :
  weight_ltb c bw = true -> weight_ltb c wr = false -> weight_ltb bw wr = false.
Proof. intros H1 H2. weight_cases. Qed.

Lemma weight_below_strict (c bw wr : weight) :
  weight_ltb c bw = true -> weight_ltb c wr = false -> weight_ltb wr bw = true.
Proof. intros H1 H2. weight_cases. Qed.

Lemma weight_above_lower (c bw wr : weight) :
  weight_ltb c bw = false -> weight_ltb bw wr = false -> weight_ltb c wr = false.
Proof. intros H1 H2. weight_cases. Qed.

Lemma weight_above_strict (c bw wr : weight) :
  weight_ltb c bw = false -> weight_ltb wr bw = true -> weight_ltb wr c = true.
Proof. intros H1 H2. weight_cases. Qed.

(** The scan of [argmin]: if [best] is the first minimum of what was read,
    the result is the first minimum of the whole sequence. *)
Lemma argmin_from_first_min (l pre : list weight) (best : nat) :
  first_min pre best ->
  first_min (pre ++ l) (argmin_from best (nth best pre None) (length pre) l).
Proof.
  revert pre best. induction l as [| c l IH]; intros pre best Hmin; simpl.
  - now rewrite app_nil_r.
  - destruct Hmin as (Hlt & Hlow & Hstrict).
    replace (pre ++ c :: l) with ((pre ++ [c]) ++ l) by (now rewrite <- app_assoc).
    assert (Hlen : length (pre ++ [c]) = S (length pre))
      by (rewrite length_app; simpl; lia).
    destruct (weight_ltb c (nth best pre None)) eqn:Hc.
    + assert (Hnew : first_min (pre ++ [c]) (length pre)).
      { unfold first_min. rewrite Hlen.
        assert (Hat : nth (length pre) (pre ++ [c]) None = c).
        { rewrite app_nth2, Nat.sub_diag by lia. reflexivity. }
        rewrite Hat. split; [lia |]. split.
        - intros k Hk. destruct (Nat.eq_dec k (length pre)) as [-> | Hne].
          + rewrite Hat. apply weight_ltb_irrefl.
          + rewrite app_nth1 by lia.
            specialize (Hlow k ltac:(lia)).
            destruct (weight_ltb (nth k pre None) c) eqn:Hk'; [| reflexivity].
            exfalso. revert Hc Hlow Hk'.
            generalize (nth k pre None), (nth best pre None). intros a b. weight_cases.
        - intros k Hk. rewrite app_nth1 by lia.
          specialize (Hlow k Hk). revert Hc Hlow.
          generalize (nth k pre None), (nth best pre None). intros a b. weight_cases. }
      specialize (IH (pre ++ [c]) (length pre) Hnew).
      rewrite Hlen in IH.
      replace (nth (length pre) (pre ++ [c]) None) with c in IH
        by (rewrite app_nth2, Nat.sub_diag by lia; reflexivity).
      exact IH.
    + assert (Hold : first_min (pre ++ [c]) best).
      { unfold first_min. rewrite Hlen. rewrite (app_nth1 pre [c] None Hlt).
        split; [lia |]. split.
        - intros k Hk. destruct (Nat.eq_dec k (length pre)) as [-> | Hne].
          + rewrite app_nth2, Nat.sub_diag by lia. exact Hc.
          + rewrite app_nth1 by lia. apply Hlow. lia.
        - intros k Hk. rewrite app_nth1 by lia. now apply Hstrict. }
      specialize (IH (pre ++ [c]) best Hold).
      rewrite Hlen in IH. rewrite (app_nth1 pre [c] None Hlt) in IH. exact IH.
Qed.

Lemma argmin_first_min (l : list weight) (k : nat) :
  argmin l = Ok k -> first_min l k.
Proof.
  destruct l as [| c l]; simpl; [discriminate |]. intros [= <-].
  apply (argmin_from_first_min l [c] 0).
  unfold first_min; simpl. split; [lia |]. split.
  - intros [| k] Hk; [apply weight_ltb_irrefl | lia].
  - intros k Hk. lia.
Qed.

(** X5.  The lexical location heuristic fails, with the ValueError of an
    empty [argmin], exactly when the grid has no cell.  Otherwise it
    returns a cell of the grid: when some cell has more than one possible
    pattern, a cell with more than one pattern and the smallest such count,
    the first one in row-major order among those; when no cell has, the
    cell [(0, 0)]. *)
Theorem lexicalLocationHeuristic_minimal (wave : ndarray) :
  match lexicalLocationHeuristic wave with
  | Ok (i, j) =>
      exists x y,
        i = Z.of_nat x /\ j = Z.of_nat y /\ x < dimW wave /\ y < dimH wave /\
        (forall x' y', x' < dimW wave -> y' < dimH wave -> 1 < count_at wave x' y' ->
           1 < count_at wave x y /\ count_at wave x y <= count_at wave x' y' /\
           (count_at wave x' y' = count_at wave x y -> x < x' \/ (x = x' /\ y <= y'))) /\
        ((forall x' y', x' < dimW wave -> y' < dimH wave -> count_at wave x' y' <= 1) ->
         x = 0 /\ y = 0)
  | Raise e => e = ValueError /\ dimW wave * dimH wave = 0
  | OutOfFuel => False
  end.
Proof.
  unfold lexicalLocationHeuristic.
  set (wt := fun a b => if 1 <? count_at wave a b then Some (count_at wave a b)
                        else None).
  assert (Hcells : forall a b, a < dimW wave -> b < dimH wave ->
            nth (a * dimH wave + b) (concat (cell_weights wave)) None = wt a b).
  { intros a b Ha Hb. unfold cell_weights.
    apply (concat_tab_nth weight (dimW wave) (dimH wave) wt None a b Ha Hb). }
  assert (Hlen : length (concat (cell_weights wave)) = dimW wave * dimH wave).
  { unfold cell_weights. apply (concat_tab_length weight _ _ wt). }
  destruct (argmin (concat (cell_weights wave))) as [k | e |] eqn:Hk; simpl.
  - destruct (argmin_first_min _ _ Hk) as (Hklt & Hlow & Hstrict).
    rewrite Hlen in Hklt, Hlow.
    assert (HH : 0 < dimH wave) by nia.
    assert (Hx : k / dimH wave < dimW wave)
      by (apply Nat.Div0.div_lt_upper_bound; lia).
    assert (Hy : k mod dimH wave < dimH wave) by (apply Nat.mod_upper_bound; lia).
    assert (Hkxy : k = (k / dimH wave) * dimH wave + k mod dimH wave).
    { rewrite (Nat.div_mod_eq k (dimH wave)) at 1. lia. }
    set (x := k / dimH wave) in *. set (y := k mod dimH wave) in *.
    exists x, y. split; [reflexivity |]. split; [reflexivity |].
    split; [exact Hx |]. split; [exact Hy |].
    rewrite Hkxy in Hlow, Hstrict. rewrite (Hcells x y Hx Hy) in Hlow, Hstrict.
    split.
    + intros x' y' Hx' Hy' Hcount.
      assert (Hidx : x' * dimH wave + y' < dimW wave * dimH wave) by nia.
      pose proof (Hlow _ Hidx) as Hl. rewrite (Hcells x' y' Hx' Hy') in Hl.
      unfold wt in Hl. apply Nat.ltb_lt in Hcount as Hc'. rewrite Hc' in Hl.
      destruct (Nat.ltb_spec 1 (count_at wave x y)) as [Hgt | Hle];
        [| discriminate].
      simpl in Hl. apply Nat.ltb_ge in Hl.
      split; [exact Hgt |]. split; [exact Hl |].
      intros Heq.
      destruct (Nat.lt_ge_cases (x' * dimH wave + y') (x * dimH wave + y))
        as [Hbefore | Hafter]; [| nia].
      exfalso. pose proof (Hstrict _ Hbefore) as Hs.
      rewrite (Hcells x' y' Hx' Hy') in Hs. unfold wt in Hs.
      rewrite Hc' in Hs. apply Nat.ltb_lt in Hgt. rewrite Hgt in Hs.
      simpl in Hs. apply Nat.ltb_lt in Hs. lia.
    + intros Hres.
      destruct (Nat.eq_dec (x * dimH wave + y) 0) as [H0 | Hpos]; [nia |].
      exfalso. pose proof (Hstrict 0 ltac:(lia)) as Hs.
      unfold wt in Hs.
      destruct (Nat.ltb_spec 1 (count_at wave x y)) as [Hgt | Hle].
      * specialize (Hres x y Hx Hy). lia.
      * discriminate.
  - destruct (concat (cell_weights wave)) as [| c l] eqn:Hl; [| discriminate].
    injection Hk as <-. split; [reflexivity |]. now rewrite <- Hlen.
  - destruct (concat (cell_weights wave)); discriminate.
Qed.

(** The lexical location heuristic returns a cell of the grid, and fails
    when there is none. *)
Lemma lexicalLocationHeuristic_located (wave : ndarray) :
  match lexicalLocationHeuristic wave with
  | Ok (i, j) =>
      exists x y, i = Z.of_nat x /\ j = Z.of_nat y /\ x < dimW wave /\ y < dimH wave
  | Raise e => e = ValueError /\ dimW wave * dimH wave = 0
  | OutOfFuel => False
  end.
Proof.
  unfold lexicalLocationHeuristic.
  assert (Hlen : length (concat (cell_weights wave)) = dimW wave * dimH wave).
  { unfold cell_weights.
    apply (concat_tab_length weight _ _
             (fun a b => if 1 <? count_at wave a b then Some (count_at wave a b)
                         else None)). }
  destruct (argmin (concat (cell_weights wave))) as [k | e |] eqn:Hk; simpl.
  - destruct (argmin_first_min _ _ Hk) as (Hklt & _). rewrite Hlen in Hklt.
    assert (HH : 0 < dimH wave) by nia.
    exists (k / dimH wave), (k mod dimH wave).
    split; [reflexivity |]. split; [reflexivity |]. split.
    + apply Nat.Div0.div_lt_upper_bound; lia.
    + apply Nat.mod_upper_bound; lia.
  - destruct (concat (cell_weights wave)) as [| c l] eqn:Hl; [| discriminate].
    injection Hk as <-. split; [reflexivity |]. now rewrite <- Hlen.
  - destruct (concat (cell_weights wave)); discriminate.
Qed.

(** ** propagate: the empty adjacency, and a second call *)

(** X6.  With no direction [propagate] changes nothing: it returns when the
    wave has a true entry and raises Contradiction when it has none; with
    [periodic] set and an axis of length 0 it fails before that, with the
    ValueError of the wrap-around padding. *)
Theorem propagate_empty_adjacency (wave : ndarray) (periodic : bool) :
  propagate wave [] periodic =
  if periodic && ((dimW wave =? 0) || (dimH wave =? 0)) then (Raise ValueError, wave)
  else if sum wave =? 0 then (Raise Contradiction, wave)
  else (Ok tt, wave).
Proof.
  unfold propagate. cbn [propagate_loop]. unfold sweep.
  destruct periodic; simpl.
  - unfold pad_wrap. destruct ((dimW wave =? 0) || (dimH wave =? 0)); simpl;
      [reflexivity |].
    now rewrite Nat.eqb_refl.
  - now rewrite Nat.eqb_refl.
Qed.

Lemma tab_ext (A : Type) (n : nat) (f g : nat -> A) :
  (forall i, i < n -> f i = g i) -> tab n f = tab n g.
Proof.
  intros H. unfold tab. apply map_ext_in. intros i Hi. apply in_seq in Hi.
  apply H. lia.
Qed.

Lemma tabulate_ext (n w h : nat) (f g : nat -> nat -> nat -> bool) :
  (forall p x y, p < n -> x < w -> y < h -> f p x y = g p x y) ->
  tabulate n w h f = tabulate n w h g.
Proof.
  intros H. unfold tabulate. f_equal.
  apply tab_ext; intros p Hp. apply tab_ext; intros x Hx.
  apply tab_ext; intros y Hy. now apply H.
Qed.

Lemma same_entries_refl (a : ndarray) : same_entries a a.
Proof. unfold same_entries. auto. Qed.

Lemma same_entries_sum (a b : ndarray) : same_entries a b -> sum a = sum b.
Proof.
  intros (HN & HW & HH & Hget). unfold sum. rewrite HN, HW, HH.
  apply nsum_ext; intros p Hp. apply nsum_ext; intros x Hx.
  apply nsum_ext; intros y Hy. now rewrite Hget.
Qed.

(** The padded array depends on the entries of the wave only. *)
Lemma pad_ext (a b : ndarray) (periodic : bool) :
  same_entries a b ->
  (if periodic then pad_wrap a else Ok (pad_const a)) =
  (if periodic then pad_wrap b else Ok (pad_const b)).
Proof.
  intros (HN & HW & HH & Hget). destruct periodic.
  - unfold pad_wrap. rewrite HN, HW, HH.
    destruct (Nat.eqb_spec (dimW b) 0) as [| HW0]; [reflexivity |].
    destruct (Nat.eqb_spec (dimH b) 0) as [| HH0]; [reflexivity |]. simpl.
    f_equal. apply tabulate_ext. intros p x y Hp _ _.
    apply Hget; [exact Hp | |]; apply Nat.mod_upper_bound; assumption.
  - f_equal. unfold pad_const. rewrite HN, HW, HH.
    apply tabulate_ext. intros p x y Hp _ _.
    destruct (Nat.leb_spec 1 x), (Nat.leb_spec x (dimW b)),
      (Nat.leb_spec 1 y), (Nat.leb_spec y (dimH b)); simpl; try reflexivity.
    apply Hget; lia.
Qed.

Lemma imul_ext (a b s : ndarray) :
  same_entries a b -> imul a s = imul b s.
Proof.
  intros (HN & HW & HH & Hget). unfold imul. rewrite HN, HW, HH.
  destruct (fits _ _ && fits _ _ && fits _ _); [| reflexivity].
  f_equal. apply tabulate_ext. intros p x y Hp Hx Hy. now rewrite Hget.
Qed.

Lemma apply_supports_ext (supports : list ndarray) (a b : ndarray) :
  same_entries a b ->
  fst (apply_supports a supports) = fst (apply_supports b supports) /\
  same_entries (snd (apply_supports a supports)) (snd (apply_supports b supports)).
Proof.
  intros Hab. destruct supports as [| s rest]; simpl; [auto |].
  rewrite (imul_ext a b s Hab).
  destruct (imul b s); simpl; auto using same_entries_refl.
Qed.

Lemma sweep_ext (a b : ndarray) (adj : adjacency) (periodic : bool) :
  same_entries a b ->
  fst (sweep a adj periodic) = fst (sweep b adj periodic) /\
  same_entries (snd (sweep a adj periodic)) (snd (sweep b adj periodic)).
Proof.
  intros Hab. unfold sweep. rewrite (pad_ext a b periodic Hab).
  destruct Hab as (HN & HW & HH & Hget).
  destruct (if periodic then pad_wrap b else Ok (pad_const b)) as [padded | |];
    simpl; [| split; [reflexivity | now repeat split] ..].
  rewrite HW, HH.
  destruct (supports_of padded (dimW b) (dimH b) adj) as [supports | |];
    simpl; [| split; [reflexivity | now repeat split] ..].
  apply apply_supports_ext. now repeat split.
Qed.

(** An array is canonical when its nested lists are exactly those of its
    shape; the arrays the code computes are. *)
Lemma tabulate_canonical (n w h : nat) (f : nat -> nat -> nat -> bool) :
  tabulate n w h f = tabulate n w h (get (tabulate n w h f)).
Proof.
  apply tabulate_ext. intros p x y Hp Hx Hy. now rewrite get_tabulate_in.
Qed.

Lemma same_entries_canonical (a b : ndarray) :
  same_entries a b ->
  a = tabulate (dimN a) (dimW a) (dimH a) (get a) ->
  b = tabulate (dimN b) (dimW b) (dimH b) (get b) ->
  a = b.
Proof.
  intros (HN & HW & HH & Hget) Ha Hb. rewrite Ha, Hb, HN, HW, HH.
  apply tabulate_ext. intros p x y Hp Hx Hy. now apply Hget.
Qed.

Lemma imul_canonical (a s a' : ndarray) :
  imul a s = Ok a' -> a' = tabulate (dimN a') (dimW a') (dimH a') (get a').
Proof.
  unfold imul. destruct (fits _ _ && fits _ _ && fits _ _); [| discriminate].
  intros [= <-]. apply tabulate_canonical.
Qed.

Lemma apply_supports_canonical (supports : list ndarray) (a a' : ndarray) :
  apply_supports a supports = (Ok tt, a') ->
  supports = [] \/ a' = tabulate (dimN a') (dimW a') (dimH a') (get a').
Proof.
  destruct supports as [| s rest]; [now left |]. right. revert a s H.
  induction rest as [| s' rest IH]; intros a s; simpl.
  - destruct (imul a s) as [a1 | |] eqn:Hmul; try discriminate.
    intros [= <-]. eapply imul_canonical; eassumption.
  - destruct (imul a s) as [a1 | |] eqn:Hmul; try discriminate.
    intros H. apply (IH a1 s'). exact H.
Qed.

Lemma supports_of_nil (padded : ndarray) (w h : nat) (adj : adjacency) :
  supports_of padded w h adj = Ok [] -> adj = [].
Proof.
  destruct adj as [| [d m] rest]; [reflexivity |]. simpl.
  destruct (support _ m); simpl; try discriminate.
  destruct (supports_of padded w h rest); simpl; discriminate.
Qed.

(** The array a normal pass leaves is canonical unless there is no
    direction at all. *)
Lemma sweep_canonical (a a' : ndarray) (adj : adjacency) (periodic : bool) :
  sweep a adj periodic = (Ok tt, a') ->
  adj = [] \/ a' = tabulate (dimN a') (dimW a') (dimH a') (get a').
Proof.
  unfold sweep.
  destruct (if periodic then pad_wrap a else Ok (pad_const a)) as [padded | |];
    try discriminate.
  destruct (supports_of padded (dimW a) (dimH a) adj) as [supports | |] eqn:Hs;
    try discriminate.
  intros H. destruct (apply_supports_canonical supports a a' H) as [-> | Hc].
  - left. eapply supports_of_nil; eassumption.
  - now right.
Qed.

(** X7.  [propagate] is idempotent: called again on the wave it has just
    returned on, it returns again and leaves the array as it is. *)
Theorem propagate_idempotent (wave wave' : ndarray) (adj : adjacency) (periodic : bool) :
  propagate wave adj periodic = (Ok tt, wave') ->
  propagate wave' adj periodic = (Ok tt, wave').
Proof.
  intros Hprop.
  pose proof (propagate_outcome wave adj periodic) as Hout. rewrite Hprop in Hout.
  destruct Hout as [Hfix Hpos].
  destruct (reaches_fixpoint_stable wave adj periodic wave' Hfix)
    as (last & _ & Hsweep & Hsame).
  pose proof (sweep_tightens last adj periodic) as [(HN & HW & HH & _) _].
  rewrite Hsweep in HN, HW, HH. simpl in HN, HW, HH.
  assert (Hse : same_entries wave' last) by (repeat split; assumption).
  destruct (sweep_ext wave' last adj periodic Hse) as [Hfst Hsnd].
  rewrite Hsweep in Hfst, Hsnd. simpl in Hfst, Hsnd.
  destruct (sweep wave' adj periodic) as [r w2] eqn:Hsw2. simpl in Hfst, Hsnd.
  subst r.
  assert (Heq : w2 = wave').
  { destruct (sweep_canonical last wave' adj periodic Hsweep) as [-> | Hc1].
    - revert Hsw2. unfold sweep.
      destruct (if periodic then pad_wrap wave' else Ok (pad_const wave'));
        simpl; congruence.
    - destruct (sweep_canonical wave' w2 adj periodic Hsw2) as [-> | Hc2].
      + revert Hsw2. unfold sweep.
        destruct (if periodic then pad_wrap wave' else Ok (pad_const wave'));
          simpl; congruence.
      + now apply same_entries_canonical. }
  subst w2.
  unfold propagate. cbn [propagate_loop]. rewrite Hsw2, Nat.eqb_refl.
  apply Nat.eqb_neq in Hpos. now rewrite Hpos.
Qed.

Lemma propagate_idempotent_witness :
  propagate test_wave checker_adj false = (Ok tt, test_wave).
Proof.
  apply (propagate_idempotent test_wave test_wave checker_adj false).
  vm_compute. reflexivity.
Defined.

(** ** propagate on a well-shaped adjacency *)

Lemma bdim_same (n : nat) : bdim n n = Some n.
Proof.
  unfold bdim. destruct (Nat.eqb_spec n 1); [reflexivity |].
  now rewrite Nat.eqb_refl.
Qed.

Lemma fits_same (n : nat) : fits n n = true.
Proof. unfold fits. now rewrite Nat.eqb_refl. Qed.

Lemma any_below_intro (n : nat) (f : nat -> bool) (i : nat) :
  i < n -> f i = true -> any_below n f = true.
Proof.
  induction n as [| n IH]; intros Hi Hf; [lia |]. simpl.
  destruct (Nat.eq_dec i n) as [-> | Hne]; [now rewrite Hf, orb_true_r |].
  rewrite IH; [reflexivity | lia | exact Hf].
Qed.

(** The support of a pattern, when the matrix has one row per pattern. *)
Lemma support_square (sh : ndarray) (m : matrix) :
  mrows m = dimN sh ->
  exists s,
    support sh m = Ok s /\
    dimN s = mcols m /\ dimW s = dimW sh /\ dimH s = dimH sh /\
    forall q x y, q < mcols m -> x < dimW sh -> y < dimH sh ->
      (get s q x y = true <->
       exists p, p < dimN sh /\ get sh p x y = true /\ mget m p q = true).
Proof.
  intros Hrows. unfold support. rewrite Hrows, bdim_same.
  eexists. split; [reflexivity |]. split; [reflexivity |].
  split; [reflexivity |]. split; [reflexivity |].
  intros q x y Hq Hx Hy. rewrite get_tabulate_in by assumption. split.
  - intros (p & Hp & [H1 H2]%andb_prop)%any_below_true.
    rewrite (bidx_in _ p Hp) in H1, H2. exists p. auto.
  - intros (p & Hp & H1 & H2). apply (any_below_intro _ _ p Hp).
    rewrite (bidx_in _ p Hp). now rewrite H1, H2.
Qed.

Lemma neighbour_in_range (periodic : bool) (w h x y : nat) (dx dy : Z) (x' y' : nat) :
  0 < w -> 0 < h ->
  neighbour periodic w h x y dx dy = Some (x', y') -> x' < w /\ y' < h.
Proof.
  intros Hw Hh. unfold neighbour. destruct periodic.
  - intros [= <- <-].
    pose proof (Z.mod_pos_bound (Z.of_nat x + dx) (Z.of_nat w) ltac:(lia)).
    pose proof (Z.mod_pos_bound (Z.of_nat y + dy) (Z.of_nat h) ltac:(lia)).
    lia.
  - destruct (Z.leb_spec 0 (Z.of_nat x + dx)), (Z.ltb_spec (Z.of_nat x + dx) (Z.of_nat w)),
      (Z.leb_spec 0 (Z.of_nat y + dy)), (Z.ltb_spec (Z.of_nat y + dy) (Z.of_nat h));
      simpl; try discriminate.
    intros [= <- <-]. lia.
Qed.

Lemma wrap_index (x w : nat) (dx : Z) :
  0 < w -> (-1 <= dx <= 1)%Z ->
  (Z.to_nat (1 + dx) + x + w - 1) mod w = Z.to_nat ((Z.of_nat x + dx) mod Z.of_nat w).
Proof.
  intros Hw Hdx. apply Nat2Z.inj.
  rewrite Nat2Z.inj_mod.
  pose proof (Z.mod_pos_bound (Z.of_nat x + dx) (Z.of_nat w) ltac:(lia)).
  rewrite Z2Nat.id by lia.
  replace (Z.of_nat (Z.to_nat (1 + dx) + x + w - 1))
    with (Z.of_nat x + dx + 1 * Z.of_nat w)%Z by lia.
  apply Z.mod_add. lia.
Qed.

(** What the view shifted by one step shows at a cell of the grid: its
    neighbour, or the all-true padding. *)
Lemma shifted_view (wave padded : ndarray) (periodic : bool) (dx dy : Z) (p x y : nat) :
  (if periodic then pad_wrap wave else Ok (pad_const wave)) = Ok padded ->
  (-1 <= dx <= 1)%Z -> (-1 <= dy <= 1)%Z ->
  p < dimN wave -> x < dimW wave -> y < dimH wave ->
  get (shifted padded (dimW wave) (dimH wave) (dx, dy)) p x y =
  match neighbour periodic (dimW wave) (dimH wave) x y dx dy with
  | Some (x', y') => get wave p x' y'
  | None => true
  end.
Proof.
  intros Hpad Hdx Hdy Hp Hx Hy.
  destruct (pad_dims wave padded periodic Hpad) as (HN & HW & HH).
  unfold shifted. rewrite HN, HW, HH.
  rewrite !clip_slice_in by lia.
  rewrite get_tabulate_in by lia.
  unfold neighbour. destruct periodic.
  - unfold pad_wrap in Hpad.
    destruct ((dimW wave =? 0) || (dimH wave =? 0)); [discriminate |].
    injection Hpad as <-. rewrite get_tabulate_in by lia.
    rewrite (wrap_index x (dimW wave) dx), (wrap_index y (dimH wave) dy) by lia.
    reflexivity.
  - injection Hpad as <-. unfold pad_const. rewrite get_tabulate_in by lia.
    set (a := Z.to_nat (1 + dx) + x). set (b := Z.to_nat (1 + dy) + y).
    assert (Hcond : ((1 <=? a) && (a <=? dimW wave) && (1 <=? b) && (b <=? dimH wave))
                    = ((0 <=? Z.of_nat x + dx)%Z && (Z.of_nat x + dx <? Z.of_nat (dimW wave))%Z
                       && (0 <=? Z.of_nat y + dy)%Z
                       && (Z.of_nat y + dy <? Z.of_nat (dimH wave))%Z)).
    { unfold a, b.
      destruct (Z.leb_spec 0 (Z.of_nat x + dx)),
        (Z.ltb_spec (Z.of_nat x + dx) (Z.of_nat (dimW wave))),
        (Z.leb_spec 0 (Z.of_nat y + dy)),
        (Z.ltb_spec (Z.of_nat y + dy) (Z.of_nat (dimH wave)));
        destruct (Nat.leb_spec 1 (Z.to_nat (1 + dx) + x)),
          (Nat.leb_spec (Z.to_nat (1 + dx) + x) (dimW wave)),
          (Nat.leb_spec 1 (Z.to_nat (1 + dy) + y)),
          (Nat.leb_spec (Z.to_nat (1 + dy) + y) (dimH wave));
        try reflexivity; lia. }
    rewrite Hcond.
    destruct ((0 <=? Z.of_nat x + dx)%Z && (Z.of_nat x + dx <? Z.of_nat (dimW wave))%Z
              && (0 <=? Z.of_nat y + dy)%Z
              && (Z.of_nat y + dy <? Z.of_nat (dimH wave))%Z) eqn:Hin; [| reflexivity].
    rewrite !andb_true_iff in Hin. destruct Hin as [[[H1 H2] H3] H4].
    apply Z.leb_le in H1, H3. apply Z.ltb_lt in H2, H4.
    unfold a, b. f_equal; lia.
Qed.

(** The supports of a well-shaped adjacency: one array of the shape of the
    wave for each direction, saying which patterns the neighbour allows. *)
Lemma supports_of_well_shaped (wave padded : ndarray) (periodic : bool) (adj : adjacency) :
  (if periodic then pad_wrap wave else Ok (pad_const wave)) = Ok padded ->
  well_shaped (dimN wave) adj ->
  exists supports,
    supports_of padded (dimW wave) (dimH wave) adj = Ok supports /\
    Forall2 (fun (e : direction * matrix) (s : ndarray) =>
               dimN s = dimN wave /\ dimW s = dimW wave /\ dimH s = dimH wave /\
               forall q x y, q < dimN wave -> x < dimW wave -> y < dimH wave ->
                 (get s q x y = true <->
                  exists p, p < dimN wave /\ mget (snd e) p q = true /\
                    match neighbour periodic (dimW wave) (dimH wave) x y
                            (fst (fst e)) (snd (fst e)) with
                    | Some (x', y') => get wave p x' y' = true
                    | None => True
                    end))
            adj supports.
Proof.
  intros Hpad. destruct (pad_dims wave padded periodic Hpad) as (HN & HW & HH).
  induction adj as [| [[dx dy] m] rest IH]; intros Hws; cbn [supports_of].
  - exists []. split; [reflexivity | constructor].
  - destruct (Hws dx dy m (or_introl eq_refl)) as (Hr & Hc & Hdx & Hdy).
    destruct (shifted_dims padded (dimW wave) (dimH wave) dx dy HW HH Hdx Hdy)
      as (HsN & HsW & HsH).
    destruct (support_square (shifted padded (dimW wave) (dimH wave) (dx, dy)) m)
      as (s & -> & HdN & HdW & HdH & Hget); [congruence |].
    destruct IH as (ss & -> & Hall).
    { intros dx' dy' m' Hin. apply Hws. now right. }
    cbn [bind]. exists (s :: ss). split; [reflexivity |].
    constructor; [| exact Hall]. cbn [fst snd].
    split; [congruence |]. split; [congruence |]. split; [congruence |].
    intros q x y Hq Hx Hy. rewrite Hget by congruence.
    rewrite HsN, HN. split.
    + intros (p & Hp & Hsh & Hm). exists p. split; [exact Hp |]. split; [exact Hm |].
      rewrite (shifted_view wave padded periodic dx dy p x y) in Hsh by assumption.
      destruct (neighbour _ _ _ _ _ _ _) as [[x' y'] |]; auto.
    + intros (p & Hp & Hm & Hnb). exists p. split; [exact Hp |].
      split; [| exact Hm].
      rewrite (shifted_view wave padded periodic dx dy p x y) by assumption.
      destruct (neighbour _ _ _ _ _ _ _) as [[x' y'] |]; auto.
Qed.

(** The products of a pass, when every support has the shape of the wave:
    an entry survives exactly when it is true in all of them. *)
Lemma apply_supports_all (supports : list ndarray) (wave : ndarray) :
  Forall (fun s => dimN s = dimN wave /\ dimW s = dimW wave /\ dimH s = dimH wave)
    supports ->
  exists wave',
    apply_supports wave supports = (Ok tt, wave') /\
    forall p x y, p < dimN wave -> x < dimW wave -> y < dimH wave ->
      (get wave' p x y = true <->
       get wave p x y = true /\ forall s, In s supports -> get s p x y = true).
Proof.
  revert wave. induction supports as [| s rest IH]; intros wave Hall; simpl.
  - exists wave. split; [reflexivity |]. intros p x y _ _ _.
    split; [intros H; split; [exact H | intros s []] | now intros [H _]].
  - inversion Hall as [| s' rest' (HN & HW & HH) Hrest]; subst.
    unfold imul. rewrite HN, HW, HH, !fits_same. simpl.
    set (wave1 := tabulate _ _ _ _).
    destruct (IH wave1) as (wave' & Happ & Hget).
    { eapply Forall_impl; [| exact Hrest]. intros a Ha. exact Ha. }
    exists wave'. split; [exact Happ |].
    intros p x y Hp Hx Hy. rewrite (Hget p x y Hp Hx Hy).
    unfold wave1. rewrite get_tabulate_in by assumption.
    rewrite !bidx_in by assumption. rewrite andb_true_iff. split.
    + intros [[H1 H2] H3]. split; [exact H1 |].
      intros s' [<- | Hin]; [exact H2 | now apply H3].
    + intros [H1 H2]. split; [split; [exact H1 | apply H2; now left] |].
      intros s' Hin. apply H2. now right.
Qed.

Lemma Forall2_In_l (A B : Type) (R : A -> B -> Prop) (l : list A) (l' : list B) (a : A) :
  Forall2 R l l' -> In a l -> exists b, In b l' /\ R a b.
Proof.
  induction 1 as [| a0 b0 l l' Hab _ IH]; intros Hin; [destruct Hin |].
  destruct Hin as [<- | Hin].
  - exists b0. split; [now left | exact Hab].
  - destruct (IH Hin) as (b & Hb & Hr). exists b. split; [now right | exact Hr].
Qed.

Lemma Forall2_In_r (A B : Type) (R : A -> B -> Prop) (l : list A) (l' : list B) (b : B) :
  Forall2 R l l' -> In b l' -> exists a, In a l /\ R a b.
Proof.
  induction 1 as [| a0 b0 l l' Hab _ IH]; intros Hin; [destruct Hin |].
  destruct Hin as [<- | Hin].
  - exists a0. split; [now left | exact Hab].
  - destruct (IH Hin) as (a & Ha & Hr). exists a. split; [now right | exact Hr].
Qed.

(** A pass on a well-shaped adjacency: it succeeds, and an entry survives
    exactly when, in every direction, the neighbour (if the view shows one)
    has a pattern that allows it. *)
Lemma sweep_well_shaped (wave : ndarray) (adj : adjacency) (periodic : bool) :
  well_shaped (dimN wave) adj ->
  (periodic = true -> 0 < dimW wave /\ 0 < dimH wave) ->
  exists wave',
    sweep wave adj periodic = (Ok tt, wave') /\
    forall q x y, q < dimN wave -> x < dimW wave -> y < dimH wave ->
      (get wave' q x y = true <->
       get wave q x y = true /\
       forall dx dy m, In ((dx, dy), m) adj ->
         exists p, p < dimN wave /\ mget m p q = true /\
           match neighbour periodic (dimW wave) (dimH wave) x y dx dy with
           | Some (x', y') => get wave p x' y' = true
           | None => True
           end).
Proof.
  intros Hws Hper. unfold sweep.
  assert (Hpad : exists padded,
            (if periodic then pad_wrap wave else Ok (pad_const wave)) = Ok padded).
  { destruct periodic; [| eexists; reflexivity].
    destruct (Hper eq_refl) as [HW HH]. unfold pad_wrap.
    destruct (Nat.eqb_spec (dimW wave) 0); [lia |].
    destruct (Nat.eqb_spec (dimH wave) 0); [lia |]. eexists; reflexivity. }
  destruct Hpad as [padded Hpad]. rewrite Hpad.
  destruct (supports_of_well_shaped wave padded periodic adj Hpad Hws)
    as (supports & -> & Hall).
  destruct (apply_supports_all supports wave) as (wave' & -> & Hget).
  { apply Forall_forall. intros s Hs.
    destruct (Forall2_In_r _ _ _ _ _ s Hall Hs) as (e & _ & HN & HW & HH & _). auto. }
  exists wave'. split; [reflexivity |].
  intros q x y Hq Hx Hy. rewrite (Hget q x y Hq Hx Hy).
  split; intros [Hw Hs]; (split; [exact Hw |]).
  - intros dx dy m Hin.
    destruct (Forall2_In_l _ _ _ _ _ _ Hall Hin) as (s & Hsin & _ & _ & _ & He).
    apply (He q x y Hq Hx Hy). now apply Hs.
  - intros s Hin.
    destruct (Forall2_In_r _ _ _ _ _ _ Hall Hin) as ([[dx dy] m] & He & _ & _ & _ & Hes).
    apply (Hes q x y Hq Hx Hy). now apply Hs.
Qed.

Lemma checker_well_shaped : well_shaped 3 checker_adj.
Proof.
  intros dx dy m Hin. simpl in Hin.
  destruct Hin as [Heq | [Heq | [Heq | [Heq | []]]]]; injection Heq as <- <- <-;
    repeat split; lia.
Qed.

Lemma checker_cardinal : cardinal checker_adj.
Proof.
  unfold cardinal, has_direction, checker_adj.
  repeat split; eexists; simpl; auto 6.
Qed.

Lemma sweep_fails_periodic_empty (wave : ndarray) (adj : adjacency) :
  dimW wave = 0 \/ dimH wave = 0 ->
  sweep wave adj true = (Raise ValueError, wave).
Proof.
  intros H. unfold sweep, pad_wrap.
  assert (((dimW wave =? 0) || (dimH wave =? 0)) = true) as ->; [| reflexivity].
  destruct H as [-> | ->]; simpl; [reflexivity | apply orb_true_r].
Qed.

Lemma propagate_loop_well_shaped (fuel : nat) (adj : adjacency) (periodic : bool) :
  forall (wave : ndarray) (last_count : nat) (e : exn),
    well_shaped (dimN wave) adj ->
    (periodic = true -> 0 < dimW wave /\ 0 < dimH wave) ->
    fst (propagate_loop fuel wave adj periodic last_count) <> Raise e.
Proof.
  induction fuel as [| fuel IH]; intros wave c e Hws Hper; simpl; [discriminate |].
  destruct (sweep_well_shaped wave adj periodic Hws Hper) as (wave' & Hsw & _).
  pose proof (sweep_tightens wave adj periodic) as [(HN & HW & HH & _) _].
  rewrite Hsw in *. simpl in HN, HW, HH.
  destruct (sum wave' =? c); [discriminate |].
  apply IH; rewrite ?HN, ?HW, ?HH; assumption.
Qed.

(** X9.  On a well-shaped adjacency the only failure of [propagate] besides
    Contradiction is the ValueError of the wrap-around padding, which it
    raises exactly when [periodic] is set and the grid has an axis of
    length 0. *)
Theorem propagate_value_error_iff (wave : ndarray) (adj : adjacency) (periodic : bool) :
  well_shaped (dimN wave) adj ->
  (fst (propagate wave adj periodic) = Raise ValueError <->
   periodic = true /\ (dimW wave = 0 \/ dimH wave = 0)) /\
  (fst (propagate wave adj periodic) <> Raise ValueError ->
   fst (propagate wave adj periodic) = Ok tt \/
   fst (propagate wave adj periodic) = Raise Contradiction).
Proof.
  intros Hws.
  pose proof (propagate_outcome wave adj periodic) as Hout.
  split.
  - split.
    + intros Hraise.
      destruct periodic; [split; [reflexivity |] |].
      * destruct (Nat.eq_dec (dimW wave) 0) as [| HW]; [now left |].
        destruct (Nat.eq_dec (dimH wave) 0) as [| HH]; [now right |].
        exfalso.
        destruct (propagate wave adj true) as [[[] | e |] w]; simpl in Hraise;
          try discriminate.
        injection Hraise as ->. destruct Hout as [_ Hloop].
        apply (propagate_loop_well_shaped (S (sum wave)) adj true wave (sum wave)
                 ValueError Hws); [intros _; lia | exact Hloop].
      * exfalso.
        destruct (propagate wave adj false) as [[[] | e |] w]; simpl in Hraise;
          try discriminate.
        injection Hraise as ->. destruct Hout as [_ Hloop].
        apply (propagate_loop_well_shaped (S (sum wave)) adj false wave (sum wave)
                 ValueError Hws); [discriminate | exact Hloop].
    + intros [-> Hempty]. unfold propagate. cbn [propagate_loop].
      now rewrite (sweep_fails_periodic_empty wave adj Hempty).
  - intros Hne.
    destruct (propagate wave adj periodic) as [[[] | e |] w]; simpl in *;
      [now left | | contradiction].
    destruct e; try (destruct Hout as [He _]; discriminate); [now right |].
    contradiction.
Qed.

Lemma propagate_value_error_iff_witness :
  (fst (propagate test_wave checker_adj true) = Raise ValueError <->
   true = true /\ (dimW test_wave = 0 \/ dimH test_wave = 0)) /\
  (fst (propagate test_wave checker_adj true) <> Raise ValueError ->
   fst (propagate test_wave checker_adj true) = Ok tt \/
   fst (propagate test_wave checker_adj true) = Raise Contradiction).
Proof.
  apply (propagate_value_error_iff test_wave checker_adj true).
  exact checker_well_shaped.
Defined.

(** At the fixpoint every pattern that is left at a cell is allowed, in
    every direction, by a pattern that is left at the neighbour. *)
Lemma propagate_supported (wave wave' : ndarray) (adj : adjacency) (periodic : bool) :
  propagate wave adj periodic = (Ok tt, wave') ->
  well_shaped (dimN wave) adj ->
  forall dx dy m q x y,
    In ((dx, dy), m) adj -> q < dimN wave -> x < dimW wave -> y < dimH wave ->
    get wave' q x y = true ->
    exists p, p < dimN wave /\ mget m p q = true /\
      match neighbour periodic (dimW wave) (dimH wave) x y dx dy with
      | Some (x', y') => get wave' p x' y' = true
      | None => True
      end.
Proof.
  intros Hprop Hws dx dy m q x y Hin Hq Hx Hy Hget.
  pose proof (propagate_outcome wave adj periodic) as Hout. rewrite Hprop in Hout.
  destruct Hout as [Hfix _].
  destruct (reaches_fixpoint_stable wave adj periodic wave' Hfix)
    as (last & (HN & HW & HH & _) & Hsweep & Hsame).
  assert (Hper : periodic = true -> 0 < dimW last /\ 0 < dimH last).
  { intros ->. destruct (Nat.eq_dec (dimW last) 0) as [H0 | H0].
    - rewrite (sweep_fails_periodic_empty last adj (or_introl H0)) in Hsweep.
      discriminate.
    - destruct (Nat.eq_dec (dimH last) 0) as [H1 | H1]; [| lia].
      rewrite (sweep_fails_periodic_empty last adj (or_intror H1)) in Hsweep.
      discriminate. }
  rewrite <- HN in Hws, Hq |- *. rewrite <- HW in Hx |- *. rewrite <- HH in Hy |- *.
  destruct (sweep_well_shaped last adj periodic Hws Hper) as (w2 & Hsw2 & Hchar).
  rewrite Hsweep in Hsw2. injection Hsw2 as <-.
  apply (Hchar q x y Hq Hx Hy) in Hget. destruct Hget as [_ Hdirs].
  destruct (Hdirs dx dy m Hin) as (p & Hp & Hm & Hnb).
  exists p. split; [exact Hp |]. split; [exact Hm |].
  destruct (neighbour periodic (dimW last) (dimH last) x y dx dy) as [[x' y'] |] eqn:Hn;
    [| exact I].
  destruct (neighbour_in_range periodic (dimW last) (dimH last) x y dx dy x' y'
              ltac:(lia) ltac:(lia) Hn) as [Hx' Hy'].
  now rewrite Hsame.
Qed.

(** X8.  When [propagate] returns on a well-shaped adjacency the wave is
    arc consistent: for every pattern [q] that is left at a cell and every
    direction, some pattern [p] with [m[p, q]] is left at the cell that the
    view shifted by the direction shows there (any [p] with [m[p, q]] where
    the view shows the padding). *)
Theorem propagate_arc_consistent (wave wave' : ndarray) (adj : adjacency) (periodic : bool) :
  propagate wave adj periodic = (Ok tt, wave') ->
  well_shaped (dimN wave) adj ->
  forall dx dy m q x y,
    In ((dx, dy), m) adj -> q < dimN wave -> x < dimW wave -> y < dimH wave ->
    get wave' q x y = true ->
    exists p, p < dimN wave /\ mget m p q = true /\
      match neighbour periodic (dimW wave) (dimH wave) x y dx dy with
      | Some (x', y') => get wave' p x' y' = true
      | None => True
      end.
Proof. exact (propagate_supported wave wave' adj periodic). Qed.

Lemma propagate_arc_consistent_witness :
  exists p, p < dimN test_wave /\
    mget (mkMat 3 3 [[false; true; false]; [true; false; false]; [false; false; true]]) p 0
      = true /\
    match neighbour false (dimW test_wave) (dimH test_wave) 0 0 1 0 with
    | Some (x', y') => get test_wave p x' y' = true
    | None => True
    end.
Proof.
  apply (propagate_arc_consistent test_wave test_wave checker_adj false
           ltac:(vm_compute; reflexivity) checker_well_shaped 1%Z 0%Z
           (mkMat 3 3 [[false; true; false]; [true; false; false]; [false; false; true]])
           0 0 0);
    [simpl; auto | simpl; lia | simpl; lia | simpl; lia | reflexivity].
Defined.

(** A pass keeps every pattern of an allowed assignment. *)
Lemma sweep_keeps_allowed (wave : ndarray) (adj : adjacency) (periodic : bool)
    (g : nat -> nat -> nat) :
  well_shaped (dimN wave) adj ->
  allowed periodic adj (dimN wave) (dimW wave) (dimH wave) g ->
  0 < dimW wave -> 0 < dimH wave ->
  (forall x y, x < dimW wave -> y < dimH wave -> get wave (g x y) x y = true) ->
  exists wave',
    sweep wave adj periodic = (Ok tt, wave') /\
    forall x y, x < dimW wave -> y < dimH wave -> get wave' (g x y) x y = true.
Proof.
  intros Hws [Hrange Hallowed] HW HH Hin.
  destruct (sweep_well_shaped wave adj periodic Hws ltac:(auto)) as (wave' & Hsw & Hchar).
  exists wave'. split; [exact Hsw |].
  intros x y Hx Hy. apply (Hchar (g x y) x y (Hrange x y Hx Hy) Hx Hy).
  split; [now apply Hin |].
  intros dx dy m Hm. specialize (Hallowed dx dy m x y Hm Hx Hy).
  destruct (neighbour periodic (dimW wave) (dimH wave) x y dx dy) as [[x' y'] |] eqn:Hn.
  - destruct (neighbour_in_range periodic _ _ x y dx dy x' y' HW HH Hn) as [Hx' Hy'].
    exists (g x' y'). split; [now apply Hrange |]. split; [exact Hallowed |].
    now apply Hin.
  - destruct Hallowed as (p & Hp & Hmp). exists p. auto.
Qed.

Lemma propagate_loop_keeps_allowed (fuel : nat) (adj : adjacency) (periodic : bool)
    (g : nat -> nat -> nat) :
  forall (wave : ndarray) (last_count : nat),
    well_shaped (dimN wave) adj ->
    allowed periodic adj (dimN wave) (dimW wave) (dimH wave) g ->
    0 < dimW wave -> 0 < dimH wave ->
    (forall x y, x < dimW wave -> y < dimH wave -> get wave (g x y) x y = true) ->
    forall x y, x < dimW wave -> y < dimH wave ->
      get (snd (propagate_loop fuel wave adj periodic last_count)) (g x y) x y = true.
Proof.
  induction fuel as [| fuel IH]; intros wave c Hws Hal HW HH Hin; simpl;
    [exact Hin |].
  destruct (sweep_keeps_allowed wave adj periodic g Hws Hal HW HH Hin)
    as (wave' & Hsw & Hin').
  pose proof (sweep_tightens wave adj periodic) as [(HdN & HdW & HdH & _) _].
  rewrite Hsw in *. simpl in HdN, HdW, HdH.
  destruct (sum wave' =? c); [exact Hin' |].
  rewrite <- HdN, <- HdW, <- HdH in *.
  now apply IH.
Qed.

(** X10.  [propagate] never removes a solution.  If [g] assigns to every
    cell of a grid with at least one cell a pattern that is possible there,
    and the adjacency allows [g], then [propagate] returns, without
    Contradiction, and every pattern of [g] is still possible. *)
Theorem propagate_preserves_solution (wave : ndarray) (adj : adjacency) (periodic : bool)
    (g : nat -> nat -> nat) :
  well_shaped (dimN wave) adj ->
  allowed periodic adj (dimN wave) (dimW wave) (dimH wave) g ->
  0 < dimW wave -> 0 < dimH wave ->
  (forall x y, x < dimW wave -> y < dimH wave -> get wave (g x y) x y = true) ->
  fst (propagate wave adj periodic) = Ok tt /\
  forall x y, x < dimW wave -> y < dimH wave ->
    get (snd (propagate wave adj periodic)) (g x y) x y = true.
Proof.
  intros Hws Hal HW HH Hin.
  pose proof (propagate_loop_keeps_allowed (S (sum wave)) adj periodic g wave (sum wave)
                Hws Hal HW HH Hin) as Hkeep.
  pose proof (propagate_loop_well_shaped (S (sum wave)) adj periodic wave (sum wave))
    as Hnoerr.
  pose proof (propagate_loop_enough_fuel (S (sum wave)) wave adj periodic
                (Nat.lt_succ_diag_r _)) as Hfuel.
  pose proof (propagate_loop_tightens (S (sum wave)) wave adj periodic (sum wave)) as Ht.
  unfold propagate.
  destruct (propagate_loop (S (sum wave)) wave adj periodic (sum wave))
    as [[[] | e |] w]; simpl in *.
  - destruct (Nat.eqb_spec (sum w) 0) as [Hzero | Hpos]; simpl; [| auto].
    exfalso. destruct Ht as (HdN & HdW & HdH & _).
    destruct Hal as [Hrange _].
    pose proof (Hkeep 0 0 HW HH) as Htrue.
    rewrite (proj1 (sum_zero w) Hzero) in Htrue; [discriminate | | |];
      rewrite ?HdN, ?HdW, ?HdH; auto.
  - exfalso. apply (Hnoerr e Hws); [auto | reflexivity].
  - contradiction.
Qed.

Lemma solid_allowed : allowed false checker_adj 3 3 4 (fun _ _ => 2).
Proof.
  split; [intros; lia |].
  intros dx dy m x y Hin _ _. simpl in Hin.
  destruct Hin as [Heq | [Heq | [Heq | [Heq | []]]]]; injection Heq as <- <- <-;
    (destruct (neighbour false 3 4 x y _ _) as [[x' y'] |];
     [reflexivity | exists 2; split; [lia | reflexivity]]).
Qed.

Lemma propagate_preserves_solution_witness :
  fst (propagate test_wave checker_adj false) = Ok tt /\
  forall x y, x < dimW test_wave -> y < dimH test_wave ->
    get (snd (propagate test_wave checker_adj false)) ((fun _ _ => 2) x y) x y = true.
Proof.
  apply (propagate_preserves_solution test_wave checker_adj false (fun _ _ => 2)
           checker_well_shaped solid_allowed);
    [simpl; lia | simpl; lia |].
  intros x y Hx Hy. simpl in Hx, Hy. cbv beta. unfold test_wave, ones.
  rewrite get_tabulate_in by lia. reflexivity.
Defined.

(** The equivalence above at the wave and the adjacency of the tests. *)
Lemma propagate_contradiction_cardinal_witness :
  fst (propagate test_wave checker_adj true) = Raise Contradiction <->
  exists wave',
    reaches_fixpoint test_wave checker_adj true wave' /\ exists x y, empty_cell wave' x y.
Proof.
  apply (propagate_contradiction_cardinal test_wave checker_adj true checker_cardinal);
    simpl; lia.
Defined.

(** ** run: the grid it returns *)

Lemma setitem_dims (wave marked : ndarray) (pattern i j : Z) (v : bool) :
  setitem wave pattern i j v = Ok marked ->
  dimN marked = dimN wave /\ dimW marked = dimW wave /\ dimH marked = dimH wave.
Proof.
  unfold setitem.
  destruct (norm_index (dimN wave) pattern), (norm_index (dimW wave) i),
    (norm_index (dimH wave) j); try discriminate.
  intros [= <-]. repeat split.
Qed.

Lemma setcell_dims (wave cleared : ndarray) (i j : Z) (v : bool) :
  setcell wave i j v = Ok cleared ->
  dimN cleared = dimN wave /\ dimW cleared = dimW wave /\ dimH cleared = dimH wave.
Proof.
  unfold setcell.
  destruct (norm_index (dimW wave) i), (norm_index (dimH wave) j); try discriminate.
  intros [= <-]. repeat split.
Qed.

Lemma commit_dims (wave chosen : ndarray) (pattern i j : Z) :
  commit wave pattern i j = (Ok tt, chosen) ->
  dimN chosen = dimN wave /\ dimW chosen = dimW wave /\ dimH chosen = dimH wave.
Proof.
  unfold commit.
  destruct (setcell wave i j false) as [cleared | |] eqn:Hc; try discriminate.
  destruct (setitem cleared pattern i j true) as [marked | |] eqn:Hs; try discriminate.
  intros [= <-].
  destruct (setcell_dims _ _ _ _ _ Hc) as (H1 & H2 & H3).
  destruct (setitem_dims _ _ _ _ _ _ Hs) as (H4 & H5 & H6).
  repeat split; congruence.
Qed.

(** A grid that [run] returns is read off a wave on which [propagate] has
    just returned, of the shape of the wave of the call and with no more
    true entries than cells. *)
Lemma run_result_stable (fuel : nat) (adj : adjacency) (loc : location_heuristic)
    (pat : pattern_heuristic) (periodic backtracking : bool)
    (onBacktrack : option callable) (g : grid) :
  forall (wave : ndarray) (onChoice checkFeasible : option callable),
    fst (fst (run fuel wave adj loc pat periodic backtracking onBacktrack onChoice
                checkFeasible)) = Ok g ->
    exists chosen w,
      propagate chosen adj periodic = (Ok tt, w) /\ g = argmax0 w /\
      sum w <= dimW w * dimH w /\
      dimN w = dimN wave /\ dimW w = dimW wave /\ dimH w = dimH wave.
Proof.
  induction fuel as [| fuel IH]; intros wave onChoice checkFeasible; [discriminate |].
  cbn [run].
  destruct (call_feasible checkFeasible wave) as [[[] | e |] ev0]; try discriminate.
  pose proof (propagate_tightens wave adj periodic) as (HN & HW & HH & _).
  destruct (propagate wave adj periodic) as [[[] | e |] tightened]; try discriminate.
  simpl in HN, HW, HH.
  assert (Htry : forall r final bound ev1,
            try_block (fun w => run fuel w adj loc pat periodic backtracking onBacktrack
                                  None None)
              tightened adj loc pat periodic onChoice = (r, final, bound, ev1) ->
            r = Ok g ->
            exists chosen w,
              propagate chosen adj periodic = (Ok tt, w) /\ g = argmax0 w /\
              sum w <= dimW w * dimH w /\
              dimN w = dimN wave /\ dimW w = dimW wave /\ dimH w = dimH wave).
  { intros r final bound ev1. unfold try_block.
    destruct (observe tightened loc pat) as [[[pattern i] j] | e |];
      [| intros [= <- _ _ _]; discriminate ..].
    destruct (call_choice onChoice pattern i j) as [[[] | e |] ev];
      [| intros [= <- _ _ _]; discriminate ..].
    destruct (commit tightened pattern i j) as [[[] | e |] chosen] eqn:Hcommit;
      [| intros [= <- _ _ _]; discriminate ..].
    destruct (commit_dims _ _ _ _ _ Hcommit) as (HcN & HcW & HcH).
    pose proof (propagate_tightens chosen adj periodic) as (HtN & HtW & HtH & _).
    destruct (propagate chosen adj periodic) as [[[] | e |] t2] eqn:Hp2;
      [| intros [= <- _ _ _]; discriminate ..].
    simpl in HtN, HtW, HtH.
    destruct (Nat.ltb_spec (dimW t2 * dimH t2) (sum t2)) as [Hmore | Hdone].
    - specialize (IH t2 None None).
      destruct (run fuel t2 adj loc pat periodic backtracking onBacktrack None None)
        as [[r' final'] ev'].
      intros [= <- _ _ _] Hr. destruct (IH Hr) as (c & w & H1 & H2 & H3 & H4 & H5 & H6).
      exists c, w. repeat split; auto; congruence.
    - intros [= <- _ _ _] [= <-]. exists chosen, t2. repeat split; auto; congruence. }
  destruct (try_block _ tightened adj loc pat periodic onChoice)
    as [[[r final] bound] ev1].
  specialize (Htry r final bound ev1 eq_refl).
  destruct r as [g' | e |]; simpl; [intros [= ->]; now apply Htry | | discriminate].
  destruct e; try discriminate.
  destruct backtracking; [| discriminate].
  destruct (call_backtrack onBacktrack) as [[[] | e |] ev2]; try discriminate.
  destruct bound as [[[pattern i] j] |]; [| discriminate].
  destruct (setitem wave pattern i j false) as [forbidden | e |] eqn:Hset;
    try discriminate.
  destruct (setitem_dims _ _ _ _ _ _ Hset) as (HfN & HfW & HfH).
  specialize (IH forbidden checkFeasible None).
  destruct (run fuel forbidden adj loc pat periodic true onBacktrack checkFeasible None)
    as [[r' final'] ev3].
  simpl. intros Hr. destruct (IH Hr) as (c & w & H1 & H2 & H3 & H4 & H5 & H6).
  exists c, w. repeat split; auto; congruence.
Qed.

(** *** Cells with exactly one pattern *)

Lemma count_at_unique (w : ndarray) (x y p p' : nat) :
  count_at w x y = 1 -> p < dimN w -> p' < dimN w ->
  get w p x y = true -> get w p' x y = true -> p = p'.
Proof.
  intros Hcount Hp Hp' Htrue Htrue'.
  destruct (Nat.eq_dec p' p) as [-> | Hne]; [reflexivity |]. exfalso.
  unfold count_at in Hcount.
  assert (Hle : forall q, q < dimN w -> b2n (q =? p) <= b2n (get w q x y)).
  { intros q _. destruct (Nat.eqb_spec q p) as [-> | _]; simpl; [now rewrite Htrue | lia]. }
  assert (Hsum : nsum (dimN w) (fun q => b2n (q =? p))
                 = nsum (dimN w) (fun q => b2n (get w q x y))).
  { rewrite count_pinned_bottom by assumption. now rewrite Hcount. }
  pose proof (nsum_le_eq _ _ _ Hle Hsum p' Hp') as Heq. cbv beta in Heq.
  apply Nat.eqb_neq in Hne. rewrite Hne, Htrue' in Heq. discriminate.
Qed.

Lemma cells_all_one (w : ndarray) :
  (forall x y, x < dimW w -> y < dimH w -> 1 <= count_at w x y) ->
  sum w <= dimW w * dimH w ->
  forall x y, x < dimW w -> y < dimH w -> count_at w x y = 1.
Proof.
  intros Hpos Hsum x y Hx Hy. rewrite sum_by_cells in Hsum.
  assert (Hrows : forall a, a < dimW w ->
            nsum (dimH w) (fun _ => 1) <= nsum (dimH w) (fun b => count_at w a b)).
  { intros a Ha. apply nsum_le. intros b Hb. now apply Hpos. }
  assert (Heq : nsum (dimW w) (fun _ => nsum (dimH w) (fun _ => 1))
                = nsum (dimW w) (fun a => nsum (dimH w) (fun b => count_at w a b))).
  { pose proof (nsum_le (dimW w) _ _ Hrows) as Hle.
    rewrite !nsum_const in *. lia. }
  pose proof (nsum_le_eq _ _ _ Hrows Heq x Hx) as Hrow. cbv beta in Hrow.
  pose proof (nsum_le_eq (dimH w) (fun _ => 1) (fun b => count_at w x b)
                (fun b Hb => Hpos x b Hx Hb) Hrow y Hy) as Hcell.
  cbv beta in Hcell. lia.
Qed.

Lemma grid_at_argmax0 (w : ndarray) (x y : nat) :
  x < dimW w -> y < dimH w ->
  grid_at (argmax0 w) x y =
  match first_true 0 (tab (dimN w) (fun p => get w p x y)) with
  | Some p => p
  | None => 0
  end.
Proof.
  intros Hx Hy. unfold grid_at, argmax0.
  rewrite nth_tab. apply Nat.ltb_lt in Hx. rewrite Hx.
  rewrite nth_tab. apply Nat.ltb_lt in Hy. now rewrite Hy.
Qed.

(** In a cell with one pattern [numpy.argmax] finds that pattern. *)
Lemma grid_at_resolved (w : ndarray) (x y : nat) :
  x < dimW w -> y < dimH w -> count_at w x y = 1 ->
  grid_at (argmax0 w) x y < dimN w /\ get w (grid_at (argmax0 w) x y) x y = true.
Proof.
  intros Hx Hy Hcount. rewrite grid_at_argmax0 by assumption.
  destruct (first_true 0 (tab (dimN w) (fun p => get w p x y))) as [p |] eqn:Hp.
  - destruct (first_true_first _ _ _ Hp) as (_ & Hlen & Hnth & _).
    rewrite Nat.sub_0_r, tab_length in *. rewrite nth_tab in Hnth.
    apply Nat.ltb_lt in Hlen as Hlt. rewrite Hlt in Hnth. auto.
  - exfalso. pose proof (first_true_none _ _ Hp) as Hnone.
    assert (count_at w x y = 0); [| lia].
    apply count_at_zero. intros p Hlt. specialize (Hnone p).
    rewrite nth_tab in Hnone. apply Nat.ltb_lt in Hlt. now rewrite Hlt in Hnone.
Qed.

(** On an adjacency with the four cardinal directions, a wave on which
    [propagate] returns with no more true entries than cells has exactly
    one pattern in every cell. *)
Lemma stable_cells_resolved (chosen w : ndarray) (adj : adjacency) (periodic : bool) :
  cardinal adj ->
  propagate chosen adj periodic = (Ok tt, w) ->
  sum w <= dimW w * dimH w ->
  forall x y, x < dimW w -> y < dimH w -> count_at w x y = 1.
Proof.
  intros Hcard Hprop Hsum.
  pose proof (propagate_outcome chosen adj periodic) as Hout. rewrite Hprop in Hout.
  destruct Hout as [Hfix Hpos].
  destruct (reaches_fixpoint_stable chosen adj periodic w Hfix)
    as (last & _ & Hsweep & Hsame).
  pose proof (sweep_tightens last adj periodic) as [(HN & HW & HH & _) _].
  rewrite Hsweep in HN, HW, HH. simpl in HN, HW, HH.
  apply cells_all_one; [| exact Hsum].
  intros x y Hx Hy.
  destruct (Nat.eq_dec (count_at w x y) 0) as [Hzero | Hne]; [| lia].
  exfalso. apply Hpos. apply sum_zero. intros p a b Hp Ha Hb.
  rewrite HN in Hp. rewrite HW in Ha, Hx. rewrite HH in Hb, Hy.
  rewrite Hsame by assumption.
  apply (cardinal_fixpoint_empty last w adj periodic x y Hcard Hsweep Hsame Hx Hy);
    try assumption.
  intros q Hq. rewrite <- Hsame by assumption.
  rewrite count_at_zero in Hzero. apply Hzero. now rewrite HN.
Qed.

Lemma argmax0_shape (w : ndarray) :
  length (argmax0 w) = dimW w /\
  forall x, x < dimW w -> length (nth x (argmax0 w) []) = dimH w.
Proof.
  unfold argmax0. split; [apply tab_length |].
  intros x Hx. rewrite nth_tab. apply Nat.ltb_lt in Hx. rewrite Hx. apply tab_length.
Qed.

(** X15.  On a well-shaped adjacency with the four cardinal directions a
    grid that [run] returns, with any heuristics and hooks, with or without
    backtracking, has the shape of the grid of the wave and is allowed by
    the adjacency: for every cell and direction, the matrix of the
    direction has a true entry at (pattern of the neighbour the shifted
    view shows, pattern of the cell). *)
Theorem run_grid_consistent (fuel : nat) (wave : ndarray) (adj : adjacency)
    (loc : location_heuristic) (pat : pattern_heuristic) (periodic backtracking : bool)
    (onBacktrack onChoice checkFeasible : option callable) (g : grid) :
  cardinal adj -> well_shaped (dimN wave) adj ->
  fst (fst (run fuel wave adj loc pat periodic backtracking onBacktrack onChoice
              checkFeasible)) = Ok g ->
  length g = dimW wave /\
  (forall x, x < dimW wave -> length (nth x g []) = dimH wave) /\
  allowed periodic adj (dimN wave) (dimW wave) (dimH wave) (grid_at g).
Proof.
  intros Hcard Hws Hrun.
  destruct (run_result_stable fuel adj loc pat periodic backtracking onBacktrack g
              wave onChoice checkFeasible Hrun)
    as (chosen & w & Hprop & -> & Hsum & HN & HW & HH).
  destruct (argmax0_shape w) as [Hlen Hrows].
  rewrite <- HN, <- HW, <- HH in *.
  split; [exact Hlen |]. split; [exact Hrows |].
  pose proof (stable_cells_resolved chosen w adj periodic Hcard Hprop Hsum) as Hone.
  pose proof (propagate_tightens chosen adj periodic) as (HcN & HcW & HcH & _).
  rewrite Hprop in HcN, HcW, HcH. simpl in HcN, HcW, HcH.
  split.
  - intros x y Hx Hy. now apply grid_at_resolved; auto.
  - intros dx dy m x y Hin Hx Hy.
    destruct (grid_at_resolved w x y Hx Hy (Hone x y Hx Hy)) as [Hq Hget].
    rewrite HcN in Hws, Hq. rewrite HcW in Hx. rewrite HcH in Hy.
    destruct (propagate_supported chosen w adj periodic Hprop Hws dx dy m
                (grid_at (argmax0 w) x y) x y Hin Hq Hx Hy Hget)
      as (p & Hp & Hm & Hnb).
    rewrite <- HcN in Hp. rewrite <- HcW, <- HcH in Hnb. rewrite <- HcW in Hx.
    rewrite <- HcH in Hy.
    destruct (neighbour periodic (dimW w) (dimH w) x y dx dy) as [[x' y'] |] eqn:Hn.
    + assert (HWpos : 0 < dimW w) by lia.
      assert (HHpos : 0 < dimH w) by lia.
      destruct (neighbour_in_range periodic _ _ x y dx dy x' y' HWpos HHpos Hn)
        as [Hx' Hy'].
      destruct (grid_at_resolved w x' y' Hx' Hy' (Hone x' y' Hx' Hy')) as [Hq' Hget'].
      rewrite (count_at_unique w x' y' (grid_at (argmax0 w) x' y') p
                 (Hone x' y' Hx' Hy') Hq' Hp Hget' Hnb).
      exact Hm.
    + exists p. split; [now rewrite <- HcN in * | exact Hm].
Qed.

Lemma run_grid_consistent_witness :
  length [[0; 1; 0; 1]; [1; 0; 1; 0]; [0; 1; 0; 1]] = dimW test_wave /\
  (forall x, x < dimW test_wave ->
     length (nth x [[0; 1; 0; 1]; [1; 0; 1; 0]; [0; 1; 0; 1]] []) = dimH test_wave) /\
  allowed false checker_adj (dimN test_wave) (dimW test_wave) (dimH test_wave)
    (grid_at [[0; 1; 0; 1]; [1; 0; 1; 0]; [0; 1; 0; 1]]).
Proof.
  apply (run_grid_consistent 1 test_wave checker_adj lexicalLocationHeuristic
           lexicalPatternHeuristic false false None None None
           [[0; 1; 0; 1]; [1; 0; 1; 0]; [0; 1; 0; 1]]
           checker_cardinal checker_well_shaped).
  vm_compute. reflexivity.
Defined.

(** ** run without backtracking *)

Lemma backtracks_app (a b : list event) :
  backtracks (a ++ b) = backtracks a + backtracks b.
Proof. unfold backtracks. now rewrite filter_app, length_app. Qed.

Lemma call_feasible_no_backtrack (checkFeasible : option callable) (wave : ndarray) :
  backtracks (snd (call_feasible checkFeasible wave)) = 0.
Proof. now destruct checkFeasible as [[] |]. Qed.

Lemma call_choice_no_backtrack (onChoice : option callable) (pattern i j : Z) :
  backtracks (snd (call_choice onChoice pattern i j)) = 0.
Proof. now destruct onChoice as [[] |]. Qed.

(** X14.  With [backtracking = False] the [onBacktrack] hook is never
    called, and a grid that [run] returns is the [numpy.argmax] of the
    array the caller passed, as [run] leaves it: that array is then a wave
    on which [propagate] has just returned, with at least one true entry
    and no more true entries than cells. *)
Theorem run_without_backtracking (fuel : nat) (adj : adjacency) (loc : location_heuristic)
    (pat : pattern_heuristic) (periodic : bool) (onBacktrack : option callable)
    (wave : ndarray) (onChoice checkFeasible : option callable) :
  let '(r, final, log) :=
    run fuel wave adj loc pat periodic false onBacktrack onChoice checkFeasible in
  backtracks log = 0 /\
  forall g, r = Ok g ->
    g = argmax0 final /\
    sum final <= dimW final * dimH final /\ sum final <> 0 /\
    exists chosen, propagate chosen adj periodic = (Ok tt, final).
Proof.
  revert wave onChoice checkFeasible.
  induction fuel as [| fuel IH]; intros wave onChoice checkFeasible;
    [split; [reflexivity | discriminate] |].
  cbn [run].
  pose proof (call_feasible_no_backtrack checkFeasible wave) as Hcf.
  destruct (call_feasible checkFeasible wave) as [[[] | e |] ev0]; simpl in Hcf;
    [| split; [exact Hcf | discriminate] ..].
  destruct (propagate wave adj periodic) as [[[] | e |] tightened];
    [| split; [exact Hcf | discriminate] ..].
  unfold try_block.
  destruct (observe tightened loc pat) as [[[pattern i] j] | e |];
    [| destruct e; simpl; rewrite app_nil_r; (split; [exact Hcf | discriminate])
     | simpl; rewrite app_nil_r; split; [exact Hcf | discriminate]].
  pose proof (call_choice_no_backtrack onChoice pattern i j) as Hcc.
  assert (Hlog0 : forall ev', backtracks ev' = 0 -> backtracks (ev0 ++ ev') = 0)
    by (intros ev' H; now rewrite backtracks_app, Hcf, H).
  destruct (call_choice onChoice pattern i j) as [[[] | e |] ev]; simpl in Hcc;
    [| destruct e; simpl; (split; [now apply Hlog0 | discriminate])
     | simpl; split; [now apply Hlog0 | discriminate]].
  destruct (commit tightened pattern i j) as [[[] | e |] chosen];
    [| destruct e; simpl; (split; [now apply Hlog0 | discriminate])
     | simpl; split; [now apply Hlog0 | discriminate]].
  pose proof (propagate_outcome chosen adj periodic) as Hout.
  destruct (propagate chosen adj periodic) as [[[] | e |] t2] eqn:Hp2;
    [| destruct e; simpl; (split; [now apply Hlog0 | discriminate])
     | simpl; split; [now apply Hlog0 | discriminate]].
  destruct (Nat.ltb_spec (dimW t2 * dimH t2) (sum t2)) as [Hmore | Hdone].
  - specialize (IH t2 None None).
    destruct (run fuel t2 adj loc pat periodic false onBacktrack None None)
      as [[r final] ev'].
    destruct IH as [Hbt Hres].
    assert (Hlog : backtracks (ev0 ++ ev ++ ev') = 0)
      by (rewrite !backtracks_app, Hcf, Hcc, Hbt; reflexivity).
    destruct r as [g | e |]; simpl.
    + split; [exact Hlog | exact Hres].
    + destruct e; simpl; (split; [exact Hlog | discriminate]).
    + split; [exact Hlog | discriminate].
  - simpl. split; [now apply Hlog0 |].
    intros g [= <-]. destruct Hout as [_ Hpos].
    split; [reflexivity |]. split; [exact Hdone |]. split; [exact Hpos |].
    now exists chosen.
Qed.

(** Termination under the lexical heuristics, on the wave and the adjacency
    of the tests. *)
Lemma run_lexical_total_witness :
  fst (fst (run 37 test_wave checker_adj lexicalLocationHeuristic lexicalPatternHeuristic
              true true None None None)) <> OutOfFuel.
Proof.
  apply (run_lexical_total 37 checker_adj true true None test_wave None None).
  vm_compute. lia.
Defined.

(** ** observe and run with the lexical heuristics *)

(** X16.  [observe] with the lexical heuristics returns the cell chosen by
    the location heuristic and the smallest pattern that is possible there.
    It fails with a ValueError exactly when the grid has no cell, and with
    an IndexError exactly when the cell chosen by the location heuristic
    has no possible pattern left. *)
Theorem observe_lexical_outcomes (wave : ndarray) :
  match observe wave lexicalLocationHeuristic lexicalPatternHeuristic with
  | Ok (pattern, i, j) =>
      lexicalLocationHeuristic wave = Ok (i, j) /\
      exists p x y,
        pattern = Z.of_nat p /\ i = Z.of_nat x /\ j = Z.of_nat y /\
        p < dimN wave /\ x < dimW wave /\ y < dimH wave /\
        get wave p x y = true /\ forall q, q < p -> get wave q x y = false
  | Raise e =>
      (e = ValueError /\ dimW wave * dimH wave = 0) \/
      (e = IndexError /\
       exists x y, lexicalLocationHeuristic wave = Ok (Z.of_nat x, Z.of_nat y) /\
                   x < dimW wave /\ y < dimH wave /\ count_at wave x y = 0)
  | OutOfFuel => False
  end.
Proof.
  pose proof (lexicalLocationHeuristic_located wave) as Hloc.
  unfold observe.
  destruct (lexicalLocationHeuristic wave) as [[i j] | e |]; simpl.
  - destruct Hloc as (x & y & -> & -> & Hx & Hy).
    unfold cell. rewrite !norm_index_nonneg by lia. rewrite !Nat2Z.id. simpl.
    pose proof (lexicalPatternHeuristic_smallest
                  (tab (dimN wave) (fun p => get wave p x y))) as Hpat.
    destruct (lexicalPatternHeuristic (tab (dimN wave) (fun p => get wave p x y)))
      as [z | e |]; simpl.
    + destruct Hpat as (p & -> & Hlen & Hnth & Hall). rewrite tab_length in Hlen.
      split; [reflexivity |]. exists p, x, y.
      repeat split; try assumption; try reflexivity.
      * rewrite nth_tab in Hnth. apply Nat.ltb_lt in Hlen. now rewrite Hlen in Hnth.
      * intros q Hq. specialize (Hall q Hq). rewrite nth_tab in Hall.
        assert ((q <? dimN wave) = true) as Hlt by (apply Nat.ltb_lt; lia).
        now rewrite Hlt in Hall.
    + destruct Hpat as [-> Hnone]. right. split; [reflexivity |].
      exists x, y. repeat split; try assumption.
      apply count_at_zero. intros p Hp. specialize (Hnone p).
      rewrite nth_tab in Hnone. apply Nat.ltb_lt in Hp. now rewrite Hp in Hnone.
    + exact Hpat.
  - left. exact Hloc.
  - exact Hloc.
Qed.

(** ** run with the lexical heuristics never adds a pattern *)

(** An assignment of [False] only removes a possibility. *)
Lemma setitem_false_tightens (wave forbidden : ndarray) (pattern i j : Z) :
  setitem wave pattern i j false = Ok forbidden -> tightens forbidden wave.
Proof.
  unfold setitem.
  destruct (norm_index (dimN wave) pattern) as [p |]; [| discriminate].
  destruct (norm_index (dimW wave) i) as [x |]; [| destruct p; discriminate].
  destruct (norm_index (dimH wave) j) as [y |]; [| destruct p; discriminate].
  intros [= <-]. unfold tightens. repeat split.
  intros q a b. rewrite get_assign.
  destruct ((q <? dimN wave) && (a <? dimW wave) && (b <? dimH wave)); [| discriminate].
  now destruct ((q =? p) && (a =? x) && (b =? y)).
Qed.

(** The array behind a grid returned under the lexical heuristics is a
    fixpoint of [propagate] that tightens the wave [run] was given. *)
Lemma run_lexical_result_tightens (fuel : nat) (adj : adjacency)
    (periodic backtracking : bool) (onBacktrack : option callable) (g : grid) :
  forall (wave : ndarray) (onChoice checkFeasible : option callable),
    fst (fst (run fuel wave adj lexicalLocationHeuristic lexicalPatternHeuristic
                periodic backtracking onBacktrack onChoice checkFeasible)) = Ok g ->
    exists chosen w,
      propagate chosen adj periodic = (Ok tt, w) /\ g = argmax0 w /\
      sum w <= dimW w * dimH w /\ tightens w wave.
Proof.
  induction fuel as [| fuel IH]; intros wave onChoice checkFeasible; [discriminate |].
  cbn [run].
  destruct (call_feasible checkFeasible wave) as [[[] | e |] ev0]; try discriminate.
  pose proof (propagate_tightens wave adj periodic) as Ht.
  destruct (propagate wave adj periodic) as [[[] | e |] tightened]; try discriminate.
  simpl in Ht.
  assert (Htry : forall r final bound ev1,
            try_block (fun w => run fuel w adj lexicalLocationHeuristic
                                  lexicalPatternHeuristic periodic backtracking
                                  onBacktrack None None)
              tightened adj lexicalLocationHeuristic lexicalPatternHeuristic periodic
              onChoice = (r, final, bound, ev1) ->
            r = Ok g ->
            exists chosen w,
              propagate chosen adj periodic = (Ok tt, w) /\ g = argmax0 w /\
              sum w <= dimW w * dimH w /\ tightens w wave).
  { intros r final bound ev1. unfold try_block.
    destruct (observe tightened lexicalLocationHeuristic lexicalPatternHeuristic)
      as [[[pattern i] j] | e |] eqn:Hobs; [| intros [= <- _ _ _]; discriminate ..].
    destruct (observe_lexical tightened pattern i j Hobs)
      as (p & x & y & -> & -> & -> & Hp & Hx & Hy & Htrue & _).
    destruct (call_choice onChoice (Z.of_nat p) (Z.of_nat x) (Z.of_nat y))
      as [[[] | e |] ev]; [| intros [= <- _ _ _]; discriminate ..].
    destruct (commit_possible tightened p x y Hp Hx Hy Htrue) as (chosen & -> & Hc & _).
    pose proof (propagate_tightens chosen adj periodic) as Ht2.
    destruct (propagate chosen adj periodic) as [[[] | e |] t2] eqn:Hp2;
      [| intros [= <- _ _ _]; discriminate ..].
    simpl in Ht2.
    assert (Hall : tightens t2 wave).
    { apply (tightens_trans _ chosen); [exact Ht2 |].
      apply (tightens_trans _ tightened); assumption. }
    destruct (Nat.ltb_spec (dimW t2 * dimH t2) (sum t2)) as [Hmore | Hdone].
    - specialize (IH t2 None None).
      destruct (run fuel t2 adj lexicalLocationHeuristic lexicalPatternHeuristic periodic
                  backtracking onBacktrack None None) as [[r' final'] ev'].
      intros [= <- _ _ _] Hr. destruct (IH Hr) as (c & w & H1 & H2 & H3 & H4).
      exists c, w. split; [exact H1 |]. split; [exact H2 |]. split; [exact H3 |].
      now apply (tightens_trans _ t2).
    - intros [= <- _ _ _] [= <-]. exists chosen, t2. auto. }
  destruct (try_block _ tightened adj lexicalLocationHeuristic lexicalPatternHeuristic
              periodic onChoice) as [[[r final] bound] ev1].
  specialize (Htry r final bound ev1 eq_refl).
  destruct r as [g' | e |]; simpl; [intros [= ->]; now apply Htry | | discriminate].
  destruct e; try discriminate.
  destruct backtracking; [| discriminate].
  destruct (call_backtrack onBacktrack) as [[[] | e |] ev2]; try discriminate.
  destruct bound as [[[pattern i] j] |]; [| discriminate].
  destruct (setitem wave pattern i j false) as [forbidden | e |] eqn:Hset;
    try discriminate.
  pose proof (setitem_false_tightens _ _ _ _ _ Hset) as Hf.
  specialize (IH forbidden checkFeasible None).
  destruct (run fuel forbidden adj lexicalLocationHeuristic lexicalPatternHeuristic
              periodic true onBacktrack checkFeasible None) as [[r' final'] ev3].
  simpl. intros Hr. destruct (IH Hr) as (c & w & H1 & H2 & H3 & H4).
  exists c, w. split; [exact H1 |]. split; [exact H2 |]. split; [exact H3 |].
  now apply (tightens_trans _ forbidden).
Qed.

(** X17.  With the lexical heuristics and an adjacency that has the four
    cardinal directions, every pattern of a returned grid was possible at
    its cell in the wave [run] was given: the solver never assigns a
    pattern the caller had excluded. *)
Theorem run_lexical_respects_wave (fuel : nat) (wave : ndarray) (adj : adjacency)
    (periodic backtracking : bool) (onBacktrack onChoice checkFeasible : option callable)
    (g : grid) :
  cardinal adj ->
  fst (fst (run fuel wave adj lexicalLocationHeuristic lexicalPatternHeuristic
              periodic backtracking onBacktrack onChoice checkFeasible)) = Ok g ->
  forall x y, x < dimW wave -> y < dimH wave ->
    grid_at g x y < dimN wave /\ get wave (grid_at g x y) x y = true.
Proof.
  intros Hcard Hrun x y Hx Hy.
  destruct (run_lexical_result_tightens fuel adj periodic backtracking onBacktrack g
              wave onChoice checkFeasible Hrun)
    as (chosen & w & Hprop & -> & Hsum & (HN & HW & HH & Hget)).
  rewrite <- HW in Hx. rewrite <- HH in Hy.
  pose proof (stable_cells_resolved chosen w adj periodic Hcard Hprop Hsum x y Hx Hy)
    as Hone.
  destruct (grid_at_resolved w x y Hx Hy Hone) as [Hq Htrue].
  split; [now rewrite <- HN | now apply Hget].
Qed.

Lemma run_lexical_respects_wave_witness :
  cardinal checker_adj /\
  forall x y, x < dimW test_wave -> y < dimH test_wave ->
    grid_at [[0; 1; 0; 1]; [1; 0; 1; 0]; [0; 1; 0; 1]] x y < dimN test_wave /\
    get test_wave (grid_at [[0; 1; 0; 1]; [1; 0; 1; 0]; [0; 1; 0; 1]] x y) x y = true.
Proof.
  split; [exact checker_cardinal |].
  apply (run_lexical_respects_wave 1 test_wave checker_adj false false None None None
           [[0; 1; 0; 1]; [1; 0; 1; 0]; [0; 1; 0; 1]] checker_cardinal).
  vm_compute. reflexivity.
Defined.
